(** * Error Diffusion network engine (ed_reworked): shallow embedding

    The C program keeps the whole network in process-wide arrays and
    scalars (ed_main.c).  Here the globals become one record, [ed_state],
    and every C function becomes a state transformer over it.

    Modelling conventions:
    - C [int] is [Z]; no dimension in the program gets near the machine
      range, so no wrap-around is written out.
    - C [double] is idealised as a real number ([R]); [fabs] is [Rabs],
      [exp] is [exp].  Infinities and NaN are outside the model.  Rounding
      is outside it too, so facts that rounding destroys (a strict bound
      that saturates, a strict order that collapses) are stated in the weak
      form that survives it; the double arithmetic of [sigmoid] after its
      call of [exp] is written out separately on binary64 floats
      ([sigmoid_of_exp]) to show where the two differ.
    - a C array is a total map from indices; the fixed capacities
      [MAX_NETWORK] and [MAX_OUTPUT] are recorded but accesses are not
      bounds-checked (neither are they in C).
    - [printf] output is not part of the state and is dropped.
    - libc [rand()] is a stream of non-negative integers fixed by the seed,
      together with a read position. *)

From Stdlib Require Import ZArith Reals Lra Lia List Bool Permutation FinFun.
From Corelib Require Import PrimFloat.
Import ListNotations.

Local Open Scope Z_scope.

(** ** Arrays as total maps *)

Definition arr1 := Z -> R.
Definition arr2 := Z -> Z -> R.
Definition arr3 := Z -> Z -> Z -> R.

Definition upd1 (a : arr1) (i : Z) (v : R) : arr1 :=
  fun i' => if i' =? i then v else a i'.

Definition upd2 (a : arr2) (i j : Z) (v : R) : arr2 :=
  fun i' j' => if (i' =? i) && (j' =? j) then v else a i' j'.

Definition upd3 (a : arr3) (i j k : Z) (v : R) : arr3 :=
  fun i' j' k' => if (i' =? i) && (j' =? j) && (k' =? k) then v else a i' j' k'.

Definition updflag (a : Z -> Z) (i v : Z) : Z -> Z :=
  fun i' => if i' =? i then v else a i'.

(** ** The globals of ed_main.c *)

Definition MAX_NETWORK : Z := 1000.
Definition MAX_OUTPUT : Z := 10.

Record ed_state : Type := mk_state {
  size_input : Z;
  size_output : Z;
  size_hidden : Z;
  size_hidden2 : Z;
  total_neurons : Z;
  neuron_input : arr2;
  neuron_output : arr2;
  error_delta : arr3;
  weights : arr3;
  weights_oscillating : arr1;
  learning_rate : R;
  bias : R;
  sigmoid_steepness : R;
  error_amplification : R;
  error_total : R;
  error_count : Z;
  config_flags : Z -> Z;
  init_range_weight : R;
  init_range_threshold : R;
  timesteps : Z;
  rand_seq : nat -> nat;
  rand_pos : nat
}.

Arguments neuron_input _ (_ _)%_Z.
Arguments neuron_output _ (_ _)%_Z.
Arguments error_delta _ (_ _ _)%_Z.
Arguments weights _ (_ _ _)%_Z.
Arguments weights_oscillating _ _%_Z.
Arguments config_flags _ _%_Z.

Definition set_dims (si so sh sh2 tn : Z) (st : ed_state) : ed_state :=
  mk_state si so sh sh2 tn
    (neuron_input st) (neuron_output st) (error_delta st) (weights st)
    (weights_oscillating st) (learning_rate st) (bias st)
    (sigmoid_steepness st) (error_amplification st) (error_total st)
    (error_count st) (config_flags st) (init_range_weight st)
    (init_range_threshold st) (timesteps st) (rand_seq st) (rand_pos st).

Definition set_neuron_input (a : arr2) (st : ed_state) : ed_state :=
  mk_state (size_input st) (size_output st) (size_hidden st) (size_hidden2 st)
    (total_neurons st)
    a (neuron_output st) (error_delta st) (weights st)
    (weights_oscillating st) (learning_rate st) (bias st)
    (sigmoid_steepness st) (error_amplification st) (error_total st)
    (error_count st) (config_flags st) (init_range_weight st)
    (init_range_threshold st) (timesteps st) (rand_seq st) (rand_pos st).

Definition set_neuron_output (a : arr2) (st : ed_state) : ed_state :=
  mk_state (size_input st) (size_output st) (size_hidden st) (size_hidden2 st)
    (total_neurons st)
    (neuron_input st) a (error_delta st) (weights st)
    (weights_oscillating st) (learning_rate st) (bias st)
    (sigmoid_steepness st) (error_amplification st) (error_total st)
    (error_count st) (config_flags st) (init_range_weight st)
    (init_range_threshold st) (timesteps st) (rand_seq st) (rand_pos st).

Definition set_error_delta (a : arr3) (st : ed_state) : ed_state :=
  mk_state (size_input st) (size_output st) (size_hidden st) (size_hidden2 st)
    (total_neurons st)
    (neuron_input st) (neuron_output st) a (weights st)
    (weights_oscillating st) (learning_rate st) (bias st)
    (sigmoid_steepness st) (error_amplification st) (error_total st)
    (error_count st) (config_flags st) (init_range_weight st)
    (init_range_threshold st) (timesteps st) (rand_seq st) (rand_pos st).

Definition set_weights (a : arr3) (st : ed_state) : ed_state :=
  mk_state (size_input st) (size_output st) (size_hidden st) (size_hidden2 st)
    (total_neurons st)
    (neuron_input st) (neuron_output st) (error_delta st) a
    (weights_oscillating st) (learning_rate st) (bias st)
    (sigmoid_steepness st) (error_amplification st) (error_total st)
    (error_count st) (config_flags st) (init_range_weight st)
    (init_range_threshold st) (timesteps st) (rand_seq st) (rand_pos st).

Definition set_weights_oscillating (a : arr1) (st : ed_state) : ed_state :=
  mk_state (size_input st) (size_output st) (size_hidden st) (size_hidden2 st)
    (total_neurons st)
    (neuron_input st) (neuron_output st) (error_delta st) (weights st)
    a (learning_rate st) (bias st)
    (sigmoid_steepness st) (error_amplification st) (error_total st)
    (error_count st) (config_flags st) (init_range_weight st)
    (init_range_threshold st) (timesteps st) (rand_seq st) (rand_pos st).

Definition set_error_total (v : R) (st : ed_state) : ed_state :=
  mk_state (size_input st) (size_output st) (size_hidden st) (size_hidden2 st)
    (total_neurons st)
    (neuron_input st) (neuron_output st) (error_delta st) (weights st)
    (weights_oscillating st) (learning_rate st) (bias st)
    (sigmoid_steepness st) (error_amplification st) v
    (error_count st) (config_flags st) (init_range_weight st)
    (init_range_threshold st) (timesteps st) (rand_seq st) (rand_pos st).

Definition set_error_count (v : Z) (st : ed_state) : ed_state :=
  mk_state (size_input st) (size_output st) (size_hidden st) (size_hidden2 st)
    (total_neurons st)
    (neuron_input st) (neuron_output st) (error_delta st) (weights st)
    (weights_oscillating st) (learning_rate st) (bias st)
    (sigmoid_steepness st) (error_amplification st) (error_total st)
    v (config_flags st) (init_range_weight st)
    (init_range_threshold st) (timesteps st) (rand_seq st) (rand_pos st).

Definition set_rand_pos (p : nat) (st : ed_state) : ed_state :=
  mk_state (size_input st) (size_output st) (size_hidden st) (size_hidden2 st)
    (total_neurons st)
    (neuron_input st) (neuron_output st) (error_delta st) (weights st)
    (weights_oscillating st) (learning_rate st) (bias st)
    (sigmoid_steepness st) (error_amplification st) (error_total st)
    (error_count st) (config_flags st) (init_range_weight st)
    (init_range_threshold st) (timesteps st) (rand_seq st) p.

(** ** Counted loops

    [for (i = lo; i <= hi; i++) body] with the bounds read once on entry.
    No loop body of the engine writes a variable its own bounds mention. *)

Definition zrange (lo hi : Z) : list Z :=
  map (fun k => lo + Z.of_nat k) (seq 0 (Z.to_nat (hi + 1 - lo))).

Definition for_loop (lo hi : Z) (body : Z -> ed_state -> ed_state)
  (st : ed_state) : ed_state :=
  fold_left (fun s i => body i s) (zrange lo hi) st.

(** ** Utility functions (ed_main.c) *)

Definition signage (x : R) : R :=
  if Rlt_dec 0%R x then 1%R else if Req_dec_T x 0%R then 0%R else (-1)%R.

Definition sigmoid (st : ed_state) (x : R) : R :=
  (1 / (1 + exp (-2 * x / sigmoid_steepness st)))%R.

(** The same expression in the binary64 arithmetic of the code, split at
    the call of libm's [exp]: the argument handed to [exp], and the
    quotient computed from what [exp] returned.  In exact arithmetic the
    quotient stays strictly below 1; on doubles [1 + e] rounds to 1 as soon
    as [e] is at most [2^-53], and the quotient is then exactly 1. *)
Definition sigmoid_argument (sigmoid_steepness x : float) : float :=
  (-2 * x / sigmoid_steepness)%float.

Definition sigmoid_of_exp (e : float) : float := (1 / (1 + e))%float.

(** [random]: [(rand() % 10000) / 10000.0], advancing the generator. *)
Definition random_value (v : nat) : R :=
  (IZR (Z.rem (Z.of_nat v) 10000) / 10000)%R.

Definition random (st : ed_state) : R * ed_state :=
  (random_value (rand_seq st (rand_pos st)), set_rand_pos (S (rand_pos st)) st).

(** ** calculate_weight (ed_calculation_weight.c) *)

(** Step 1 of the loop body: the base magnitude [delta], built up by the
    three assignments of the source. *)
Definition base_delta (st : ed_state) (n c k : Z) : R :=
  let delta := (learning_rate st * neuron_input st n k)%R in
  let delta := (delta * Rabs (neuron_output st n c))%R in
  let delta := (delta * (1 - Rabs (neuron_output st n c)))%R in
  delta.

Definition assign_weight (n c k : Z) (v : R) (st : ed_state) : ed_state :=
  set_weights (upd3 (weights st) n c k v) st.

(** The body of the innermost loop, for one (target, source) pair. *)
Definition weight_step (n c k : Z) (st : ed_state) : ed_state :=
  if Req_dec_T (weights st n c k) 0%R then st
  else
    let delta := base_delta st n c k in
    if config_flags st 10 =? 1 then
      assign_weight n c k
        (weights st n c k +
         delta * weights_oscillating st c *
         (error_delta st n c 0%Z - error_delta st n c 1%Z))%R st
    else if Rlt_dec 0%R (weights_oscillating st k) then
      assign_weight n c k
        (weights st n c k +
         delta * error_delta st n c 0%Z *
         weights_oscillating st k * weights_oscillating st c)%R st
    else
      assign_weight n c k
        (weights st n c k +
         delta * error_delta st n c 1%Z *
         weights_oscillating st k * weights_oscillating st c)%R st.

Definition calculate_weight (st : ed_state) : ed_state :=
  for_loop 0 (size_output st - 1)
    (fun n s1 =>
       for_loop (size_input s1 + 2) (total_neurons s1 + 1)
         (fun c s2 =>
            for_loop 0 (total_neurons s2 + 1)
              (fun k => weight_step n c k) s2) s1) st.

(** The (network, target, source) triples in the order the three nested
    loops visit them, and the loop body as a function of one triple. *)
Definition weight_pairs (st : ed_state) : list (Z * Z * Z) :=
  flat_map (fun n =>
    flat_map (fun c =>
      map (fun k => (n, c, k)) (zrange 0 (total_neurons st + 1)))
      (zrange (size_input st + 2) (total_neurons st + 1)))
    (zrange 0 (size_output st - 1)).

Definition update_pair (st : ed_state) (p : Z * Z * Z) : ed_state :=
  let '(n, c, k) := p in weight_step n c k st.

(** Membership in the index range the loops cover. *)
Definition in_update_range (st : ed_state) (n c k : Z) : Prop :=
  0 <= n < size_output st /\
  size_input st + 2 <= c <= total_neurons st + 1 /\
  0 <= k <= total_neurons st + 1.

(** ** calculate_learning (ed_calculation_learning.c) *)

Definition assign_error (n c ch : Z) (v : R) (st : ed_state) : ed_state :=
  set_error_delta (upd3 (error_delta st) n c ch v) st.

(** Steps 1 and 2 of one iteration over the output networks: the
    prediction error, the two counters, and the channel split stored at the
    output neuron's slot. *)
Definition record_error (target : Z -> R) (s_neuron : Z) (st : ed_state)
  : ed_state :=
  let error_prediction :=
    (target s_neuron - neuron_output st s_neuron (size_input st + 2)%Z)%R in
  let st := set_error_total (error_total st + Rabs error_prediction)%R st in
  let st :=
    if Rlt_dec 0.5%R (Rabs error_prediction)
    then set_error_count (error_count st + 1) st else st in
  if Rlt_dec 0%R error_prediction then
    assign_error s_neuron (size_input st + 2) 1 0%R
      (assign_error s_neuron (size_input st + 2) 0 error_prediction st)
  else
    assign_error s_neuron (size_input st + 2) 1 (- error_prediction)%R
      (assign_error s_neuron (size_input st + 2) 0 0%R st).

(** Step 3: the broadcast loop over the hidden neurons. *)
Definition broadcast_error (s_neuron : Z)
  (error_excitatory error_inhibitory : R) (st : ed_state) : ed_state :=
  for_loop (size_input st + 3) (total_neurons st + 1)
    (fun c s =>
       assign_error s_neuron c 1
         (error_inhibitory * error_amplification s)%R
         (assign_error s_neuron c 0
            (error_excitatory * error_amplification s)%R s)) st.

(** One iteration of the loop over output networks. *)
Definition learning_step (target : Z -> R) (s_neuron : Z) (st : ed_state)
  : ed_state :=
  let st := record_error target s_neuron st in
  let error_excitatory := error_delta st s_neuron (size_input st + 2) 0 in
  let error_inhibitory := error_delta st s_neuron (size_input st + 2) 1 in
  broadcast_error s_neuron error_excitatory error_inhibitory st.

Definition calculate_learning (target : Z -> R) (st : ed_state) : ed_state :=
  for_loop 0 (size_output st - 1) (learning_step target) st.

(** ** calculate_output (ed_calculation_output.c) *)

Definition assign_input (n c : Z) (v : R) (st : ed_state) : ed_state :=
  set_neuron_input (upd2 (neuron_input st) n c v) st.

Definition assign_output (n c : Z) (v : R) (st : ed_state) : ed_state :=
  set_neuron_output (upd2 (neuron_output st) n c v) st.

(** The accumulation loop for one target neuron. *)
Definition weighted_sum (st : ed_state) (n c : Z) : R :=
  fold_left
    (fun acc k => (acc + weights st n c k * neuron_input st n k)%R)
    (zrange 0 (total_neurons st + 1)) 0%R.

Definition timestep_body (n : Z) (st : ed_state) : ed_state :=
  let st :=
    for_loop (size_input st + 2) (total_neurons st + 1)
      (fun c s => assign_output n c (sigmoid s (weighted_sum s n c)) s) st in
  for_loop (size_input st + 2) (total_neurons st + 1)
    (fun c s => assign_input n c (neuron_output s n c) s) st.

Definition output_network (pattern : Z -> R) (n : Z) (st : ed_state)
  : ed_state :=
  let st :=
    for_loop 2 (size_input st + 1)
      (fun c s => assign_input n c (pattern (Z.quot c 2 - 1)) s) st in
  let st :=
    if config_flags st 6 =? 0 then st
    else for_loop (size_input st + 2) (total_neurons st + 1)
           (fun c s => assign_input n c 0%R s) st in
  for_loop 1 (timesteps st) (fun _ s => timestep_body n s) st.

Definition calculate_output (pattern : Z -> R) (st : ed_state) : ed_state :=
  for_loop 0 (size_output st - 1) (output_network pattern) st.

Definition calculate_network (pattern target : Z -> R) (st : ed_state)
  : ed_state :=
  calculate_weight (calculate_learning target (calculate_output pattern st)).

(** ** init_network (ed_init_network.c) *)

Definition assign_weight_random (n c k : Z) (range : R) (st : ed_state)
  : ed_state :=
  let (r, st') := random st in assign_weight n c k (range * r)%R st'.

(** The alternating pattern [((index + 1) % 2) * 2 - 1]. *)
Definition oscillation (c : Z) : R := IZR (Z.rem (c + 1) 2 * 2 - 1).

(** The body of the weight-initialisation loops is a sequence of guarded
    assignments to the same cell, each seeing the state left by the previous
    ones.  They are named after the comment that heads them in the source. *)

(** Bias/Threshold Connections (indices 0-1). *)
Definition rule_threshold (n c s : Z) (st : ed_state) : ed_state :=
  if s <? 2
  then assign_weight_random n c s (init_range_threshold st) st else st.

(** Regular Connections (indices > 1). *)
Definition rule_regular (n c s : Z) (st : ed_state) : ed_state :=
  if s >? 1
  then assign_weight_random n c s (init_range_weight st) st else st.

(** Second Hidden Layer Input Blocking. *)
Definition rule_input_blocking (n c s : Z) (st : ed_state) : ed_state :=
  if (c >? total_neurons st + 1 - size_hidden2 st)
     && (s <? size_input st + 2) && (s >=? 2)
  then assign_weight n c s 0%R st else st.

(** Loop Cutting (config_flags[6]), first condition. *)
Definition rule_loop_cutting (n c s : Z) (st : ed_state) : ed_state :=
  if (config_flags st 6 =? 1) && negb (c =? s)
     && (c >? size_input st + 2) && (s >? size_input st + 1)
  then assign_weight n c s 0%R st else st.

(** Loop Cutting (config_flags[6]), second condition. *)
Definition rule_loop_cutting_output (n c s : Z) (st : ed_state) : ed_state :=
  if (config_flags st 6 =? 1) && (c >? size_input st + 1)
     && (s >? size_input st + 1) && (s <? size_input st + 3)
  then assign_weight n c s 0%R st else st.

(** Multi-layer Input Blocking (config_flags[7]). *)
Definition rule_multi_layer (n c s : Z) (st : ed_state) : ed_state :=
  if (config_flags st 7 =? 1) && (s >=? 2) && (s <? size_input st + 2)
     && (c >=? size_input st + 2) && (c <? size_input st + 3)
  then assign_weight n c s 0%R st else st.

(** Second Hidden Layer Internal Connections. *)
Definition rule_second_layer (n c s : Z) (st : ed_state) : ed_state :=
  if (c >? total_neurons st + 1 - size_hidden2 st)
     && (s >=? size_input st + 3)
  then assign_weight_random n c s (init_range_weight st) st else st.

(** Self-Loop Control (config_flags[3]). *)
Definition rule_self_loop (n c s : Z) (st : ed_state) : ed_state :=
  if c =? s then
    if config_flags st 3 =? 1
    then assign_weight n c s 0%R st
    else assign_weight_random n c s (init_range_weight st) st
  else st.

(** Inhibitory Input Control (config_flags[11]). *)
Definition rule_inhibitory_input (n c s : Z) (st : ed_state) : ed_state :=
  if (config_flags st 11 =? 0) && (s <? size_input st + 2)
     && (Z.rem s 2 =? 1)
  then assign_weight n c s 0%R st else st.

(** The closing multiplication by the product of the two neuron types. *)
Definition rule_polarity (n c s : Z) (st : ed_state) : ed_state :=
  assign_weight n c s
    (weights st n c s *
     (weights_oscillating st s * weights_oscillating st c))%R st.

(** The guarded assignments up to, and without, the closing product. *)
Definition init_rules (n c s : Z) (st : ed_state) : ed_state :=
  rule_inhibitory_input n c s
    (rule_self_loop n c s
       (rule_second_layer n c s
          (rule_multi_layer n c s
             (rule_loop_cutting_output n c s
                (rule_loop_cutting n c s
                   (rule_input_blocking n c s
                      (rule_regular n c s
                         (rule_threshold n c s st)))))))).

Definition init_cell (n c s : Z) (st : ed_state) : ed_state :=
  rule_polarity n c s (init_rules n c s st).

Definition assign_oscillating (c : Z) (v : R) (st : ed_state) : ed_state :=
  set_weights_oscillating (upd1 (weights_oscillating st) c v) st.

(** Section 2 of the source, "neuron type assignment": the alternating
    pattern over all indices, then the output neuron forced excitatory. *)
Definition assign_neuron_types (st : ed_state) : ed_state :=
  let st :=
    for_loop 0 (total_neurons st + 1)
      (fun c s => assign_oscillating c (oscillation c) s) st in
  assign_oscillating (size_input st + 2) 1%R st.

(** Section 3, "weight initialization with ED constraints". *)
Definition init_weights (n : Z) (st : ed_state) : ed_state :=
  for_loop (size_input st + 2) (total_neurons st + 1)
    (fun c s1 =>
       for_loop 0 (total_neurons s1 + 1) (fun k => init_cell n c k) s1) st.

(** The two bias inputs of one output network. *)
Definition init_bias (n : Z) (st : ed_state) : ed_state :=
  let st := assign_input n 0 (bias st) st in
  assign_input n 1 (bias st) st.

(** One iteration of the loop over output networks. *)
Definition init_output_network (n : Z) (st : ed_state) : ed_state :=
  init_bias n (init_weights n (assign_neuron_types st)).

Definition init_network (init_input init_output init_hidden init_hidden2 : Z)
  (st : ed_state) : ed_state :=
  let st :=
    set_dims init_input init_output (init_hidden + init_hidden2) init_hidden2
      (init_input + 1 + (init_hidden + init_hidden2)) st in
  let st := for_loop 0 (size_output st - 1) init_output_network st in
  set_error_total 0%R (set_error_count 0 st).

(** ** Program start and the training operations

    Static storage starts zeroed; [user_input_network_params] then fills
    the parameters.  [default_params] is the state after accepting every
    default of that dialogue (ed_user_network_params.c). *)

Definition default_flags : Z -> Z :=
  updflag (updflag (updflag (updflag (updflag (fun _ => 0) 7 1) 10 0) 6 1)
    3 1) 11 1.

Definition configured (flags : Z -> Z) (lr b steep amp rw rt : R) (ts : Z)
  (seq : nat -> nat) : ed_state :=
  mk_state 0 0 0 0 0
    (fun _ _ => 0%R) (fun _ _ => 0%R) (fun _ _ _ => 0%R) (fun _ _ _ => 0%R)
    (fun _ => 0%R) lr b steep amp 0%R 0 flags rw rt ts seq 0%nat.

Definition default_params (seq : nat -> nat) : ed_state :=
  configured default_flags 0.8%R 0.8%R 0.4%R 1%R 1%R 1%R 2 seq.

(** Bidirectional weight updates, self-loops allowed, no bias input, one
    timestep: every prompt of the dialogue answered within its domain. *)
Definition bidirectional_flags : Z -> Z :=
  updflag (updflag default_flags 10 1) 3 0.

Definition bidirectional_params (seq : nat -> nat) : ed_state :=
  configured bidirectional_flags 0.8%R 0%R 0.4%R 1%R 1%R 1%R 1 seq.

(** The data arrays are still as static initialisation left them. *)
Definition fresh (st : ed_state) : Prop :=
  (forall n c k, weights st n c k = 0%R) /\
  (forall n c, neuron_input st n c = 0%R) /\
  (forall n c, neuron_output st n c = 0%R) /\
  (forall n c ch, error_delta st n c ch = 0%R) /\
  (forall c, weights_oscillating st c = 0%R).

(** The three operations the trainer runs after initialisation. *)
Inductive engine_op : Type :=
| Forward (pattern : Z -> R)
| Diffuse (target : Z -> R)
| Update.

Definition apply_op (st : ed_state) (op : engine_op) : ed_state :=
  match op with
  | Forward pattern => calculate_output pattern st
  | Diffuse target => calculate_learning target st
  | Update => calculate_weight st
  end.

Definition run (ops : list engine_op) (st : ed_state) : ed_state :=
  fold_left apply_op ops st.

(** The weight sign constraint of ed_main.h: a weight is zero or carries
    the sign of the product of its source and target neuron types. *)
Definition sign_ok (st : ed_state) : Prop :=
  forall n t s,
    weights st n t s = 0%R \/
    signage (weights st n t s) =
      (weights_oscillating st s * weights_oscillating st t)%R.

(** ** write_weight_neuron (ed_write.c)

    The epoch-level monitor.  The weight listing, the status line and the
    learning-curve point are output only and are dropped; what remains is
    the stop decision and the reset of the two error counters. *)

Definition write_weight_neuron (loop write_mode pattern_count : Z)
  (st : ed_state) : Z * ed_state :=
  if loop >? 10000 then (1, st)
  else if Rlt_dec (error_total st) 0.1%R then (1, st)
  else (0, set_error_count 0 (set_error_total 0%R st)).

(** The single digit modes 2 and 3 of [write_output_neuron] print for an
    activation: [(int)(fabs(x) * 9.999)].  The argument of the cast is
    non-negative, so the cast is the integer part. *)
Definition activation_digit (x : R) : Z := Int_part (Rabs x * 9.999)%R.

(** ** The training loop of main (ed_main.c)

    [input_pattern_global] and [target_pattern_global] hold one row per
    pattern.  One epoch runs [calculate_network] on every pattern and then
    asks [write_weight_neuron] whether to stop.  The [for (;;)] loop gets a
    fuel argument; [None] is fuel running out.

    [train_epoch] and [training_loop] are the loop as a transformer of the
    engine state: they leave out the display code between the training
    steps, which writes no engine variable.  That code can stop the
    program, though: [training_run] below is the loop with it. *)

Definition train_epoch (inputs targets : Z -> Z -> R) (pattern_count : Z)
  (st : ed_state) : ed_state :=
  for_loop 0 (pattern_count - 1)
    (fun loop_pattern s =>
       calculate_network (inputs loop_pattern) (targets loop_pattern) s) st.

Fixpoint training_loop (fuel : nat) (inputs targets : Z -> Z -> R)
  (pattern_count write_mode epoch_counter : Z) (st : ed_state)
  : option (Z * ed_state) :=
  match fuel with
  | O => None
  | S fuel' =>
      let epoch_counter := epoch_counter + 1 in
      let st := train_epoch inputs targets pattern_count st in
      let (stop, st) :=
        write_weight_neuron epoch_counter write_mode pattern_count st in
      if stop =? 0
      then training_loop fuel' inputs targets pattern_count write_mode
             epoch_counter st
      else Some (epoch_counter, st)
  end.

(** ** learning_pattern_generation (ed_pattern_generation.c)

    The deterministic blocks of the generator, as functions of the pattern
    index and of one row of [input_pattern_global]: the systematic binary
    input [c_neuron & (1 << s_neuron)], whose shift is defined for
    [s_neuron] up to 30, the parity target and the mirror target.  The
    loops run over the logical inputs [0 .. size_input / 2 - 1], with the
    truncating division of C. *)

Definition binary_input (c_neuron s_neuron : Z) : R :=
  if Z.land c_neuron (Z.shiftl 1 s_neuron) =? 0 then 0%R else 1%R.

Definition parity_count (row : Z -> R) (size_input : Z) : Z :=
  fold_left
    (fun pattern_choice s_neuron =>
       if Rlt_dec 0.5%R (row s_neuron)
       then pattern_choice + 1 else pattern_choice)
    (zrange 0 (Z.quot size_input 2 - 1)) 0.

Definition parity_target (row : Z -> R) (size_input : Z) : R :=
  if Z.rem (parity_count row size_input) 2 =? 1 then 1%R else 0%R.

Definition mirror_flag (row : Z -> R) (size_input : Z) : Z :=
  fold_left
    (fun pattern_choice s_neuron =>
       if Req_dec_T (row s_neuron) (row (Z.quot size_input 2 - 1 - s_neuron))
       then pattern_choice else 1)
    (zrange 0 (Z.quot size_input 4 - 1)) 0.

Definition mirror_target (row : Z -> R) (size_input : Z) : R :=
  if mirror_flag row size_input =? 1 then 0%R else 1%R.

(** The cursor position the per-pattern [switch (write_mode)] of [main]
    computes for [locate] before each training step: none in mode 0 (and
    in any mode without a case), one line per pattern in mode 1, columns
    of [30 - print_position] lines in mode 2.  The outer [None] is the
    integer division by zero of mode 2 when [print_position] is 30. *)
Definition pattern_cursor (write_mode print_position loop_pattern : Z)
  : option (option (Z * Z)) :=
  if write_mode =? 1 then Some (Some (0, loop_pattern + print_position))
  else if write_mode =? 2 then
    if 30 - print_position =? 0 then None
    else Some (Some (Z.quot loop_pattern (30 - print_position) * 20,
                     Z.rem loop_pattern (30 - print_position)
                     + print_position))
  else Some None.

(** The patterns of one epoch in turn: the cursor computation, then the
    training step.  [None] is the program stopped by the division. *)
Fixpoint run_patterns (inputs targets : Z -> Z -> R)
  (write_mode print_position : Z) (patterns : list Z) (st : ed_state)
  : option ed_state :=
  match patterns with
  | [] => Some st
  | loop_pattern :: rest =>
      match pattern_cursor write_mode print_position loop_pattern with
      | None => None
      | Some _ =>
          run_patterns inputs targets write_mode print_position rest
            (calculate_network (inputs loop_pattern) (targets loop_pattern)
               st)
      end
  end.

Definition displayed_epoch (inputs targets : Z -> Z -> R)
  (pattern_count write_mode print_position : Z) (st : ed_state)
  : option ed_state :=
  run_patterns inputs targets write_mode print_position
    (zrange 0 (pattern_count - 1)) st.

(** How a run of the training loop ends: it returns the epoch count and
    the state, it is stopped by the division above, or the fuel runs out.
    The rest of the display code ([printf], [locate], the calls [line] and
    [flush] into the graphics library, the conversions of doubles to [int]
    for the digits and the curve) contains no integer division and is
    taken to return. *)
Inductive run_result : Type :=
| Returned (epochs : Z) (st : ed_state)
| Trapped
| Unfinished.

Fixpoint training_run (fuel : nat) (inputs targets : Z -> Z -> R)
  (pattern_count write_mode print_position epoch_counter : Z)
  (st : ed_state) : run_result :=
  match fuel with
  | O => Unfinished
  | S fuel' =>
      let epoch_counter := epoch_counter + 1 in
      match displayed_epoch inputs targets pattern_count write_mode
              print_position st with
      | None => Trapped
      | Some st =>
          let (stop, st) :=
            write_weight_neuron epoch_counter write_mode pattern_count st in
          if stop =? 0
          then training_run fuel' inputs targets pattern_count write_mode
                 print_position epoch_counter st
          else Returned epoch_counter st
      end
  end.

(** ** Vocabulary of the statements *)

(** Everything but the weight matrix agrees. *)
Definition same_frame (s1 s2 : ed_state) : Prop :=
  size_input s1 = size_input s2 /\
  size_output s1 = size_output s2 /\
  size_hidden s1 = size_hidden s2 /\
  size_hidden2 s1 = size_hidden2 s2 /\
  total_neurons s1 = total_neurons s2 /\
  neuron_input s1 = neuron_input s2 /\
  neuron_output s1 = neuron_output s2 /\
  error_delta s1 = error_delta s2 /\
  weights_oscillating s1 = weights_oscillating s2 /\
  learning_rate s1 = learning_rate s2 /\
  bias s1 = bias s2 /\
  sigmoid_steepness s1 = sigmoid_steepness s2 /\
  error_amplification s1 = error_amplification s2 /\
  error_total s1 = error_total s2 /\
  error_count s1 = error_count s2 /\
  config_flags s1 = config_flags s2 /\
  init_range_weight s1 = init_range_weight s2 /\
  init_range_threshold s1 = init_range_threshold s2 /\
  timesteps s1 = timesteps s2 /\
  rand_seq s1 = rand_seq s2 /\
  rand_pos s1 = rand_pos s2.

(** What [weight_step] leaves in the cell it visits, as a function of the
    weight [w] it finds there. *)
Definition cell_update (st : ed_state) (n c k : Z) (w : R) : R :=
  if Req_dec_T w 0%R then w
  else if config_flags st 10 =? 1 then
    (w + base_delta st n c k * weights_oscillating st c *
         (error_delta st n c 0%Z - error_delta st n c 1%Z))%R
  else if Rlt_dec 0%R (weights_oscillating st k) then
    (w + base_delta st n c k * error_delta st n c 0%Z *
         weights_oscillating st k * weights_oscillating st c)%R
  else
    (w + base_delta st n c k * error_delta st n c 1%Z *
         weights_oscillating st k * weights_oscillating st c)%R.

(** The channel split of [calculate_learning], as functions of the
    prediction error. *)
Definition excitatory_channel (e : R) : R := if Rlt_dec 0%R e then e else 0%R.
Definition inhibitory_channel (e : R) : R :=
  if Rlt_dec 0%R e then 0%R else (- e)%R.

(** ** A small hand-built state used to instantiate the statements

    One output network over two (doubled) inputs and one further hidden
    neuron; every connection carries weight 1. *)

Definition sample_state : ed_state :=
  mk_state 2 1 1 0 4
    (fun _ _ => 1%R) (fun _ _ => 0.5%R) (fun _ _ _ => 0.25%R)
    (fun _ _ _ => 1%R) (fun c => oscillation c)
    0.8%R 0.8%R 0.4%R 1%R 0%R 0 default_flags 1%R 1%R 2 (fun _ => 5000%nat)
    0%nat.

(** The same network run with a single timestep. *)
Definition single_step_state : ed_state :=
  mk_state 2 1 1 0 4
    (fun _ _ => 1%R) (fun _ _ => 0.5%R) (fun _ _ _ => 0.25%R)
    (fun _ _ _ => 1%R) (fun c => oscillation c)
    0.8%R 0.8%R 0.4%R 1%R 0%R 0 default_flags 1%R 1%R 1 (fun _ => 5000%nat)
    0%nat.

(** The same network in bidirectional mode. *)
Definition bidirectional_state : ed_state :=
  mk_state 2 1 1 0 4
    (fun _ _ => 1%R) (fun _ _ => 0.5%R) (fun _ _ _ => 0.25%R)
    (fun _ _ _ => 1%R) (fun c => oscillation c)
    0.8%R 0.8%R 0.4%R 1%R 0%R 0 bidirectional_flags 1%R 1%R 2
    (fun _ => 5000%nat) 0%nat.

(** Everything but the error table and the two error counters agrees:
    what [calculate_learning] reads and does not write. *)
Definition learning_frame (s st : ed_state) : Prop :=
  neuron_output s = neuron_output st /\
  size_input s = size_input st /\
  total_neurons s = total_neurons st /\
  error_amplification s = error_amplification st /\
  size_output s = size_output st /\
  size_hidden s = size_hidden st /\
  size_hidden2 s = size_hidden2 st /\
  neuron_input s = neuron_input st /\
  weights s = weights st /\
  weights_oscillating s = weights_oscillating st /\
  learning_rate s = learning_rate st /\
  bias s = bias st /\
  sigmoid_steepness s = sigmoid_steepness st /\
  config_flags s = config_flags st /\
  init_range_weight s = init_range_weight st /\
  init_range_threshold s = init_range_threshold st /\
  timesteps s = timesteps st /\
  rand_seq s = rand_seq st /\
  rand_pos s = rand_pos st.

(** Everything but the two activation arrays agrees: what
    [calculate_output] does not write. *)
Definition activation_frame (s st : ed_state) : Prop :=
  size_input s = size_input st /\
  size_output s = size_output st /\
  size_hidden s = size_hidden st /\
  size_hidden2 s = size_hidden2 st /\
  total_neurons s = total_neurons st /\
  error_delta s = error_delta st /\
  weights s = weights st /\
  weights_oscillating s = weights_oscillating st /\
  learning_rate s = learning_rate st /\
  bias s = bias st /\
  sigmoid_steepness s = sigmoid_steepness st /\
  error_amplification s = error_amplification st /\
  error_total s = error_total st /\
  error_count s = error_count st /\
  config_flags s = config_flags st /\
  init_range_weight s = init_range_weight st /\
  init_range_threshold s = init_range_threshold st /\
  timesteps s = timesteps st /\
  rand_seq s = rand_seq st /\
  rand_pos s = rand_pos st.

(** The row of network [n] after its iteration. *)
Definition diffused_row (target : Z -> R) (st s : ed_state) (n : Z) : Prop :=
  let e := (target n - neuron_output st n (size_input st + 2)%Z)%R in
  error_delta s n (size_input st + 2) 0 = excitatory_channel e /\
  error_delta s n (size_input st + 2) 1 = inhibitory_channel e /\
  forall c, size_input st + 3 <= c <= total_neurons st + 1 ->
    error_delta s n c 0 = (excitatory_channel e * error_amplification st)%R /\
    error_delta s n c 1 = (inhibitory_channel e * error_amplification st)%R.

(** A value strictly between 0 and 1. *)
Definition unit_open (v : R) : Prop := (0 < v < 1)%R.

(** A value of the closed unit interval. *)
Definition unit_closed (v : R) : Prop := (0 <= v <= 1)%R.

(** Every cell of [neuron_output] is as in [st] or holds a value of the
    closed unit interval. *)
Definition stores_closed (st s : ed_state) : Prop :=
  forall n c,
    neuron_output s n c = neuron_output st n c \/
    unit_closed (neuron_output s n c).

(** Every cell of [neuron_output] is as in [st] or holds a value of the
    open unit interval. *)
Definition stores_unit (st s : ed_state) : Prop :=
  forall n c,
    neuron_output s n c = neuron_output st n c \/
    unit_open (neuron_output s n c).

(** What the loops of [init_network] never write: the dimensions, the
    parameters, the output activations, the error table and counters. *)
Definition init_frame (s st : ed_state) : Prop :=
  size_input s = size_input st /\
  size_output s = size_output st /\
  size_hidden s = size_hidden st /\
  size_hidden2 s = size_hidden2 st /\
  total_neurons s = total_neurons st /\
  neuron_output s = neuron_output st /\
  error_delta s = error_delta st /\
  learning_rate s = learning_rate st /\
  bias s = bias st /\
  sigmoid_steepness s = sigmoid_steepness st /\
  error_amplification s = error_amplification st /\
  error_total s = error_total st /\
  error_count s = error_count st /\
  config_flags s = config_flags st /\
  init_range_weight s = init_range_weight st /\
  init_range_threshold s = init_range_threshold st /\
  timesteps s = timesteps st /\
  rand_seq s = rand_seq st.

(** What the weight rules never write: the above, the polarity vector and
    the input activations. *)
Definition rules_frame (s st : ed_state) : Prop :=
  init_frame s st /\
  weights_oscillating s = weights_oscillating st /\
  neuron_input s = neuron_input st.


(** The cell [(n, c, s)] holds a non-negative raw weight and both
    initialisation ranges are non-negative. *)
Definition raw_nonneg (n c s : Z) (st : ed_state) : Prop :=
  (0 <= init_range_weight st)%R /\ (0 <= init_range_threshold st)%R /\
  (0 <= weights st n c s)%R.

(** Loop cutting is on, and [c], [s] are distinct neurons beyond the output
    neuron with the target [c] outside the second hidden layer. *)
Definition loop_cut_pair (st : ed_state) (c s : Z) : Prop :=
  config_flags st 6 = 1 /\ c <> s /\
  size_input st + 3 <= c <= total_neurons st + 1 - size_hidden2 st /\
  size_input st + 3 <= s.

(** The polarity vector [assign_neuron_types] leaves, given the one it
    found. *)
Definition polarity (si tn : Z) (old : arr1) : arr1 :=
  fun i =>
    if i =? si + 2 then 1%R
    else if (0 <=? i) && (i <=? tn + 1) then oscillation i
    else old i.

(** A neuron type, or the 0 of a slot never assigned. *)
Definition polarity_value (v : R) : Prop := v = 1%R \/ v = (-1)%R \/ v = 0%R.

(** The sign constraint for one cell, against a given polarity vector. *)
Definition cell_sign (pol : arr1) (w : R) (t s : Z) : Prop :=
  w = 0%R \/ signage w = (pol s * pol t)%R.

(** A forward pass is fed a non-negative input pattern. *)
Definition nonneg_pattern (op : engine_op) : Prop :=
  match op with
  | Forward pattern => forall i, (0 <= pattern i)%R
  | _ => True
  end.

(** What training in selective mode with non-negative parameters and
    inputs maintains. *)
Definition training_inv (st : ed_state) : Prop :=
  sign_ok st /\
  (forall n k, 0 <= neuron_input st n k)%R /\
  (forall n c, 0 <= neuron_output st n c <= 1)%R /\
  (forall n c ch, 0 <= error_delta st n c ch)%R /\
  (0 <= learning_rate st)%R /\
  (0 <= error_amplification st)%R /\
  config_flags st 10 <> 1.

(** Input activations are non-negative and output activations lie in the
    closed unit interval. *)
Definition activations_ok (st : ed_state) : Prop :=
  (forall n k, 0 <= neuron_input st n k)%R /\
  (forall n c, 0 <= neuron_output st n c <= 1)%R.

(** Every entry of the error table is non-negative. *)
Definition errors_nonneg (st : ed_state) : Prop :=
  forall n c ch, (0 <= error_delta st n c ch)%R.

(** How far the loop over output networks of [init_network] has come on
    a fresh state: either no iteration has run (polarity and weights still
    zero), or the polarity vector is final and every weight obeys the sign
    constraint against it. *)
Definition init_progress (final : arr1) (s : ed_state) : Prop :=
  ((forall i, weights_oscillating s i = 0%R) /\
   (forall n c k, weights s n c k = 0%R)) \/
  ((forall i, weights_oscillating s i = final i) /\
   (forall n c k, cell_sign final (weights s n c k) c k)).

(** A state the trainer can be in: [init_network] on a fresh program,
    followed by training operations. *)
Definition trained (st : ed_state) : Prop :=
  exists a b c d st0 ops,
    fresh st0 /\ st = run ops (init_network a b c d st0).

(** Nonzero weights sit only at pairs the update loops visit. *)
Definition nonzero_in_range (st : ed_state) : Prop :=
  forall n c k, weights st n c k <> 0%R -> in_update_range st n c k.

(** The cell [(n, c, s)] holds a raw weight between 0 and 0.9999 times
    the larger initialisation range, both ranges being non-negative. *)
Definition raw_bounded (n c s : Z) (st : ed_state) : Prop :=
  (0 <= init_range_weight st)%R /\ (0 <= init_range_threshold st)%R /\
  (0 <= weights st n c s <=
   0.9999 * Rmax (init_range_weight st) (init_range_threshold st))%R.

(** The prediction error [calculate_learning] computes for sub-network
    [n], and its test for a pattern that counts as wrong. *)
Definition prediction_error (target : Z -> R) (st : ed_state) (n : Z) : R :=
  (target n - neuron_output st n (size_input st + 2)%Z)%R.

Definition large_error (e : R) : bool :=
  if Rlt_dec 0.5%R (Rabs e) then true else false.

(** What a training run never writes: the dimensions, the polarity
    vector, the parameters and the random generator. *)
Definition training_frame (s st : ed_state) : Prop :=
  size_input s = size_input st /\
  size_output s = size_output st /\
  size_hidden s = size_hidden st /\
  size_hidden2 s = size_hidden2 st /\
  total_neurons s = total_neurons st /\
  weights_oscillating s = weights_oscillating st /\
  learning_rate s = learning_rate st /\
  bias s = bias st /\
  sigmoid_steepness s = sigmoid_steepness st /\
  error_amplification s = error_amplification st /\
  config_flags s = config_flags st /\
  init_range_weight s = init_range_weight st /\
  init_range_threshold s = init_range_threshold st /\
  timesteps s = timesteps st /\
  rand_seq s = rand_seq st /\
  rand_pos s = rand_pos st.



(** * Proofs *)

(** ** Ranges and loops *)

Lemma in_zrange (lo hi i : Z) : In i (zrange lo hi) <-> lo <= i <= hi.
Proof.
  unfold zrange. rewrite in_map_iff. split.
  - intros (k & <- & Hk). apply in_seq in Hk. lia.
  - intros H. exists (Z.to_nat (i - lo)). split; [lia|].
    apply in_seq. lia.
Qed.

Lemma NoDup_zrange (lo hi : Z) : NoDup (zrange lo hi).
Proof.
  unfold zrange. apply Finite.Injective_map_NoDup.
  - intros a b H. lia.
  - apply seq_NoDup.
Qed.

Lemma fold_left_inv {A} (f : ed_state -> A -> ed_state)
  (I : ed_state -> Prop) (l : list A) :
  (forall s a, In a l -> I s -> I (f s a)) ->
  forall st, I st -> I (fold_left f l st).
Proof.
  induction l as [|a l IH]; simpl; intros Hstep st Hst; [exact Hst|].
  apply IH; [intros; apply Hstep; auto | apply Hstep; auto].
Qed.

Lemma for_loop_inv (I : ed_state -> Prop) lo hi body :
  (forall i s, lo <= i <= hi -> I s -> I (body i s)) ->
  forall st, I st -> I (for_loop lo hi body st).
Proof.
  intros Hstep st Hst. unfold for_loop.
  apply fold_left_inv; [|exact Hst].
  intros s a Ha. apply Hstep. now apply in_zrange.
Qed.

Lemma fold_left_ext_inv {A} (f g : ed_state -> A -> ed_state)
  (I : ed_state -> Prop) (l : list A) :
  (forall s a, I s -> I (f s a)) ->
  (forall s a, I s -> f s a = g s a) ->
  forall st, I st -> fold_left f l st = fold_left g l st.
Proof.
  intros HI Heq. induction l as [|a l IH]; simpl; intros st Hst; [reflexivity|].
  rewrite <- (Heq st a Hst). apply IH. now apply HI.
Qed.

Lemma fold_left_flat_map {A B} (f : ed_state -> B -> ed_state)
  (g : A -> list B) (l : list A) (st : ed_state) :
  fold_left f (flat_map g l) st =
  fold_left (fun s a => fold_left f (g a) s) l st.
Proof.
  revert st. induction l as [|a l IH]; simpl; intros st; [reflexivity|].
  now rewrite fold_left_app, IH.
Qed.

Lemma fold_left_map {A B} (f : ed_state -> B -> ed_state) (h : A -> B)
  (l : list A) (st : ed_state) :
  fold_left f (map h l) st = fold_left (fun s a => f s (h a)) l st.
Proof.
  revert st. induction l as [|a l IH]; simpl; intros st; [reflexivity|].
  apply IH.
Qed.

Lemma NoDup_flat_map {A B} (g : A -> list B) (l : list A) :
  NoDup l ->
  (forall a, In a l -> NoDup (g a)) ->
  (forall a a' b, In a l -> In a' l -> In b (g a) -> In b (g a') -> a = a') ->
  NoDup (flat_map g l).
Proof.
  induction 1 as [|a l Hnotin Hnd IH]; simpl; intros Hg Hdisj; [constructor|].
  apply NoDup_app.
  - apply Hg. now left.
  - apply IH; [intros; apply Hg; now right|].
    intros x x' b Hx Hx'. apply Hdisj; now right.
  - intros b Hb Hb'. apply in_flat_map in Hb' as (a' & Ha' & Hb').
    assert (a = a') by (apply (Hdisj a a' b); simpl; auto).
    subst. contradiction.
Qed.

(** ** The frame relation *)

Lemma same_frame_refl st : same_frame st st.
Proof. repeat split. Qed.

Lemma same_frame_trans s1 s2 s3 :
  same_frame s1 s2 -> same_frame s2 s3 -> same_frame s1 s3.
Proof.
  unfold same_frame. intros H1 H2.
  repeat match goal with H : _ /\ _ |- _ => destruct H end.
  repeat split; congruence.
Qed.

Lemma same_frame_sym s1 s2 : same_frame s1 s2 -> same_frame s2 s1.
Proof.
  unfold same_frame. intros H1.
  repeat match goal with H : _ /\ _ |- _ => destruct H end.
  repeat split; congruence.
Qed.

Lemma assign_weight_frame n c k v st : same_frame (assign_weight n c k v st) st.
Proof. repeat split. Qed.

Lemma weight_step_frame n c k st : same_frame (weight_step n c k st) st.
Proof.
  unfold weight_step.
  destruct (Req_dec_T _ _); [apply same_frame_refl|].
  destruct (_ =? _); [apply assign_weight_frame|].
  destruct (Rlt_dec _ _); apply assign_weight_frame.
Qed.

Lemma cell_update_frame s1 s2 n c k w :
  same_frame s1 s2 -> cell_update s1 n c k w = cell_update s2 n c k w.
Proof.
  unfold same_frame, cell_update, base_delta. intros H.
  repeat match goal with H : _ /\ _ |- _ => destruct H end.
  repeat match goal with H : _ = _ |- _ => rewrite H; clear H end.
  reflexivity.
Qed.

(** ** calculate_weight, cell by cell *)

Lemma upd3_same a i j k v : upd3 a i j k v i j k = v.
Proof. unfold upd3. now rewrite !Z.eqb_refl. Qed.

Lemma upd3_other a i j k v i' j' k' :
  (i', j', k') <> (i, j, k) -> upd3 a i j k v i' j' k' = a i' j' k'.
Proof.
  unfold upd3. intros H.
  destruct (Z.eqb_spec i' i); simpl; [|reflexivity].
  destruct (Z.eqb_spec j' j); simpl; [|reflexivity].
  destruct (Z.eqb_spec k' k); simpl; [|reflexivity].
  subst. now contradiction H.
Qed.

Lemma weight_step_same n c k st :
  weights (weight_step n c k st) n c k =
  cell_update st n c k (weights st n c k).
Proof.
  unfold weight_step, cell_update.
  destruct (Req_dec_T _ _); [reflexivity|].
  destruct (_ =? _); [apply upd3_same|].
  destruct (Rlt_dec _ _); apply upd3_same.
Qed.

Lemma weight_step_other n c k st n' c' k' :
  (n', c', k') <> (n, c, k) ->
  weights (weight_step n c k st) n' c' k' = weights st n' c' k'.
Proof.
  intros H. unfold weight_step.
  destruct (Req_dec_T _ _); [reflexivity|].
  destruct (_ =? _); [now apply upd3_other|].
  destruct (Rlt_dec _ _); now apply upd3_other.
Qed.

Lemma update_pairs_frame l st : same_frame (fold_left update_pair l st) st.
Proof.
  apply (fold_left_inv update_pair (fun s => same_frame s st));
    [|apply same_frame_refl].
  intros s [[n c] k] _ Hs. simpl.
  eapply same_frame_trans; [apply weight_step_frame | exact Hs].
Qed.

Lemma update_pairs_notin l st n c k :
  ~ In (n, c, k) l ->
  weights (fold_left update_pair l st) n c k = weights st n c k.
Proof.
  revert st. induction l as [|[[n' c'] k'] l IH]; simpl; intros st Hn;
    [reflexivity|].
  rewrite IH by tauto. apply weight_step_other. intros E. apply Hn. now left.
Qed.

Lemma update_pairs_in l st n c k :
  NoDup l -> In (n, c, k) l ->
  weights (fold_left update_pair l st) n c k =
  cell_update st n c k (weights st n c k).
Proof.
  revert st. induction l as [|[[n' c'] k'] l IH]; simpl; intros st Hnd Hin;
    [contradiction|].
  inversion Hnd as [|? ? Hnotin Hnd']; subst.
  destruct Hin as [E|Hin].
  - inversion E; subst. rewrite update_pairs_notin by assumption.
    apply weight_step_same.
  - rewrite IH by assumption.
    rewrite (cell_update_frame _ st) by apply weight_step_frame.
    f_equal. apply weight_step_other. intros E. inversion E; subst.
    contradiction.
Qed.

Lemma in_weight_pairs st n c k :
  In (n, c, k) (weight_pairs st) <-> in_update_range st n c k.
Proof.
  unfold weight_pairs, in_update_range. rewrite in_flat_map. split.
  - intros (n' & Hn & H). apply in_flat_map in H as (c' & Hc & H).
    apply in_map_iff in H as (k' & E & Hk). inversion E; subst.
    apply in_zrange in Hn, Hc, Hk. lia.
  - intros (Hn & Hc & Hk). exists n. split; [apply in_zrange; lia|].
    apply in_flat_map. exists c. split; [now apply in_zrange|].
    apply in_map_iff. exists k. split; [reflexivity | now apply in_zrange].
Qed.

Lemma NoDup_weight_pairs st : NoDup (weight_pairs st).
Proof.
  unfold weight_pairs. apply NoDup_flat_map; [apply NoDup_zrange | |].
  - intros n _. apply NoDup_flat_map; [apply NoDup_zrange | |].
    + intros c _. apply Injective_map_NoDup; [|apply NoDup_zrange].
      intros a b E. now inversion E.
    + intros c c' [[x y] z] _ _ H H'.
      apply in_map_iff in H as (? & E & _), H' as (? & E' & _).
      congruence.
  - intros n n' [[x y] z] _ _ H H'.
    apply in_flat_map in H as (? & _ & H), H' as (? & _ & H').
    apply in_map_iff in H as (? & E & _), H' as (? & E' & _).
    congruence.
Qed.

(** The three nested loops are one left fold of the loop body over
    [weight_pairs]. *)
Lemma calculate_weight_fold st :
  calculate_weight st = fold_left update_pair (weight_pairs st) st.
Proof.
  unfold calculate_weight, weight_pairs, for_loop.
  rewrite fold_left_flat_map.
  apply (fold_left_ext_inv _ _ (fun s => same_frame s st));
    [| |apply same_frame_refl].
  - intros s n Hs.
    eapply same_frame_trans; [|exact Hs].
    apply (fold_left_inv _ (fun s' => same_frame s' s));
      [|apply same_frame_refl].
    intros s1 c _ Hs1. eapply same_frame_trans; [|exact Hs1].
    apply (fold_left_inv _ (fun s' => same_frame s' s1));
      [|apply same_frame_refl].
    intros s2 k _ Hs2. eapply same_frame_trans; [|exact Hs2].
    apply weight_step_frame.
  - intros s n Hs. rewrite fold_left_flat_map.
    assert (Hsi : size_input s = size_input st) by apply Hs.
    assert (Htn : total_neurons s = total_neurons st) by apply Hs.
    rewrite Hsi, Htn.
    apply (fold_left_ext_inv _ _ (fun s' => same_frame s' st)); [| |exact Hs].
    + intros s1 c Hs1. eapply same_frame_trans; [|exact Hs1].
      apply (fold_left_inv _ (fun s' => same_frame s' s1));
        [|apply same_frame_refl].
      intros s2 k _ Hs2. eapply same_frame_trans; [|exact Hs2].
      apply weight_step_frame.
    + intros s1 c Hs1. rewrite fold_left_map.
      assert (Htn1 : total_neurons s1 = total_neurons st) by apply Hs1.
      now rewrite Htn1.
Qed.

Lemma calculate_weight_frame st : same_frame (calculate_weight st) st.
Proof. rewrite calculate_weight_fold. apply update_pairs_frame. Qed.

Lemma calculate_weight_in_range st n c k :
  in_update_range st n c k ->
  weights (calculate_weight st) n c k =
  cell_update st n c k (weights st n c k).
Proof.
  intros H. rewrite calculate_weight_fold.
  apply update_pairs_in; [apply NoDup_weight_pairs | now apply in_weight_pairs].
Qed.

Lemma calculate_weight_out_of_range st n c k :
  ~ in_update_range st n c k ->
  weights (calculate_weight st) n c k = weights st n c k.
Proof.
  intros H. rewrite calculate_weight_fold.
  apply update_pairs_notin. now rewrite in_weight_pairs.
Qed.

Lemma in_update_range_dec st n c k :
  {in_update_range st n c k} + {~ in_update_range st n c k}.
Proof.
  unfold in_update_range.
  destruct (Z_le_dec 0 n), (Z_lt_dec n (size_output st)),
    (Z_le_dec (size_input st + 2) c), (Z_le_dec c (total_neurons st + 1)),
    (Z_le_dec 0 k), (Z_le_dec k (total_neurons st + 1));
    try (right; lia); left; lia.
Qed.

Lemma cell_update_zero st n c k : cell_update st n c k 0%R = 0%R.
Proof.
  unfold cell_update. destruct (Req_dec_T 0 0); [reflexivity | congruence].
Qed.

(** ** The forward pass and the diffusion leave the weights alone *)

Lemma calculate_output_weights pattern st :
  weights (calculate_output pattern st) = weights st.
Proof.
  unfold calculate_output.
  apply (for_loop_inv (fun s => weights s = weights st)); [|reflexivity].
  intros n s _ Hs. rewrite <- Hs. clear Hs. unfold output_network.
  apply (for_loop_inv (fun s' => weights s' = weights s)).
  - intros t s1 _ H1. rewrite <- H1. unfold timestep_body.
    apply (for_loop_inv (fun s' => weights s' = weights s1)).
    + intros c s2 _ H2. exact H2.
    + apply (for_loop_inv (fun s' => weights s' = weights s1));
        [|reflexivity].
      intros c s2 _ H2. exact H2.
  - destruct (_ =? _).
    + apply (for_loop_inv (fun s' => weights s' = weights s));
        [|reflexivity].
      intros c s2 _ H2. exact H2.
    + apply (for_loop_inv (fun s' => weights s' = weights s)).
      * intros c s2 _ H2. exact H2.
      * apply (for_loop_inv (fun s' => weights s' = weights s));
          [|reflexivity].
        intros c s2 _ H2. exact H2.
Qed.

Lemma learning_step_weights target n st :
  weights (learning_step target n st) = weights st.
Proof.
  unfold learning_step, broadcast_error.
  apply (for_loop_inv (fun s' => weights s' = weights st)).
  - intros c s _ H. exact H.
  - unfold record_error. destruct (Rlt_dec 0.5 _), (Rlt_dec 0 _); reflexivity.
Qed.

Lemma calculate_learning_weights target st :
  weights (calculate_learning target st) = weights st.
Proof.
  unfold calculate_learning.
  apply (for_loop_inv (fun s => weights s = weights st)); [|reflexivity].
  intros n s _ Hs. now rewrite learning_step_weights.
Qed.

Lemma calculate_weight_keeps_zero st n c k :
  weights st n c k = 0%R -> weights (calculate_weight st) n c k = 0%R.
Proof.
  intros H. destruct (in_update_range_dec st n c k) as [Hr|Hr].
  - rewrite calculate_weight_in_range, H by assumption.
    apply cell_update_zero.
  - now rewrite calculate_weight_out_of_range.
Qed.

(** ** Loops that fill one row per iteration *)

Lemma fold_left_establish (f : ed_state -> Z -> ed_state)
  (J : ed_state -> Prop) (Q : Z -> ed_state -> Prop) (l : list Z) :
  (forall s a, In a l -> J s -> J (f s a)) ->
  (forall s a, In a l -> J s -> Q a (f s a)) ->
  (forall s a b, In b l -> J s -> a <> b -> Q a s -> Q a (f s b)) ->
  forall st, J st -> forall a, In a l -> Q a (fold_left f l st).
Proof.
  induction l as [|a0 l IH]; simpl; intros HJ Hest Hstab st Hst a Ha;
    [contradiction|].
  destruct (in_dec Z.eq_dec a l) as [Hin|Hnotin].
  - apply IH; auto.
  - destruct Ha as [->|Ha]; [|contradiction].
    apply (fold_left_inv f (fun s => J s /\ Q a s)).
    + intros s b Hb [Hs Hq]. split; [auto|].
      apply Hstab; auto. intros ->. contradiction.
    + split; auto.
Qed.

Lemma for_loop_establish (J : ed_state -> Prop) (Q : Z -> ed_state -> Prop)
  lo hi body :
  (forall s a, lo <= a <= hi -> J s -> J (body a s)) ->
  (forall s a, lo <= a <= hi -> J s -> Q a (body a s)) ->
  (forall s a b, lo <= b <= hi -> J s -> a <> b -> Q a s -> Q a (body b s)) ->
  forall st, J st -> forall a, lo <= a <= hi -> Q a (for_loop lo hi body st).
Proof.
  intros HJ Hest Hstab st Hst a Ha. unfold for_loop.
  apply (fold_left_establish (fun s i => body i s) J Q); auto.
  - intros s b Hb. apply HJ. now apply in_zrange.
  - intros s b Hb. apply Hest. now apply in_zrange.
  - intros s b b' Hb. apply Hstab. now apply in_zrange.
  - now apply in_zrange.
Qed.

(** ** calculate_learning *)

Lemma learning_frame_refl st : learning_frame st st.
Proof. repeat split. Qed.

Lemma learning_frame_trans s1 s2 s3 :
  learning_frame s1 s2 -> learning_frame s2 s3 -> learning_frame s1 s3.
Proof.
  unfold learning_frame. intros H1 H2.
  repeat match goal with H : _ /\ _ |- _ => destruct H end.
  repeat split; congruence.
Qed.

Lemma record_error_frame target n st :
  learning_frame (record_error target n st) st.
Proof.
  unfold record_error.
  destruct (Rlt_dec 0.5 _), (Rlt_dec 0 _); repeat split.
Qed.

Lemma record_error_slot target n st :
  let e := (target n - neuron_output st n (size_input st + 2)%Z)%R in
  error_delta (record_error target n st) n (size_input st + 2) 0 =
    excitatory_channel e /\
  error_delta (record_error target n st) n (size_input st + 2) 1 =
    inhibitory_channel e.
Proof.
  unfold record_error, excitatory_channel, inhibitory_channel.
  destruct (Rlt_dec 0.5 _), (Rlt_dec 0 _); simpl;
    unfold upd3; rewrite ?Z.eqb_refl; simpl; auto.
Qed.

Lemma record_error_other_rows target n st n' c ch :
  n' <> n ->
  error_delta (record_error target n st) n' c ch = error_delta st n' c ch.
Proof.
  intros H. unfold record_error.
  destruct (Rlt_dec 0.5 _), (Rlt_dec 0 _); simpl;
    rewrite !upd3_other by congruence; reflexivity.
Qed.

Lemma broadcast_error_frame n exc inh st :
  learning_frame (broadcast_error n exc inh st) st.
Proof.
  unfold broadcast_error.
  apply (for_loop_inv (fun s => learning_frame s st));
    [|apply learning_frame_refl].
  intros c s _ H. exact H.
Qed.

Lemma broadcast_error_untouched n exc inh st n' c ch :
  n' <> n \/ c < size_input st + 3 \/ total_neurons st + 1 < c ->
  error_delta (broadcast_error n exc inh st) n' c ch = error_delta st n' c ch.
Proof.
  intros H. unfold broadcast_error.
  apply (for_loop_inv
           (fun s => error_delta s n' c ch = error_delta st n' c ch));
    [|reflexivity].
  intros i s Hi Hs. simpl. rewrite !upd3_other; [exact Hs | |];
    intros E; inversion E; subst; lia.
Qed.

Lemma broadcast_error_hidden n exc inh st c :
  size_input st + 3 <= c <= total_neurons st + 1 ->
  error_delta (broadcast_error n exc inh st) n c 0 =
    (exc * error_amplification st)%R /\
  error_delta (broadcast_error n exc inh st) n c 1 =
    (inh * error_amplification st)%R.
Proof.
  intros Hc. unfold broadcast_error.
  apply (for_loop_establish
           (fun s => error_amplification s = error_amplification st)
           (fun c s =>
              error_delta s n c 0 = (exc * error_amplification st)%R /\
              error_delta s n c 1 = (inh * error_amplification st)%R));
    auto.
  - intros s a _ Hs. simpl. unfold upd3. rewrite !Z.eqb_refl. simpl.
    now rewrite Hs.
  - intros s a b _ _ Hab [H0 H1]. simpl.
    rewrite !upd3_other by congruence. auto.
Qed.

Lemma learning_step_frame target n st :
  learning_frame (learning_step target n st) st.
Proof.
  unfold learning_step.
  eapply learning_frame_trans;
    [apply broadcast_error_frame | apply record_error_frame].
Qed.

Lemma learning_step_other_rows target n st n' c ch :
  n' <> n ->
  error_delta (learning_step target n st) n' c ch = error_delta st n' c ch.
Proof.
  intros H. unfold learning_step.
  rewrite broadcast_error_untouched by auto.
  now apply record_error_other_rows.
Qed.

Lemma learning_step_row target n st :
  diffused_row target st (learning_step target n st) n.
Proof.
  unfold diffused_row, learning_step.
  destruct (record_error_frame target n st) as (Ho & Hsi & Htn & Hamp & _).
  destruct (record_error_slot target n st) as [H0 H1].
  rewrite Hsi. rewrite H0, H1. repeat split.
  - rewrite broadcast_error_untouched by (rewrite Hsi; lia). exact H0.
  - rewrite broadcast_error_untouched by (rewrite Hsi; lia). exact H1.
  - rewrite <- Hamp. apply broadcast_error_hidden. rewrite Hsi, Htn. lia.
  - rewrite <- Hamp. apply broadcast_error_hidden. rewrite Hsi, Htn. lia.
Qed.

Lemma calculate_learning_frame target st :
  learning_frame (calculate_learning target st) st.
Proof.
  unfold calculate_learning.
  apply (for_loop_inv (fun s => learning_frame s st));
    [|apply learning_frame_refl].
  intros n s _ Hs.
  eapply learning_frame_trans; [apply learning_step_frame | exact Hs].
Qed.

Lemma calculate_learning_row target st n :
  0 <= n < size_output st ->
  diffused_row target st (calculate_learning target st) n.
Proof.
  intros Hn. unfold calculate_learning.
  apply (for_loop_establish (fun s => learning_frame s st)
           (fun n s => diffused_row target st s n));
    [| | |apply learning_frame_refl|lia].
  - intros s a _ Hs.
    eapply learning_frame_trans; [apply learning_step_frame | exact Hs].
  - intros s a _ (Ho & Hsi & Htn & Hamp & _).
    pose proof (learning_step_row target a s) as H.
    unfold diffused_row in *. now rewrite Ho, Hsi, Htn, Hamp in H.
  - intros s a b _ _ Hab (H0 & H1 & Hh). unfold diffused_row.
    rewrite !learning_step_other_rows by assumption.
    repeat split; auto.
    + rewrite learning_step_other_rows by assumption. now apply Hh.
    + rewrite learning_step_other_rows by assumption. now apply Hh.
Qed.

Lemma channel_split e :
  (excitatory_channel e * inhibitory_channel e = 0)%R /\
  (excitatory_channel e - inhibitory_channel e = e)%R /\
  (0 <= excitatory_channel e)%R /\ (0 <= inhibitory_channel e)%R.
Proof.
  unfold excitatory_channel, inhibitory_channel.
  destruct (Rlt_dec 0 e); repeat split; lra.
Qed.

(** ** sigmoid and calculate_output *)

Lemma exp_scaled (n : nat) (x : R) : exp (INR n * x) = (exp x ^ n)%R.
Proof.
  induction n as [|n IH].
  - simpl. rewrite Rmult_0_l. apply exp_0.
  - rewrite S_INR, Rmult_plus_distr_r, Rmult_1_l, exp_plus, IH. simpl. ring.
Qed.

(** [exp(-40)] is positive and below [2^-53], half the distance from 1 to
    the next double. *)
Lemma exp_minus_40_small : (0 < exp (-40) < / 2 ^ 53)%R.
Proof.
  split; [apply exp_pos|].
  replace (-40)%R with (Ropp 40) by lra.
  rewrite exp_Ropp. apply Rinv_lt_contravar.
  - apply Rmult_lt_0_compat; [apply pow_lt; lra | apply exp_pos].
  - replace 40%R with (INR 400 * (1 / 10))%R
      by (rewrite INR_IZR_INZ; simpl; lra).
    rewrite exp_scaled.
    apply Rlt_le_trans with ((11 / 10) ^ 400)%R.
    + unfold Rdiv. rewrite Rpow_mult_distr, pow_inv.
      apply Rmult_lt_reg_r with (10 ^ 400)%R; [apply pow_lt; lra|].
      rewrite Rmult_assoc, Rinv_l, Rmult_1_r by (apply pow_nonzero; lra).
      rewrite !pow_IZR, <- mult_IZR. apply IZR_lt. vm_compute. reflexivity.
    + apply pow_incr. split; [lra|].
      pose proof (exp_ineq1 (1 / 10)) as H. lra.
Qed.

Lemma sigmoid_range st x : unit_open (sigmoid st x).
Proof.
  unfold unit_open, sigmoid.
  pose proof (exp_pos (-2 * x / sigmoid_steepness st)) as He.
  set (e := exp _) in *. split.
  - apply Rdiv_lt_0_compat; lra.
  - apply Rmult_lt_reg_r with (1 + e)%R; [lra|].
    unfold Rdiv. rewrite Rmult_assoc, Rinv_l by lra. lra.
Qed.

Lemma upd2_same a i j v : upd2 a i j v i j = v.
Proof. unfold upd2. now rewrite !Z.eqb_refl. Qed.

Lemma upd2_other a i j v i' j' :
  (i', j') <> (i, j) -> upd2 a i j v i' j' = a i' j'.
Proof.
  unfold upd2. intros H.
  destruct (Z.eqb_spec i' i); simpl; [|reflexivity].
  destruct (Z.eqb_spec j' j); simpl; [|reflexivity].
  subst. now contradiction H.
Qed.

Lemma upd2_cases a i j v i' j' :
  upd2 a i j v i' j' = v \/ upd2 a i j v i' j' = a i' j'.
Proof. unfold upd2. destruct (_ && _); auto. Qed.

Lemma activation_frame_refl st : activation_frame st st.
Proof. repeat split. Qed.

Lemma activation_frame_trans s1 s2 s3 :
  activation_frame s1 s2 -> activation_frame s2 s3 -> activation_frame s1 s3.
Proof.
  unfold activation_frame. intros H1 H2.
  repeat match goal with H : _ /\ _ |- _ => destruct H end.
  repeat split; congruence.
Qed.

Lemma for_loop_activation_frame lo hi body st :
  (forall i s, activation_frame (body i s) s) ->
  activation_frame (for_loop lo hi body st) st.
Proof.
  intros Hb.
  apply (for_loop_inv (fun s => activation_frame s st));
    [|apply activation_frame_refl].
  intros i s _ Hs. eapply activation_frame_trans; [apply Hb | exact Hs].
Qed.

Lemma timestep_body_frame n st : activation_frame (timestep_body n st) st.
Proof.
  unfold timestep_body.
  eapply activation_frame_trans; apply for_loop_activation_frame;
    intros; repeat split.
Qed.

Lemma output_network_frame pattern n st :
  activation_frame (output_network pattern n st) st.
Proof.
  unfold output_network.
  eapply activation_frame_trans;
    [apply for_loop_activation_frame; intros; apply timestep_body_frame|].
  destruct (_ =? _).
  - apply for_loop_activation_frame; intros; repeat split.
  - eapply activation_frame_trans; apply for_loop_activation_frame;
      intros; repeat split.
Qed.

Lemma calculate_output_frame pattern st :
  activation_frame (calculate_output pattern st) st.
Proof.
  apply for_loop_activation_frame. intros. apply output_network_frame.
Qed.

(** A cell of the open unit interval stays there: the only stores into
    [neuron_output] are sigmoid values. *)
Lemma timestep_body_keeps_unit n st n' c' :
  unit_open (neuron_output st n' c') ->
  unit_open (neuron_output (timestep_body n st) n' c').
Proof.
  intros H. unfold timestep_body.
  apply (for_loop_inv (fun s => unit_open (neuron_output s n' c'))).
  - intros c s _ Hs. exact Hs.
  - apply (for_loop_inv (fun s => unit_open (neuron_output s n' c')));
      [|exact H].
    intros c s _ Hs. simpl.
    destruct (upd2_cases (neuron_output s) n c (sigmoid s (weighted_sum s n c))
                n' c') as [E|E]; rewrite E; [apply sigmoid_range | exact Hs].
Qed.

Lemma output_network_keeps_unit pattern n st n' c' :
  unit_open (neuron_output st n' c') ->
  unit_open (neuron_output (output_network pattern n st) n' c').
Proof.
  intros H. unfold output_network.
  apply (for_loop_inv (fun s => unit_open (neuron_output s n' c'))).
  - intros t s _ Hs. now apply timestep_body_keeps_unit.
  - destruct (_ =? _).
    + apply (for_loop_inv (fun s => unit_open (neuron_output s n' c')));
        [|exact H].
      intros c s _ Hs. exact Hs.
    + apply (for_loop_inv (fun s => unit_open (neuron_output s n' c'))).
      * intros c s _ Hs. exact Hs.
      * apply (for_loop_inv (fun s => unit_open (neuron_output s n' c')));
          [|exact H].
        intros c s _ Hs. exact Hs.
Qed.

Lemma timestep_body_fills n st c :
  size_input st + 2 <= c <= total_neurons st + 1 ->
  unit_open (neuron_output (timestep_body n st) n c).
Proof.
  intros Hc. unfold timestep_body.
  apply (for_loop_inv (fun s => unit_open (neuron_output s n c))).
  - intros c' s _ Hs. exact Hs.
  - apply (for_loop_establish (fun _ => True)
             (fun c s => unit_open (neuron_output s n c))); auto.
    + intros s a _ _. simpl. rewrite upd2_same. apply sigmoid_range.
    + intros s a b _ _ Hab Hs. simpl.
      rewrite upd2_other by congruence. exact Hs.
Qed.

Lemma output_network_fills pattern n st c :
  1 <= timesteps st ->
  size_input st + 2 <= c <= total_neurons st + 1 ->
  unit_open (neuron_output (output_network pattern n st) n c).
Proof.
  intros Ht Hc. unfold output_network.
  set (s1 := for_loop 2 _ _ st).
  set (s2 := if _ =? _ then _ else _).
  assert (H2 : activation_frame s2 st).
  { subst s2 s1. destruct (_ =? _).
    - apply for_loop_activation_frame; intros; repeat split.
    - eapply activation_frame_trans; apply for_loop_activation_frame;
        intros; repeat split. }
  assert (Hts : timesteps s2 = timesteps st) by apply H2.
  apply (for_loop_establish (fun s => activation_frame s st)
           (fun (_ : Z) s => unit_open (neuron_output s n c)))
    with (a := 1); [| | |exact H2|lia].
  - intros s a _ Hs.
    eapply activation_frame_trans; [apply timestep_body_frame | exact Hs].
  - intros s a _ Hs. apply timestep_body_fills.
    assert (Hsi : size_input s = size_input st) by apply Hs.
    assert (Htn : total_neurons s = total_neurons st) by apply Hs.
    rewrite Hsi, Htn. exact Hc.
  - intros s a b _ _ _ Hs. now apply timestep_body_keeps_unit.
Qed.

Lemma calculate_output_fills pattern st n c :
  1 <= timesteps st ->
  0 <= n < size_output st ->
  size_input st + 2 <= c <= total_neurons st + 1 ->
  unit_open (neuron_output (calculate_output pattern st) n c).
Proof.
  intros Ht Hn Hc. unfold calculate_output.
  apply (for_loop_establish (fun s => activation_frame s st)
           (fun n s => unit_open (neuron_output s n c)));
    [| | |apply activation_frame_refl|lia].
  - intros s a _ Hs.
    eapply activation_frame_trans; [apply output_network_frame | exact Hs].
  - intros s a _ Hs.
    assert (Hsi : size_input s = size_input st) by apply Hs.
    assert (Htn : total_neurons s = total_neurons st) by apply Hs.
    assert (Hts : timesteps s = timesteps st) by apply Hs.
    apply output_network_fills; [rewrite Hts | rewrite Hsi, Htn]; assumption.
  - intros s a b _ _ _ Hs. now apply output_network_keeps_unit.
Qed.

Lemma stores_unit_refl st : stores_unit st st.
Proof. intros n c. now left. Qed.

Lemma stores_unit_step st s s' :
  stores_unit st s ->
  (forall n c, neuron_output s' n c = neuron_output s n c \/
               unit_open (neuron_output s' n c)) ->
  stores_unit st s'.
Proof.
  intros Hs H n c. destruct (H n c) as [E|U]; [|now right].
  rewrite E. apply Hs.
Qed.

Lemma timestep_body_stores n st : stores_unit st (timestep_body n st).
Proof.
  unfold timestep_body.
  apply (for_loop_inv (stores_unit st)).
  - intros c s _ Hs. exact Hs.
  - apply (for_loop_inv (stores_unit st)); [|apply stores_unit_refl].
    intros c s _ Hs. apply (stores_unit_step st s); [exact Hs|].
    intros n' c'. simpl.
    destruct (upd2_cases (neuron_output s) n c (sigmoid s (weighted_sum s n c))
                n' c') as [E|E]; rewrite E; [right; apply sigmoid_range | now left].
Qed.

Lemma calculate_output_stores pattern st :
  stores_unit st (calculate_output pattern st).
Proof.
  unfold calculate_output.
  apply (for_loop_inv (stores_unit st)); [|apply stores_unit_refl].
  intros n s _ Hs. unfold output_network.
  apply (for_loop_inv (stores_unit st)).
  - intros t s' _ Hs'. apply (stores_unit_step st s'); [exact Hs'|].
    apply timestep_body_stores.
  - destruct (_ =? _).
    + apply (for_loop_inv (stores_unit st)); [|exact Hs].
      intros c s' _ Hs'. exact Hs'.
    + apply (for_loop_inv (stores_unit st)).
      * intros c s' _ Hs'. exact Hs'.
      * apply (for_loop_inv (stores_unit st)); [|exact Hs].
        intros c s' _ Hs'. exact Hs'.
Qed.

Lemma base_delta_textbook st n c k :
  unit_open (neuron_output st n c) ->
  base_delta st n c k =
  (learning_rate st * neuron_input st n k *
   neuron_output st n c * (1 - neuron_output st n c))%R.
Proof.
  intros [H0 H1]. unfold base_delta. rewrite Rabs_pos_eq by lra. reflexivity.
Qed.

(** ** init_network: what it leaves alone *)

Ltac split_frames :=
  repeat match goal with H : _ /\ _ |- _ => destruct H end.

Lemma init_frame_refl st : init_frame st st.
Proof. repeat split. Qed.

Lemma init_frame_trans s1 s2 s3 :
  init_frame s1 s2 -> init_frame s2 s3 -> init_frame s1 s3.
Proof.
  unfold init_frame. intros H1 H2. split_frames. repeat split; congruence.
Qed.

Lemma rules_frame_refl st : rules_frame st st.
Proof. repeat split. Qed.

Lemma rules_frame_trans s1 s2 s3 :
  rules_frame s1 s2 -> rules_frame s2 s3 -> rules_frame s1 s3.
Proof.
  intros (H1 & Hp1 & Hi1) (H2 & Hp2 & Hi2). split; [|split; congruence].
  eapply init_frame_trans; eassumption.
Qed.

Lemma assign_weight_rules_frame n c k v st :
  rules_frame (assign_weight n c k v st) st.
Proof. repeat split. Qed.

Lemma assign_weight_random_rules_frame n c k r st :
  rules_frame (assign_weight_random n c k r st) st.
Proof. repeat split. Qed.

Create HintDb ed_frames.

#[local] Hint Resolve rules_frame_refl assign_weight_rules_frame
  assign_weight_random_rules_frame : ed_frames.

Ltac case_guards :=
  repeat match goal with
         | |- context [if ?b then _ else _] => destruct b
         end.

Lemma rule_threshold_frame n c s st : rules_frame (rule_threshold n c s st) st.
Proof. unfold rule_threshold. case_guards; auto with ed_frames. Qed.

Lemma rule_regular_frame n c s st : rules_frame (rule_regular n c s st) st.
Proof. unfold rule_regular. case_guards; auto with ed_frames. Qed.

Lemma rule_input_blocking_frame n c s st :
  rules_frame (rule_input_blocking n c s st) st.
Proof. unfold rule_input_blocking. case_guards; auto with ed_frames. Qed.

Lemma rule_loop_cutting_frame n c s st :
  rules_frame (rule_loop_cutting n c s st) st.
Proof. unfold rule_loop_cutting. case_guards; auto with ed_frames. Qed.

Lemma rule_loop_cutting_output_frame n c s st :
  rules_frame (rule_loop_cutting_output n c s st) st.
Proof. unfold rule_loop_cutting_output. case_guards; auto with ed_frames. Qed.

Lemma rule_multi_layer_frame n c s st :
  rules_frame (rule_multi_layer n c s st) st.
Proof. unfold rule_multi_layer. case_guards; auto with ed_frames. Qed.

Lemma rule_second_layer_frame n c s st :
  rules_frame (rule_second_layer n c s st) st.
Proof. unfold rule_second_layer. case_guards; auto with ed_frames. Qed.

Lemma rule_self_loop_frame n c s st : rules_frame (rule_self_loop n c s st) st.
Proof. unfold rule_self_loop. case_guards; auto with ed_frames. Qed.

Lemma rule_inhibitory_input_frame n c s st :
  rules_frame (rule_inhibitory_input n c s st) st.
Proof. unfold rule_inhibitory_input. case_guards; auto with ed_frames. Qed.

Lemma rule_polarity_frame n c s st : rules_frame (rule_polarity n c s st) st.
Proof. unfold rule_polarity. auto with ed_frames. Qed.

Lemma init_rules_frame n c s st : rules_frame (init_rules n c s st) st.
Proof.
  unfold init_rules.
  eapply rules_frame_trans; [apply rule_inhibitory_input_frame|].
  eapply rules_frame_trans; [apply rule_self_loop_frame|].
  eapply rules_frame_trans; [apply rule_second_layer_frame|].
  eapply rules_frame_trans; [apply rule_multi_layer_frame|].
  eapply rules_frame_trans; [apply rule_loop_cutting_output_frame|].
  eapply rules_frame_trans; [apply rule_loop_cutting_frame|].
  eapply rules_frame_trans; [apply rule_input_blocking_frame|].
  eapply rules_frame_trans; [apply rule_regular_frame|].
  apply rule_threshold_frame.
Qed.

Lemma init_cell_frame n c s st : rules_frame (init_cell n c s st) st.
Proof.
  unfold init_cell.
  eapply rules_frame_trans; [apply rule_polarity_frame|apply init_rules_frame].
Qed.

Lemma for_loop_init_frame lo hi body st :
  (forall i s, init_frame (body i s) s) ->
  init_frame (for_loop lo hi body st) st.
Proof.
  intros Hb.
  apply (for_loop_inv (fun s => init_frame s st)); [|apply init_frame_refl].
  intros i s _ Hs. eapply init_frame_trans; [apply Hb | exact Hs].
Qed.

Lemma for_loop_rules_frame lo hi body st :
  (forall i s, rules_frame (body i s) s) ->
  rules_frame (for_loop lo hi body st) st.
Proof.
  intros Hb.
  apply (for_loop_inv (fun s => rules_frame s st)); [|apply rules_frame_refl].
  intros i s _ Hs. eapply rules_frame_trans; [apply Hb | exact Hs].
Qed.

Lemma init_weights_frame n st : rules_frame (init_weights n st) st.
Proof.
  unfold init_weights. apply for_loop_rules_frame. intros c s.
  apply for_loop_rules_frame. intros k s'. apply init_cell_frame.
Qed.

Lemma assign_neuron_types_frame st : init_frame (assign_neuron_types st) st.
Proof.
  unfold assign_neuron_types.
  eapply init_frame_trans; [repeat split|].
  apply for_loop_init_frame. intros; repeat split.
Qed.

Lemma init_bias_frame n st : init_frame (init_bias n st) st.
Proof. repeat split. Qed.

Lemma init_output_network_frame n st :
  init_frame (init_output_network n st) st.
Proof.
  unfold init_output_network.
  eapply init_frame_trans; [apply init_bias_frame|].
  eapply init_frame_trans; [apply init_weights_frame|].
  apply assign_neuron_types_frame.
Qed.

Lemma init_network_dims a b c d st :
  let st' := init_network a b c d st in
  size_input st' = a /\ size_output st' = b /\ size_hidden st' = c + d /\
  size_hidden2 st' = d /\ total_neurons st' = a + 1 + (c + d).
Proof.
  intros st'. subst st'. unfold init_network.
  set (s0 := set_dims _ _ _ _ _ st).
  assert (H : init_frame (for_loop 0 (size_output s0 - 1)
                            init_output_network s0) s0).
  { apply for_loop_init_frame. intros. apply init_output_network_frame. }
  destruct H as (H1 & H2 & H3 & H4 & H5 & _).
  unfold set_error_total, set_error_count.
  cbn [size_input size_output size_hidden size_hidden2 total_neurons].
  rewrite H1, H2, H3, H4, H5. repeat split.
Qed.

(** ** init_network: one cell *)

Lemma random_value_nonneg v : (0 <= random_value v)%R.
Proof.
  unfold random_value. apply Rmult_le_pos.
  - apply IZR_le. apply Z.rem_nonneg; lia.
  - lra.
Qed.

Lemma assign_weight_cell n c k v st :
  weights (assign_weight n c k v st) n c k = v.
Proof. apply upd3_same. Qed.

Lemma assign_weight_other n c k v st n' c' k' :
  (n', c', k') <> (n, c, k) ->
  weights (assign_weight n c k v st) n' c' k' = weights st n' c' k'.
Proof. intros H. now apply upd3_other. Qed.

Lemma assign_weight_random_cell n c k r st :
  weights (assign_weight_random n c k r st) n c k =
  (r * random_value (rand_seq st (rand_pos st)))%R.
Proof. apply upd3_same. Qed.

Lemma assign_weight_random_other n c k r st n' c' k' :
  (n', c', k') <> (n, c, k) ->
  weights (assign_weight_random n c k r st) n' c' k' = weights st n' c' k'.
Proof. intros H. now apply upd3_other. Qed.

Ltac other_cell :=
  case_guards;
  rewrite ?assign_weight_other, ?assign_weight_random_other by assumption;
  reflexivity.

Lemma init_cell_other n c s st n' c' s' :
  (n', c', s') <> (n, c, s) ->
  weights (init_cell n c s st) n' c' s' = weights st n' c' s'.
Proof.
  intros H. unfold init_cell, init_rules.
  unfold rule_polarity. rewrite assign_weight_other by assumption.
  unfold rule_inhibitory_input at 1.
  transitivity (weights (rule_self_loop n c s
    (rule_second_layer n c s (rule_multi_layer n c s
      (rule_loop_cutting_output n c s (rule_loop_cutting n c s
        (rule_input_blocking n c s (rule_regular n c s
          (rule_threshold n c s st))))))))  n' c' s'); [other_cell|].
  unfold rule_self_loop at 1.
  transitivity (weights (rule_second_layer n c s (rule_multi_layer n c s
      (rule_loop_cutting_output n c s (rule_loop_cutting n c s
        (rule_input_blocking n c s (rule_regular n c s
          (rule_threshold n c s st)))))))  n' c' s'); [other_cell|].
  unfold rule_second_layer at 1.
  transitivity (weights (rule_multi_layer n c s
      (rule_loop_cutting_output n c s (rule_loop_cutting n c s
        (rule_input_blocking n c s (rule_regular n c s
          (rule_threshold n c s st))))))  n' c' s'); [other_cell|].
  unfold rule_multi_layer at 1.
  transitivity (weights (rule_loop_cutting_output n c s
      (rule_loop_cutting n c s (rule_input_blocking n c s
        (rule_regular n c s (rule_threshold n c s st)))))  n' c' s');
    [other_cell|].
  unfold rule_loop_cutting_output at 1.
  transitivity (weights (rule_loop_cutting n c s (rule_input_blocking n c s
        (rule_regular n c s (rule_threshold n c s st))))  n' c' s');
    [other_cell|].
  unfold rule_loop_cutting at 1.
  transitivity (weights (rule_input_blocking n c s
        (rule_regular n c s (rule_threshold n c s st)))  n' c' s');
    [other_cell|].
  unfold rule_input_blocking at 1.
  transitivity (weights (rule_regular n c s (rule_threshold n c s st))
                  n' c' s'); [other_cell|].
  unfold rule_regular at 1.
  transitivity (weights (rule_threshold n c s st) n' c' s'); [other_cell|].
  unfold rule_threshold. other_cell.
Qed.

Ltac decide_guards :=
  repeat match goal with
         | |- context [Z.eqb ?a ?b] => destruct (Z.eqb_spec a b)
         | |- context [Z.gtb ?a ?b] => destruct (Z.gtb_spec a b)
         | |- context [Z.ltb ?a ?b] => destruct (Z.ltb_spec a b)
         | |- context [Z.geb ?a ?b] => destruct (Z.geb_spec a b)
         end.

Ltac keep_nonneg :=
  unfold raw_nonneg, assign_weight_random, assign_weight, random;
  intros (Hw & Ht & Hc); case_guards; simpl; rewrite ?upd3_same;
  repeat split; try assumption; try lra;
  try (apply Rmult_le_pos; [assumption | apply random_value_nonneg]).

Lemma first_rules_nonneg n c s st :
  (0 <= init_range_weight st)%R -> (0 <= init_range_threshold st)%R ->
  raw_nonneg n c s (rule_regular n c s (rule_threshold n c s st)).
Proof.
  intros Hw Ht. unfold rule_regular, rule_threshold.
  destruct (Z.ltb_spec s 2), (Z.gtb_spec s 1); try lia;
    unfold raw_nonneg, assign_weight_random, assign_weight, random; simpl;
    rewrite upd3_same; repeat split; try assumption;
    (apply Rmult_le_pos; [assumption | apply random_value_nonneg]).
Qed.

Lemma rule_input_blocking_nonneg n c s st :
  raw_nonneg n c s st -> raw_nonneg n c s (rule_input_blocking n c s st).
Proof. unfold rule_input_blocking. keep_nonneg. Qed.

Lemma rule_loop_cutting_nonneg n c s st :
  raw_nonneg n c s st -> raw_nonneg n c s (rule_loop_cutting n c s st).
Proof. unfold rule_loop_cutting. keep_nonneg. Qed.

Lemma rule_loop_cutting_output_nonneg n c s st :
  raw_nonneg n c s st -> raw_nonneg n c s (rule_loop_cutting_output n c s st).
Proof. unfold rule_loop_cutting_output. keep_nonneg. Qed.

Lemma rule_multi_layer_nonneg n c s st :
  raw_nonneg n c s st -> raw_nonneg n c s (rule_multi_layer n c s st).
Proof. unfold rule_multi_layer. keep_nonneg. Qed.

Lemma rule_second_layer_nonneg n c s st :
  raw_nonneg n c s st -> raw_nonneg n c s (rule_second_layer n c s st).
Proof. unfold rule_second_layer. keep_nonneg. Qed.

Lemma rule_self_loop_nonneg n c s st :
  raw_nonneg n c s st -> raw_nonneg n c s (rule_self_loop n c s st).
Proof. unfold rule_self_loop. keep_nonneg. Qed.

Lemma rule_inhibitory_input_nonneg n c s st :
  raw_nonneg n c s st -> raw_nonneg n c s (rule_inhibitory_input n c s st).
Proof. unfold rule_inhibitory_input. keep_nonneg. Qed.

(** With non-negative ranges the raw weight the rules leave in a cell is
    non-negative, whatever was there before. *)
Lemma init_rules_nonneg n c s st :
  (0 <= init_range_weight st)%R -> (0 <= init_range_threshold st)%R ->
  (0 <= weights (init_rules n c s st) n c s)%R.
Proof.
  intros Hw Ht. unfold init_rules.
  apply rule_inhibitory_input_nonneg, rule_self_loop_nonneg,
    rule_second_layer_nonneg, rule_multi_layer_nonneg,
    rule_loop_cutting_output_nonneg, rule_loop_cutting_nonneg,
    rule_input_blocking_nonneg, first_rules_nonneg; assumption.
Qed.

Lemma init_cell_value n c s st :
  weights (init_cell n c s st) n c s =
  (weights (init_rules n c s st) n c s *
   (weights_oscillating st s * weights_oscillating st c))%R.
Proof.
  unfold init_cell, rule_polarity. rewrite assign_weight_cell.
  destruct (init_rules_frame n c s st) as (_ & Hp & _). now rewrite Hp.
Qed.

(** The loop-cutting chain: once the first loop-cutting rule has zeroed
    the cell, no later rule fires with a nonzero value. *)
Ltac keep_cut :=
  unfold loop_cut_pair, assign_weight_random, assign_weight, random;
  intros [(Hf & Hne & Hc & Hs) Hz];
  decide_guards; simpl; rewrite ?upd3_same;
  repeat split; try assumption; try lia; try reflexivity.

Lemma rule_loop_cutting_cuts n c s st :
  loop_cut_pair st c s ->
  loop_cut_pair (rule_loop_cutting n c s st) c s /\
  weights (rule_loop_cutting n c s st) n c s = 0%R.
Proof.
  unfold rule_loop_cutting, loop_cut_pair, assign_weight.
  intros (Hf & Hne & Hc & Hs). rewrite Hf.
  decide_guards; simpl; rewrite ?upd3_same;
    repeat split; try assumption; try lia; try reflexivity.
Qed.

Lemma rule_loop_cutting_output_cut n c s st :
  loop_cut_pair st c s /\ weights st n c s = 0%R ->
  loop_cut_pair (rule_loop_cutting_output n c s st) c s /\
  weights (rule_loop_cutting_output n c s st) n c s = 0%R.
Proof. unfold rule_loop_cutting_output. keep_cut. Qed.

Lemma rule_multi_layer_cut n c s st :
  loop_cut_pair st c s /\ weights st n c s = 0%R ->
  loop_cut_pair (rule_multi_layer n c s st) c s /\
  weights (rule_multi_layer n c s st) n c s = 0%R.
Proof. unfold rule_multi_layer. keep_cut. Qed.

Lemma rule_second_layer_cut n c s st :
  loop_cut_pair st c s /\ weights st n c s = 0%R ->
  loop_cut_pair (rule_second_layer n c s st) c s /\
  weights (rule_second_layer n c s st) n c s = 0%R.
Proof. unfold rule_second_layer. keep_cut. Qed.

Lemma rule_self_loop_cut n c s st :
  loop_cut_pair st c s /\ weights st n c s = 0%R ->
  loop_cut_pair (rule_self_loop n c s st) c s /\
  weights (rule_self_loop n c s st) n c s = 0%R.
Proof. unfold rule_self_loop. keep_cut. Qed.

Lemma rule_inhibitory_input_cut n c s st :
  loop_cut_pair st c s /\ weights st n c s = 0%R ->
  loop_cut_pair (rule_inhibitory_input n c s st) c s /\
  weights (rule_inhibitory_input n c s st) n c s = 0%R.
Proof. unfold rule_inhibitory_input. keep_cut. Qed.

Lemma loop_cut_pair_frame s st c k :
  rules_frame s st -> loop_cut_pair st c k -> loop_cut_pair s c k.
Proof.
  intros (H & _) Hp. unfold init_frame in H. split_frames.
  unfold loop_cut_pair in *. split_frames.
  repeat split; try congruence; try lia.
Qed.

Lemma init_cell_cut n c s st :
  loop_cut_pair st c s -> weights (init_cell n c s st) n c s = 0%R.
Proof.
  intros Hp. rewrite init_cell_value. unfold init_rules.
  assert (H : loop_cut_pair
                (rule_input_blocking n c s
                   (rule_regular n c s (rule_threshold n c s st))) c s).
  { eapply loop_cut_pair_frame; [|exact Hp].
    eapply rules_frame_trans; [apply rule_input_blocking_frame|].
    eapply rules_frame_trans;
      [apply rule_regular_frame | apply rule_threshold_frame]. }
  apply rule_loop_cutting_cuts with (n := n) in H.
  apply rule_loop_cutting_output_cut, rule_multi_layer_cut,
    rule_second_layer_cut, rule_self_loop_cut, rule_inhibitory_input_cut in H.
  destruct H as [_ Hz]. rewrite Hz. lra.
Qed.

(** ** init_network: the loops *)

Lemma upd1_same a i v : upd1 a i v i = v.
Proof. unfold upd1. now rewrite Z.eqb_refl. Qed.

Lemma upd1_other a i v i' : i' <> i -> upd1 a i v i' = a i'.
Proof. unfold upd1. intros H. now destruct (Z.eqb_spec i' i). Qed.

Lemma assign_neuron_types_polarity st i :
  weights_oscillating (assign_neuron_types st) i =
  polarity (size_input st) (total_neurons st) (weights_oscillating st) i.
Proof.
  unfold assign_neuron_types, polarity.
  set (s1 := for_loop _ _ _ st).
  assert (Hsi : size_input s1 = size_input st).
  { subst s1. apply (for_loop_inv (fun s => size_input s = size_input st));
      [|reflexivity]. intros c s _ Hs. exact Hs. }
  unfold assign_oscillating. simpl. rewrite Hsi. unfold upd1.
  destruct (Z.eqb_spec i (size_input st + 2)); [reflexivity|].
  destruct (Z.leb_spec 0 i), (Z.leb_spec i (total_neurons st + 1)); simpl.
  - subst s1.
    apply (for_loop_establish (fun _ => True)
             (fun i s => weights_oscillating s i = oscillation i)); auto.
    + intros s a _ _. simpl. apply upd1_same.
    + intros s a b _ _ Hab Hs. simpl. now rewrite upd1_other.
  - subst s1.
    apply (for_loop_inv
             (fun s => weights_oscillating s i = weights_oscillating st i));
      [|reflexivity].
    intros c s Hc Hs. simpl. rewrite upd1_other by lia. exact Hs.
  - subst s1.
    apply (for_loop_inv
             (fun s => weights_oscillating s i = weights_oscillating st i));
      [|reflexivity].
    intros c s Hc Hs. simpl. rewrite upd1_other by lia. exact Hs.
  - subst s1.
    apply (for_loop_inv
             (fun s => weights_oscillating s i = weights_oscillating st i));
      [|reflexivity].
    intros c s Hc Hs. simpl. rewrite upd1_other by lia. exact Hs.
Qed.

Lemma assign_neuron_types_weights st :
  weights (assign_neuron_types st) = weights st /\
  neuron_input (assign_neuron_types st) = neuron_input st /\
  rand_pos (assign_neuron_types st) = rand_pos st.
Proof.
  unfold assign_neuron_types. simpl.
  apply (for_loop_inv
           (fun s => weights s = weights st /\
                     neuron_input s = neuron_input st /\
                     rand_pos s = rand_pos st)); [|auto].
  intros c s _ Hs. exact Hs.
Qed.

Lemma init_weights_other_rows n st n' c k :
  n' <> n -> weights (init_weights n st) n' c k = weights st n' c k.
Proof.
  intros H. unfold init_weights.
  apply (for_loop_inv (fun s => weights s n' c k = weights st n' c k));
    [|reflexivity].
  intros c' s _ Hs. rewrite <- Hs.
  apply (for_loop_inv (fun s' => weights s' n' c k = weights s n' c k));
    [|reflexivity].
  intros k' s' _ Hs'. rewrite <- Hs'. apply init_cell_other. congruence.
Qed.

Lemma init_weights_establish n st (P : Z -> Z -> R -> Prop) :
  (forall s c k, rules_frame s st ->
     P c k (weights (init_cell n c k s) n c k)) ->
  forall c k,
    size_input st + 2 <= c <= total_neurons st + 1 ->
    0 <= k <= total_neurons st + 1 ->
    P c k (weights (init_weights n st) n c k).
Proof.
  intros HP c k Hc Hk. unfold init_weights.
  apply (for_loop_establish (fun s => rules_frame s st)
           (fun c s => P c k (weights s n c k)));
    [| | |apply rules_frame_refl|exact Hc].
  - intros s a _ Hs. eapply rules_frame_trans; [|exact Hs].
    apply for_loop_rules_frame. intros; apply init_cell_frame.
  - intros s a _ Hs.
    assert (Htn : total_neurons s = total_neurons st) by apply Hs.
    rewrite Htn.
    apply (for_loop_establish (fun s' => rules_frame s' st)
             (fun k s' => P a k (weights s' n a k)));
      [| | |exact Hs|exact Hk].
    + intros s' b _ Hs'.
      eapply rules_frame_trans; [apply init_cell_frame | exact Hs'].
    + intros s' b _ Hs'. now apply HP.
    + intros s' b b' _ _ Hb Hq. rewrite init_cell_other by congruence.
      exact Hq.
  - intros s a b _ _ Hab Hq.
    assert (E : weights (for_loop 0 (total_neurons s + 1)
                           (fun k0 => init_cell n b k0) s) n a k =
                weights s n a k).
    { apply (for_loop_inv (fun s' => weights s' n a k = weights s n a k));
        [|reflexivity].
      intros k' s' _ Hs'. rewrite <- Hs'. apply init_cell_other. congruence. }
    rewrite E. exact Hq.
Qed.

Lemma init_bias_weights n st :
  weights (init_bias n st) = weights st /\
  weights_oscillating (init_bias n st) = weights_oscillating st.
Proof. split; reflexivity. Qed.

Lemma init_output_network_other_rows n st n' c k :
  n' <> n ->
  weights (init_output_network n st) n' c k = weights st n' c k.
Proof.
  intros H. unfold init_output_network.
  destruct (init_bias_weights n (init_weights n (assign_neuron_types st)))
    as [E _].
  rewrite E, init_weights_other_rows by assumption.
  destruct (assign_neuron_types_weights st) as [E' _]. now rewrite E'.
Qed.

Lemma rules_frame_init_frame s st : rules_frame s st -> init_frame s st.
Proof. now intros (H & _). Qed.

Lemma init_output_network_establish n st (P : Z -> Z -> R -> Prop) :
  (forall s c k, init_frame s st ->
     P c k (weights (init_cell n c k s) n c k)) ->
  forall c k,
    size_input st + 2 <= c <= total_neurons st + 1 ->
    0 <= k <= total_neurons st + 1 ->
    P c k (weights (init_output_network n st) n c k).
Proof.
  intros HP c k Hc Hk. unfold init_output_network.
  destruct (init_bias_weights n (init_weights n (assign_neuron_types st)))
    as [E _].
  rewrite E.
  pose proof (assign_neuron_types_frame st) as Hf.
  assert (Hsi : size_input (assign_neuron_types st) = size_input st)
    by apply Hf.
  assert (Htn : total_neurons (assign_neuron_types st) = total_neurons st)
    by apply Hf.
  apply init_weights_establish; [|rewrite Hsi, Htn; exact Hc|rewrite Htn; exact Hk].
  intros s c' k' Hs. apply HP.
  eapply init_frame_trans; [apply rules_frame_init_frame, Hs | exact Hf].
Qed.

(** The state the loop over output networks starts from. *)
Lemma init_network_weights a b c d st :
  weights (init_network a b c d st) =
  weights (for_loop 0 (b - 1) init_output_network
             (set_dims a b (c + d) d (a + 1 + (c + d)) st)).
Proof. reflexivity. Qed.

Lemma init_network_establish a b c d st (P : Z -> Z -> R -> Prop) :
  (forall n s t k,
     init_frame s (set_dims a b (c + d) d (a + 1 + (c + d)) st) ->
     P t k (weights (init_cell n t k s) n t k)) ->
  forall n t k,
    0 <= n < b ->
    a + 2 <= t <= a + 1 + (c + d) + 1 ->
    0 <= k <= a + 1 + (c + d) + 1 ->
    P t k (weights (init_network a b c d st) n t k).
Proof.
  intros HP n t k Hn Ht Hk. rewrite init_network_weights.
  set (s0 := set_dims _ _ _ _ _ st).
  apply (for_loop_establish (fun s => init_frame s s0)
           (fun n s => P t k (weights s n t k)));
    [| | |apply init_frame_refl|lia].
  - intros s i _ Hs.
    eapply init_frame_trans; [apply init_output_network_frame | exact Hs].
  - intros s i _ Hs.
    assert (Hsi : size_input s = a) by apply Hs.
    assert (Htn : total_neurons s = a + 1 + (c + d)) by apply Hs.
    apply init_output_network_establish;
      [|rewrite Hsi, Htn; exact Ht|rewrite Htn; exact Hk].
    intros s' t' k' Hs'. apply HP.
    eapply init_frame_trans; eassumption.
  - intros s i j _ _ Hij Hq.
    rewrite init_output_network_other_rows by assumption. exact Hq.
Qed.

(** ** The sign constraint under training *)

Lemma signage_pos x : (0 < x)%R -> signage x = 1%R.
Proof. intros H. unfold signage. destruct (Rlt_dec 0 x); [reflexivity|lra]. Qed.

Lemma signage_neg x : (x < 0)%R -> signage x = (-1)%R.
Proof.
  intros H. unfold signage. destruct (Rlt_dec 0 x); [lra|].
  destruct (Req_dec_T x 0); [lra|reflexivity].
Qed.

Lemma signage_cases x :
  (0 < x /\ signage x = 1)%R \/ (x = 0 /\ signage x = 0)%R \/
  (x < 0 /\ signage x = -1)%R.
Proof.
  unfold signage. destruct (Rlt_dec 0 x); [left; split; [lra|reflexivity]|].
  destruct (Req_dec_T x 0); [right; left; split; [lra|reflexivity]|].
  right; right. split; [lra|reflexivity].
Qed.

(** Adding a non-negative multiple of the polarity product keeps the sign. *)
Lemma sign_kept w D p :
  w <> 0%R -> signage w = p -> (0 <= D)%R -> signage (w + D * p) = p.
Proof.
  intros Hw Hs HD.
  destruct (signage_cases w) as [[H E]|[[H E]|[H E]]]; rewrite E in Hs; subst p.
  - apply signage_pos. lra.
  - contradiction.
  - apply signage_neg. lra.
Qed.

Lemma base_delta_nonneg st n c k :
  (0 <= learning_rate st)%R -> (0 <= neuron_input st n k)%R ->
  (0 <= neuron_output st n c <= 1)%R -> (0 <= base_delta st n c k)%R.
Proof.
  intros Hl Hi Ho. unfold base_delta. rewrite Rabs_pos_eq by lra.
  repeat apply Rmult_le_pos; lra.
Qed.

Lemma cell_update_sign st n c k w :
  training_inv st ->
  cell_sign (weights_oscillating st) w c k ->
  cell_sign (weights_oscillating st) (cell_update st n c k w) c k.
Proof.
  intros (_ & Hi & Ho & He & Hl & _ & Hf) [Hz|Hs].
  - left. subst w. apply cell_update_zero.
  - unfold cell_update. destruct (Req_dec_T w 0) as [E|E]; [now left|].
    destruct (Z.eqb_spec (config_flags st 10) 1); [contradiction|].
    pose proof (base_delta_nonneg st n c k Hl (Hi n k) (Ho n c)) as Hd.
    right.
    destruct (Rlt_dec 0 (weights_oscillating st k)).
    + replace (base_delta st n c k * error_delta st n c 0 *
               weights_oscillating st k * weights_oscillating st c)%R
        with (base_delta st n c k * error_delta st n c 0 *
              (weights_oscillating st k * weights_oscillating st c))%R by ring.
      apply sign_kept; auto. apply Rmult_le_pos; auto.
    + replace (base_delta st n c k * error_delta st n c 1 *
               weights_oscillating st k * weights_oscillating st c)%R
        with (base_delta st n c k * error_delta st n c 1 *
              (weights_oscillating st k * weights_oscillating st c))%R by ring.
      apply sign_kept; auto. apply Rmult_le_pos; auto.
Qed.

Lemma calculate_weight_inv st :
  training_inv st -> training_inv (calculate_weight st).
Proof.
  intros Hinv.
  pose proof (calculate_weight_frame st) as Hf. unfold same_frame in Hf.
  destruct Hf as (_ & _ & _ & _ & _ & Hni & Hno & Hed & Hp & Hlr & _ & _ &
                  Hamp & _ & _ & Hcf & _).
  pose proof Hinv as (Hs & Hi & Ho & He & Hl & Ha & Hfl).
  unfold training_inv. rewrite Hni, Hno, Hed, Hlr, Hamp, Hcf.
  split; [|repeat split; auto; apply Ho].
  intros n t s. rewrite Hp.
  destruct (in_update_range_dec st n t s) as [Hr|Hr].
  - rewrite calculate_weight_in_range by assumption.
    apply (cell_update_sign st n t s); [exact Hinv | apply Hs].
  - rewrite calculate_weight_out_of_range by assumption. apply Hs.
Qed.

Lemma sign_ok_frame s st :
  weights s = weights st -> weights_oscillating s = weights_oscillating st ->
  sign_ok st -> sign_ok s.
Proof. unfold sign_ok. intros Hw Hp H n t k. rewrite Hw, Hp. apply H. Qed.

Lemma assign_error_nonneg n c ch v st :
  (0 <= v)%R -> errors_nonneg st -> errors_nonneg (assign_error n c ch v st).
Proof.
  intros Hv H n' c' ch'. simpl. unfold upd3.
  destruct (_ && _); [exact Hv | apply H].
Qed.

Lemma record_error_nonneg target n st :
  errors_nonneg st -> errors_nonneg (record_error target n st).
Proof.
  intros H. unfold record_error.
  destruct (Rlt_dec 0.5 _), (Rlt_dec 0 _);
    repeat apply assign_error_nonneg; try lra; exact H.
Qed.

Lemma broadcast_error_nonneg n exc inh st :
  (0 <= exc)%R -> (0 <= inh)%R -> (0 <= error_amplification st)%R ->
  errors_nonneg st -> errors_nonneg (broadcast_error n exc inh st).
Proof.
  intros He Hi Ha H. unfold broadcast_error.
  apply (for_loop_inv
           (fun s => error_amplification s = error_amplification st /\
                     errors_nonneg s)); [|split; auto].
  intros c s _ [Hamp Hs]. split; [exact Hamp|].
  repeat apply assign_error_nonneg; try exact Hs;
    simpl; rewrite Hamp; apply Rmult_le_pos; assumption.
Qed.

Lemma calculate_learning_nonneg target st :
  (0 <= error_amplification st)%R ->
  errors_nonneg st -> errors_nonneg (calculate_learning target st).
Proof.
  intros Ha H. unfold calculate_learning.
  apply (for_loop_inv
           (fun s => error_amplification s = error_amplification st /\
                     errors_nonneg s)); [|split; auto].
  intros n s _ [Hamp Hs].
  split.
  - destruct (learning_step_frame target n s) as (_ & _ & _ & E & _).
    congruence.
  - unfold learning_step.
    pose proof (record_error_nonneg target n s Hs) as H1.
    destruct (record_error_frame target n s) as (_ & _ & _ & E & _).
    apply broadcast_error_nonneg; try apply H1. congruence.
Qed.

Lemma calculate_learning_inv target st :
  training_inv st -> training_inv (calculate_learning target st).
Proof.
  intros (Hs & Hi & Ho & He & Hl & Ha & Hfl).
  pose proof (calculate_learning_frame target st) as Hf.
  unfold learning_frame in Hf.
  destruct Hf as (Hno & _ & _ & Hamp & _ & _ & _ & Hni & Hw & Hp & Hlr & _ &
                  _ & Hcf & _).
  unfold training_inv. rewrite Hno, Hni, Hlr, Hamp, Hcf.
  split; [now apply (sign_ok_frame _ st)|].
  repeat split; auto; try apply Ho.
  now apply calculate_learning_nonneg.
Qed.

Lemma activations_ok_input n c v st :
  (0 <= v)%R -> activations_ok st -> activations_ok (assign_input n c v st).
Proof.
  intros Hv [Hi Ho]. split; [|exact Ho].
  intros n' k'. simpl. unfold upd2. destruct (_ && _); [exact Hv | apply Hi].
Qed.

Lemma activations_ok_output n c v st :
  (0 <= v <= 1)%R -> activations_ok st ->
  activations_ok (assign_output n c v st).
Proof.
  intros Hv [Hi Ho]. split; [exact Hi|].
  intros n' k'. simpl. unfold upd2. destruct (_ && _); [exact Hv | apply Ho].
Qed.

Lemma timestep_body_activations n st :
  activations_ok st -> activations_ok (timestep_body n st).
Proof.
  intros H. unfold timestep_body.
  apply (for_loop_inv activations_ok).
  - intros c s _ Hs. apply activations_ok_input; [|exact Hs]. apply Hs.
  - apply (for_loop_inv activations_ok); [|exact H].
    intros c s _ Hs. apply activations_ok_output; [|exact Hs].
    destruct (sigmoid_range s (weighted_sum s n c)). lra.
Qed.

Lemma calculate_output_activations pattern st :
  (forall i, 0 <= pattern i)%R ->
  activations_ok st -> activations_ok (calculate_output pattern st).
Proof.
  intros Hp H. unfold calculate_output.
  apply (for_loop_inv activations_ok); [|exact H].
  intros n s _ Hs. unfold output_network.
  apply (for_loop_inv activations_ok).
  - intros t s' _ Hs'. now apply timestep_body_activations.
  - assert (H1 : activations_ok
                   (for_loop 2 (size_input s + 1)
                      (fun c s0 =>
                         assign_input n c (pattern (Z.quot c 2 - 1)) s0) s)).
    { apply (for_loop_inv activations_ok); [|exact Hs].
      intros c s' _ Hs'. now apply activations_ok_input. }
    destruct (_ =? _); [exact H1|].
    apply (for_loop_inv activations_ok); [|exact H1].
    intros c s' _ Hs'. apply activations_ok_input; [lra | exact Hs'].
Qed.

Lemma calculate_output_inv pattern st :
  (forall i, 0 <= pattern i)%R ->
  training_inv st -> training_inv (calculate_output pattern st).
Proof.
  intros Hpat (Hs & Hi & Ho & He & Hl & Ha & Hfl).
  pose proof (calculate_output_frame pattern st) as Hf.
  unfold activation_frame in Hf.
  destruct Hf as (_ & _ & _ & _ & _ & Hed & Hw & Hp & Hlr & _ & _ & Hamp &
                  _ & _ & Hcf & _).
  destruct (calculate_output_activations pattern st Hpat (conj Hi Ho))
    as [Hi' Ho'].
  unfold training_inv. rewrite Hed, Hlr, Hamp, Hcf.
  split; [now apply (sign_ok_frame _ st)|].
  repeat split; auto; apply Ho'.
Qed.

Lemma run_inv ops st :
  Forall nonneg_pattern ops -> training_inv st -> training_inv (run ops st).
Proof.
  unfold run. intros Hops. revert st.
  induction Hops as [|op ops Hop _ IH]; simpl; intros st Hst; [exact Hst|].
  apply IH. destruct op; simpl in *.
  - now apply calculate_output_inv.
  - now apply calculate_learning_inv.
  - now apply calculate_weight_inv.
Qed.

(** ** The sign constraint after init_network *)

Lemma oscillation_value i :
  0 <= i -> oscillation i = 1%R \/ oscillation i = (-1)%R.
Proof.
  intros Hi. unfold oscillation.
  rewrite Z.rem_mod_nonneg by lia.
  pose proof (Z.mod_pos_bound (i + 1) 2 ltac:(lia)) as Hb.
  assert (H : (i + 1) mod 2 = 0 \/ (i + 1) mod 2 = 1) by lia.
  destruct H as [E|E]; rewrite E; simpl; auto.
Qed.

Lemma polarity_values si tn old i :
  (forall j, polarity_value (old j)) -> polarity_value (polarity si tn old i).
Proof.
  intros Hold. unfold polarity.
  destruct (i =? si + 2); [now left|].
  destruct (Z.leb_spec 0 i); simpl; [|apply Hold].
  destruct (i <=? tn + 1); [|apply Hold].
  destruct (oscillation_value i) as [E|E]; auto; rewrite E;
    [now left | right; now left].
Qed.

Lemma polarity_ext si tn old old' i :
  (forall j, old j = old' j) -> polarity si tn old i = polarity si tn old' i.
Proof. intros H. unfold polarity. now rewrite H. Qed.

Lemma polarity_idem si tn old i :
  polarity si tn (polarity si tn old) i = polarity si tn old i.
Proof.
  unfold polarity.
  destruct (i =? si + 2); [reflexivity|].
  destruct ((0 <=? i) && (i <=? tn + 1)); reflexivity.
Qed.

Lemma polarity_value_mult p q :
  polarity_value p -> polarity_value q -> polarity_value (p * q).
Proof.
  unfold polarity_value.
  intros [-> | [-> | ->]] [-> | [-> | ->]];
    solve [left; lra | right; left; lra | right; right; lra].
Qed.

Lemma sign_of_product X p :
  (0 <= X)%R -> polarity_value p ->
  (X * p)%R = 0%R \/ signage (X * p) = p.
Proof.
  intros HX [-> | [-> | ->]].
  - destruct (Req_dec_T X 0) as [-> | Hn]; [left; lra|].
    right. apply signage_pos. lra.
  - destruct (Req_dec_T X 0) as [-> | Hn]; [left; lra|].
    right. apply signage_neg. lra.
  - left. lra.
Qed.

Lemma init_cell_sign n c k st :
  (0 <= init_range_weight st)%R -> (0 <= init_range_threshold st)%R ->
  (forall i, polarity_value (weights_oscillating st i)) ->
  cell_sign (weights_oscillating st) (weights (init_cell n c k st) n c k) c k.
Proof.
  intros Hw Ht Hp. unfold cell_sign. rewrite init_cell_value.
  apply sign_of_product.
  - now apply init_rules_nonneg.
  - now apply polarity_value_mult.
Qed.

Lemma init_weights_sign n st :
  (0 <= init_range_weight st)%R -> (0 <= init_range_threshold st)%R ->
  (forall i, polarity_value (weights_oscillating st i)) ->
  (forall n' c k, cell_sign (weights_oscillating st) (weights st n' c k) c k) ->
  forall n' c k,
    cell_sign (weights_oscillating st) (weights (init_weights n st) n' c k) c k.
Proof.
  intros Hw Ht Hp H0.
  set (I := fun s => rules_frame s st /\
              forall n' c k,
                cell_sign (weights_oscillating st) (weights s n' c k) c k).
  assert (Hcell : forall c k s, I s -> I (init_cell n c k s)).
  { intros c k s [Hf Hs]. split.
    - eapply rules_frame_trans; [apply init_cell_frame | exact Hf].
    - intros n' c' k'.
      destruct (Z.eq_dec n' n) as [-> | Hn];
        [destruct (Z.eq_dec c' c) as [-> | Hc];
         [destruct (Z.eq_dec k' k) as [-> | Hk]|]|];
        try (rewrite init_cell_other by congruence; apply Hs).
      destruct Hf as (Hi & Hpol & _). unfold init_frame in Hi. split_frames.
      rewrite <- Hpol. apply init_cell_sign; try congruence.
      intros i. rewrite Hpol. apply Hp. }
  assert (HI : I (init_weights n st)).
  { unfold init_weights. apply (for_loop_inv I).
    - intros c s _ Hs. apply (for_loop_inv I); [|exact Hs].
      intros k s' _ Hs'. now apply Hcell.
    - split; [apply rules_frame_refl | exact H0]. }
  apply HI.
Qed.

Lemma init_output_network_progress n s s0 :
  init_frame s s0 ->
  (0 <= init_range_weight s0)%R -> (0 <= init_range_threshold s0)%R ->
  let final := polarity (size_input s0) (total_neurons s0) (fun _ => 0%R) in
  init_progress final s -> init_progress final (init_output_network n s).
Proof.
  intros Hf Hw Ht final Hprog. right.
  pose proof Hf as Hf'. unfold init_frame in Hf'.
  destruct Hf' as (Hsi & _ & _ & _ & Htn & _ & _ & _ & _ & _ & _ & _ & _ &
                   _ & Hrw & Hrt & _).
  set (s1 := assign_neuron_types s).
  assert (Hp1 : forall i, weights_oscillating s1 i = final i).
  { intros i. subst s1 final. rewrite assign_neuron_types_polarity, Hsi, Htn.
    destruct Hprog as [[Hz _]|[Hfin _]].
    - now apply polarity_ext.
    - rewrite (polarity_ext _ _ _ _ i Hfin). apply polarity_idem. }
  assert (Hfinal : forall i, polarity_value (final i)).
  { intros i. apply polarity_values. intros j. right; now right. }
  assert (Hw1 : forall n' c k, cell_sign final (weights s1 n' c k) c k).
  { intros n' c k. subst s1.
    destruct (assign_neuron_types_weights s) as (E & _). rewrite E.
    destruct Hprog as [[_ Hz]|[_ Hs]]; [left; apply Hz | apply Hs]. }
  pose proof (assign_neuron_types_frame s) as Hf1. fold s1 in Hf1.
  unfold init_frame in Hf1.
  destruct Hf1 as (_ & _ & _ & _ & _ & _ & _ & _ & _ & _ & _ & _ & _ &
                   _ & Hrw1 & Hrt1 & _).
  assert (Hsign : forall n' c k,
            cell_sign (weights_oscillating s1)
              (weights (init_weights n s1) n' c k) c k).
  { apply init_weights_sign.
    - rewrite Hrw1, Hrw. exact Hw.
    - rewrite Hrt1, Hrt. exact Ht.
    - intros i. rewrite Hp1. apply Hfinal.
    - intros n' c k. unfold cell_sign. rewrite !Hp1. apply Hw1. }
  unfold init_output_network. fold s1.
  destruct (init_bias_weights n (init_weights n s1)) as [Ew Ep].
  destruct (init_weights_frame n s1) as (_ & Ep' & _).
  rewrite Ew, Ep, Ep'. split; [exact Hp1|].
  intros n' c k. specialize (Hsign n' c k). unfold cell_sign in *.
  now rewrite !Hp1 in Hsign.
Qed.

Lemma init_output_network_inputs n st :
  (0 <= bias st)%R ->
  (forall n' k, 0 <= neuron_input st n' k)%R ->
  forall n' k, (0 <= neuron_input (init_output_network n st) n' k)%R.
Proof.
  intros Hb H n' k. unfold init_output_network.
  set (s2 := init_weights n (assign_neuron_types st)).
  assert (Hin : neuron_input s2 = neuron_input st).
  { subst s2. destruct (init_weights_frame n (assign_neuron_types st))
      as (_ & _ & E).
    rewrite E. apply assign_neuron_types_weights. }
  assert (Hbias : bias s2 = bias st).
  { subst s2.
    assert (F : init_frame (init_weights n (assign_neuron_types st)) st).
    { eapply init_frame_trans;
        [apply init_weights_frame | apply assign_neuron_types_frame]. }
    apply F. }
  unfold init_bias, assign_input. simpl. rewrite Hbias, Hin. unfold upd2.
  destruct (_ && _); [exact Hb|].
  destruct (_ && _); [exact Hb | apply H].
Qed.

Lemma init_progress_sign_ok final s :
  init_progress final s -> sign_ok s.
Proof.
  intros [[_ Hz]|[Hp Hs]] n t k.
  - left. apply Hz.
  - rewrite !Hp. apply Hs.
Qed.

Lemma init_network_inv a b c d st :
  fresh st ->
  (0 <= init_range_weight st)%R -> (0 <= init_range_threshold st)%R ->
  (0 <= bias st)%R -> (0 <= learning_rate st)%R ->
  (0 <= error_amplification st)%R -> config_flags st 10 <> 1 ->
  training_inv (init_network a b c d st).
Proof.
  intros (Fw & Fi & Fo & Fe & Fp) Hw Ht Hb Hl Ha Hfl.
  unfold init_network.
  set (s0 := set_dims a b (c + d) d (a + 1 + (c + d)) st).
  set (final := polarity (size_input s0) (total_neurons s0) (fun _ => 0%R)).
  set (K := fun s => init_frame s s0 /\ init_progress final s /\
                     forall n k, (0 <= neuron_input s n k)%R).
  assert (HK : K (for_loop 0 (size_output s0 - 1) init_output_network s0)).
  { apply (for_loop_inv K).
    - intros n s _ (Hf & Hp & Hi). split; [|split].
      + eapply init_frame_trans; [apply init_output_network_frame | exact Hf].
      + apply (init_output_network_progress n s s0); assumption.
      + apply init_output_network_inputs; [|exact Hi].
        assert (E : bias s = bias s0) by apply Hf. rewrite E. exact Hb.
    - split; [apply init_frame_refl|]. split.
      + left. split; [exact Fp | exact Fw].
      + intros n k. simpl. rewrite Fi. lra. }
  destruct HK as (Hf & Hp & Hi).
  set (s1 := for_loop _ _ _ s0) in *.
  unfold init_frame in Hf.
  destruct Hf as (_ & _ & _ & _ & _ & Hno & Hed & Hlr & _ & _ & Hamp & _ &
                  _ & Hcf & _).
  unfold training_inv. split; [|split; [|split; [|split; [|split; [|split]]]]].
  - apply (sign_ok_frame _ s1); try reflexivity.
    now apply (init_progress_sign_ok final).
  - exact Hi.
  - intros n k. simpl. rewrite Hno. simpl. rewrite Fo. lra.
  - intros n k ch. simpl. rewrite Hed. simpl. rewrite Fe. lra.
  - simpl. rewrite Hlr. exact Hl.
  - simpl. rewrite Hamp. exact Ha.
  - simpl. rewrite Hcf. exact Hfl.
Qed.

(** ** Where the nonzero weights are *)

Lemma train_step_is_calculate_network pattern target st :
  run [Forward pattern; Diffuse target; Update] st =
  calculate_network pattern target st.
Proof. reflexivity. Qed.

Lemma init_weights_untouched n st n' t k :
  ~ (n' = n /\ size_input st + 2 <= t <= total_neurons st + 1 /\
     0 <= k <= total_neurons st + 1) ->
  weights (init_weights n st) n' t k = weights st n' t k.
Proof.
  intros Hout. unfold init_weights.
  apply (for_loop_inv
           (fun s => rules_frame s st /\ weights s n' t k = weights st n' t k));
    [|split; [apply rules_frame_refl | reflexivity]].
  intros c s Hc [Hf Hs].
  assert (Htn : total_neurons s = total_neurons st) by apply Hf.
  apply (for_loop_inv
           (fun s' => rules_frame s' st /\
                      weights s' n' t k = weights st n' t k));
    [|split; assumption].
  intros k' s' Hk' [Hf' Hs']. split.
  - eapply rules_frame_trans; [apply init_cell_frame | exact Hf'].
  - rewrite <- Hs'. apply init_cell_other. intros E. inversion E; subst.
    apply Hout. rewrite Htn in Hk'. auto.
Qed.

Lemma init_network_untouched a b c d st n t k :
  ~ (0 <= n < b /\ a + 2 <= t <= a + 1 + (c + d) + 1 /\
     0 <= k <= a + 1 + (c + d) + 1) ->
  weights (init_network a b c d st) n t k = weights st n t k.
Proof.
  intros Hout. rewrite init_network_weights.
  set (s0 := set_dims _ _ _ _ _ st).
  apply (for_loop_inv
           (fun s => init_frame s s0 /\ weights s n t k = weights st n t k));
    [|split; [apply init_frame_refl | reflexivity]].
  intros i s Hi [Hf Hs]. split.
  - eapply init_frame_trans; [apply init_output_network_frame | exact Hf].
  - rewrite <- Hs. unfold init_output_network.
    destruct (init_bias_weights i (init_weights i (assign_neuron_types s)))
      as [E _].
    rewrite E. clear E.
    destruct (assign_neuron_types_weights s) as (E & _). rewrite <- E.
    apply init_weights_untouched.
    pose proof (assign_neuron_types_frame s) as Hf1.
    assert (Hsi : size_input (assign_neuron_types s) = a).
    { transitivity (size_input s); [apply Hf1 | apply Hf]. }
    assert (Htn : total_neurons (assign_neuron_types s) = a + 1 + (c + d)).
    { transitivity (total_neurons s); [apply Hf1 | apply Hf]. }
    rewrite Hsi, Htn. intros (-> & Ht & Hk). apply Hout. repeat split; lia.
Qed.

Lemma init_network_nonzero_in_range a b c d st :
  fresh st -> nonzero_in_range (init_network a b c d st).
Proof.
  intros (Fw & _) n t k Hnz.
  destruct (init_network_dims a b c d st) as (Hsi & Hso & _ & _ & Htn).
  unfold in_update_range. rewrite Hsi, Hso, Htn.
  destruct (Z_le_dec 0 n), (Z_lt_dec n b), (Z_le_dec (a + 2) t),
    (Z_le_dec t (a + 1 + (c + d) + 1)), (Z_le_dec 0 k),
    (Z_le_dec k (a + 1 + (c + d) + 1)); try lia;
    exfalso; apply Hnz; rewrite init_network_untouched by lia; apply Fw.
Qed.

Lemma in_update_range_dims s st n c k :
  size_input s = size_input st -> size_output s = size_output st ->
  total_neurons s = total_neurons st ->
  in_update_range st n c k -> in_update_range s n c k.
Proof. unfold in_update_range. intros -> -> ->. auto. Qed.

Lemma run_nonzero_in_range ops st :
  nonzero_in_range st -> nonzero_in_range (run ops st).
Proof.
  unfold run. revert st.
  induction ops as [|op ops IH]; simpl; intros st Hst; [exact Hst|].
  apply IH. intros n c k Hnz. destruct op; simpl in *.
  - pose proof (calculate_output_frame pattern st) as Hf.
    unfold activation_frame in Hf.
    destruct Hf as (H1 & H2 & _ & _ & H5 & _ & Hw & _).
    rewrite Hw in Hnz. apply (in_update_range_dims _ st); auto.
  - pose proof (calculate_learning_frame target st) as Hf.
    unfold learning_frame in Hf.
    destruct Hf as (_ & H1 & H5 & _ & H2 & _ & _ & _ & Hw & _).
    rewrite Hw in Hnz. apply (in_update_range_dims _ st); auto.
  - pose proof (calculate_weight_frame st) as Hf. unfold same_frame in Hf.
    destruct Hf as (H1 & H2 & _ & _ & H5 & _).
    apply (in_update_range_dims _ st); auto.
    destruct (in_update_range_dec st n c k) as [Hr|Hr]; [exact Hr|].
    rewrite calculate_weight_out_of_range in Hnz by assumption. auto.
Qed.

(** In a trained state the range hypothesis of the update rule comes for
    free: only pairs the loops visit carry a nonzero weight. *)
Lemma trained_nonzero_in_range st : trained st -> nonzero_in_range st.
Proof.
  intros (a & b & c & d & st0 & ops & Hfresh & ->).
  apply run_nonzero_in_range. now apply init_network_nonzero_in_range.
Qed.

(** ** init_network: what it builds, whatever the configuration *)

Lemma init_output_network_polarity n st i :
  weights_oscillating (init_output_network n st) i =
  polarity (size_input st) (total_neurons st) (weights_oscillating st) i.
Proof.
  unfold init_output_network.
  destruct (init_bias_weights n (init_weights n (assign_neuron_types st)))
    as [_ E].
  destruct (init_weights_frame n (assign_neuron_types st)) as (_ & E' & _).
  rewrite E, E'. apply assign_neuron_types_polarity.
Qed.

Lemma init_network_polarity a b c d st i :
  0 < b ->
  weights_oscillating (init_network a b c d st) i =
  polarity a (a + 1 + (c + d)) (weights_oscillating st) i.
Proof.
  intros Hb. unfold init_network, set_error_total, set_error_count.
  cbn [weights_oscillating].
  set (s0 := set_dims a b (c + d) d (a + 1 + (c + d)) st).
  set (final := polarity a (a + 1 + (c + d)) (weights_oscillating st)).
  change (size_output s0) with b.
  apply (for_loop_establish
           (fun s => init_frame s s0 /\
                     ((forall j, weights_oscillating s j =
                                 weights_oscillating st j) \/
                      (forall j, weights_oscillating s j = final j)))
           (fun (_ : Z) s => forall j, weights_oscillating s j = final j))
    with (a := 0); [| | | |lia].
  - intros s k _ [Hf Hp]. split.
    + eapply init_frame_trans; [apply init_output_network_frame | exact Hf].
    + right. intros j. rewrite init_output_network_polarity.
      assert (Hsi : size_input s = a) by apply Hf.
      assert (Htn : total_neurons s = a + 1 + (c + d)) by apply Hf.
      rewrite Hsi, Htn. destruct Hp as [Hp|Hp].
      * now apply polarity_ext.
      * rewrite (polarity_ext _ _ _ _ j Hp). apply polarity_idem.
  - intros s k _ [Hf Hp] j. rewrite init_output_network_polarity.
    assert (Hsi : size_input s = a) by apply Hf.
    assert (Htn : total_neurons s = a + 1 + (c + d)) by apply Hf.
    rewrite Hsi, Htn. destruct Hp as [Hp|Hp].
    + now apply polarity_ext.
    + rewrite (polarity_ext _ _ _ _ j Hp). apply polarity_idem.
  - intros s k k' _ [Hf _] _ Hq j. rewrite init_output_network_polarity.
    assert (Hsi : size_input s = a) by apply Hf.
    assert (Htn : total_neurons s = a + 1 + (c + d)) by apply Hf.
    rewrite Hsi, Htn, (polarity_ext _ _ _ _ j Hq). apply polarity_idem.
  - split; [apply init_frame_refl | left; reflexivity].
Qed.

Lemma init_output_network_inputs_at n st n' k :
  neuron_input (init_output_network n st) n' k =
  if (n' =? n) && ((k =? 0) || (k =? 1)) then bias st
  else neuron_input st n' k.
Proof.
  unfold init_output_network.
  set (s2 := init_weights n (assign_neuron_types st)).
  assert (Hin : neuron_input s2 = neuron_input st).
  { subst s2. destruct (init_weights_frame n (assign_neuron_types st))
      as (_ & _ & E).
    rewrite E. apply assign_neuron_types_weights. }
  assert (Hbias : bias s2 = bias st).
  { subst s2.
    assert (F : init_frame (init_weights n (assign_neuron_types st)) st).
    { eapply init_frame_trans;
        [apply init_weights_frame | apply assign_neuron_types_frame]. }
    apply F. }
  unfold init_bias, assign_input. simpl. rewrite Hbias, Hin. unfold upd2.
  destruct (n' =? n), (k =? 0), (k =? 1); reflexivity.
Qed.

Lemma init_network_inputs a b c d st n k :
  neuron_input (init_network a b c d st) n k =
  if (0 <=? n) && (n <? b) && ((k =? 0) || (k =? 1)) then bias st
  else neuron_input st n k.
Proof.
  unfold init_network, set_error_total, set_error_count.
  cbn [neuron_input].
  set (s0 := set_dims a b (c + d) d (a + 1 + (c + d)) st).
  change (size_output s0) with b.
  destruct ((0 <=? n) && (n <? b) && ((k =? 0) || (k =? 1))) eqn:E.
  - apply andb_prop in E as [E Ek]. apply andb_prop in E as [E0 E1].
    apply Z.leb_le in E0. apply Z.ltb_lt in E1.
    apply (for_loop_establish (fun s => init_frame s s0)
             (fun n s => neuron_input s n k = bias st));
      [| | |apply init_frame_refl|lia].
    + intros s i _ Hs.
      eapply init_frame_trans; [apply init_output_network_frame | exact Hs].
    + intros s i _ Hs. rewrite init_output_network_inputs_at.
      rewrite Z.eqb_refl, Ek. simpl.
      assert (Eb : bias s = bias s0) by apply Hs. rewrite Eb. reflexivity.
    + intros s i j _ _ Hij Hq. rewrite init_output_network_inputs_at.
      destruct (Z.eqb_spec i j); [contradiction|]. simpl. exact Hq.
  - apply (for_loop_inv (fun s => neuron_input s n k = neuron_input st n k));
      [|reflexivity].
    intros i s Hi Hs. rewrite init_output_network_inputs_at.
    destruct (Z.eqb_spec n i) as [-> | Hne]; simpl; [|exact Hs].
    destruct (Z.leb_spec 0 i); [|lia]. destruct (Z.ltb_spec i b); [|lia].
    simpl in E. rewrite E. exact Hs.
Qed.













(** * Properties of the engine *)

(** ** C1 *)

(** C1 (as the code has it): after [init_network] with the loop-cutting
    flag set, for every sub-network and every pair of distinct hidden
    neurons other than the output neuron, the weight into a target that is
    not in the second hidden layer is 0; so two such neurons that are both
    outside the second layer are disconnected in both directions.  With
    [size_hidden2 <= 0] that is every pair. *)
Theorem loop_cutting_outside_second_layer
  (init_input init_output init_hidden init_hidden2 : Z) (st : ed_state) :
  let st' := init_network init_input init_output init_hidden init_hidden2 st in
  config_flags st' 6 = 1 ->
  0 <= size_input st' ->
  forall n t s,
    0 <= n < size_output st' ->
    size_input st' + 3 <= t <= total_neurons st' + 1 ->
    size_input st' + 3 <= s <= total_neurons st' + 1 ->
    t <> s ->
    t <= total_neurons st' + 1 - size_hidden2 st' ->
    weights st' n t s = 0%R /\
    (s <= total_neurons st' + 1 - size_hidden2 st' ->
     weights st' n s t = 0%R).
Proof.
  intros st' Hflag Hpos n t s Hn Ht Hs Hts Hlayer.
  destruct (init_network_dims init_input init_output init_hidden
              init_hidden2 st) as (Hsi & Hso & _ & Hh2 & Htn).
  fold st' in Hsi, Hso, Hh2, Htn. rewrite Hsi, Htn, Hh2 in *.
  rewrite Hso in Hn.
  assert (Hflag0 : config_flags st 6 = 1).
  { subst st'. unfold init_network in Hflag. simpl in Hflag.
    set (s0 := set_dims _ _ _ _ _ st) in Hflag.
    assert (H : init_frame (for_loop 0 (init_output - 1)
                              init_output_network s0) s0).
    { apply for_loop_init_frame. intros. apply init_output_network_frame. }
    assert (E : config_flags (for_loop 0 (init_output - 1)
                                init_output_network s0) = config_flags s0)
      by apply H.
    rewrite E in Hflag. exact Hflag. }
  assert (Hcell : forall t s,
            init_input + 3 <= t <=
              init_input + 1 + (init_hidden + init_hidden2) + 1 ->
            init_input + 3 <= s <=
              init_input + 1 + (init_hidden + init_hidden2) + 1 ->
            t <> s ->
            t <= init_input + 1 + (init_hidden + init_hidden2) + 1
                 - init_hidden2 ->
            weights st' n t s = 0%R).
  { intros t0 s0 Ht0 Hs0 Hne Hl0. subst st'.
    apply (init_network_establish init_input init_output init_hidden
             init_hidden2 st
             (fun t k w =>
                init_input + 3 <= t <=
                  init_input + 1 + (init_hidden + init_hidden2) + 1
                  - init_hidden2 ->
                init_input + 3 <= k -> t <> k -> w = 0%R));
      try lia.
    intros n' s' t' k' Hf Ht' Hk' Hne'. apply init_cell_cut.
    unfold init_frame in Hf. simpl in Hf. split_frames.
    unfold loop_cut_pair. repeat split; try congruence; try lia. }
  split.
  - apply Hcell; assumption.
  - intros Hs'. apply Hcell; lia.
Qed.

Lemma loop_cutting_outside_second_layer_witness :
  let st' := init_network 2 1 3 0 (default_params (fun _ => 5000%nat)) in
  weights st' 0 5 6 = 0%R /\
  (6 <= total_neurons st' + 1 - size_hidden2 st' -> weights st' 0 6 5 = 0%R).
Proof.
  intros st'.
  destruct (init_network_dims 2 1 3 0 (default_params (fun _ => 5000%nat)))
    as (Hsi & Hso & _ & Hh2 & Htn).
  fold st' in Hsi, Hso, Hh2, Htn.
  apply (loop_cutting_outside_second_layer 2 1 3 0
           (default_params (fun _ => 5000%nat)));
    fold st'; rewrite ?Hsi, ?Hso, ?Hh2, ?Htn; try lia.
  subst st'. lazy -[IZR Rmult Rdiv Rplus Rminus Ropp Rinv]. reflexivity.
Defined.

(** C1 fails on the code when a second hidden layer is configured: the
    rule "Second Hidden Layer Internal Connections" runs after loop cutting
    and gives the pair (6, 7) of second-layer neurons a fresh random
    weight. *)
Lemma second_layer_reconnects :
  let st' := init_network 2 1 1 2 (default_params (fun _ => 5000%nat)) in
  config_flags st' 6 = 1 /\
  0 < size_hidden2 st' /\
  (size_input st' + 3 <= 6 <= total_neurons st' + 1) /\
  (size_input st' + 3 <= 7 <= total_neurons st' + 1) /\
  weights st' 0 6 7 = (- 0.5)%R /\
  weights st' 0 6 7 <> 0%R.
Proof.
  intros st'.
  destruct (init_network_dims 2 1 1 2 (default_params (fun _ => 5000%nat)))
    as (Hsi & Hso & _ & Hh2 & Htn).
  fold st' in Hsi, Hso, Hh2, Htn. rewrite Hsi, Hh2, Htn.
  assert (Hw : weights st' 0 6 7 = (- 0.5)%R).
  { subst st'. lazy -[IZR Rmult Rdiv Rplus Rminus Ropp Rinv]. lra. }
  split; [|split; [lia|split; [lia|split; [lia|split; [exact Hw|]]]]].
  - subst st'. lazy -[IZR Rmult Rdiv Rplus Rminus Ropp Rinv]. reflexivity.
  - rewrite Hw. lra.
Qed.

(** ** C2 *)

(** C2: the result of [calculate_weight] does not depend on the order in
    which the (target, source) pairs are visited.  Running the loop body
    over any permutation of the pairs gives the same weight matrix and the
    same remaining state, because each visited cell ends up holding
    [cell_update] of the snapshot taken before the pass and of its own
    weight. *)
Theorem weight_update_order_independent (st : ed_state)
  (l : list (Z * Z * Z)) :
  Permutation (weight_pairs st) l ->
  same_frame (fold_left update_pair l st) (calculate_weight st) /\
  (forall n c k,
     weights (fold_left update_pair l st) n c k =
     weights (calculate_weight st) n c k) /\
  (forall n c k, in_update_range st n c k ->
     weights (fold_left update_pair l st) n c k =
     cell_update st n c k (weights st n c k)).
Proof.
  intros Hperm.
  assert (Hnd : NoDup l)
    by (eapply Permutation_NoDup; [exact Hperm | apply NoDup_weight_pairs]).
  assert (Hin : forall n c k, in_update_range st n c k ->
            weights (fold_left update_pair l st) n c k =
            cell_update st n c k (weights st n c k)).
  { intros n c k Hr. apply update_pairs_in; [exact Hnd|].
    eapply Permutation_in; [exact Hperm | now apply in_weight_pairs]. }
  split; [|split; [|exact Hin]].
  - eapply same_frame_trans; [apply update_pairs_frame|].
    apply same_frame_sym, calculate_weight_frame.
  - intros n c k. destruct (in_update_range_dec st n c k) as [Hr|Hr].
    + now rewrite Hin, calculate_weight_in_range.
    + rewrite calculate_weight_out_of_range by assumption.
      apply update_pairs_notin. intros H. apply Hr, in_weight_pairs.
      eapply Permutation_in; [apply Permutation_sym; exact Hperm | exact H].
Qed.

Lemma weight_update_order_independent_witness :
  Permutation (weight_pairs sample_state) (rev (weight_pairs sample_state)) /\
  weights (fold_left update_pair (rev (weight_pairs sample_state))
             sample_state) 0 4 2 =
  weights (calculate_weight sample_state) 0 4 2.
Proof.
  split; [apply Permutation_rev|].
  apply (weight_update_order_independent sample_state
           (rev (weight_pairs sample_state))).
  apply Permutation_rev.
Defined.

(** ** C3 *)

(** C3 (as the code has it): in selective mode, with non-negative
    initialisation ranges, learning rate, bias and error amplification and
    non-negative input patterns, every weight of every state reached from
    [init_network] on a fresh program by forward, diffusion and update
    steps is 0 or has the sign of [polarity[source] * polarity[target]]. *)
Theorem sign_constraint_selective
  (init_input init_output init_hidden init_hidden2 : Z) (st : ed_state)
  (ops : list engine_op) :
  fresh st ->
  (0 <= init_range_weight st)%R -> (0 <= init_range_threshold st)%R ->
  (0 <= bias st)%R -> (0 <= learning_rate st)%R ->
  (0 <= error_amplification st)%R ->
  config_flags st 10 <> 1 ->
  Forall nonneg_pattern ops ->
  sign_ok
    (run ops (init_network init_input init_output init_hidden init_hidden2 st)).
Proof.
  intros Hfresh Hw Ht Hb Hl Ha Hfl Hops.
  apply (run_inv ops); [exact Hops|].
  now apply init_network_inv.
Qed.

Lemma sign_constraint_selective_witness :
  let st := default_params (fun _ => 5000%nat) in
  let s :=
    run [Forward (fun _ => 1%R); Diffuse (fun _ => 1%R); Update]
      (init_network 4 1 8 0 st) in
  weights s 0 6 2 = 0%R \/
  signage (weights s 0 6 2) =
    (weights_oscillating s 2 * weights_oscillating s 6)%R.
Proof.
  intros st s.
  apply (sign_constraint_selective 4 1 8 0 st
           [Forward (fun _ => 1%R); Diffuse (fun _ => 1%R); Update]).
  - repeat split.
  - simpl. lra.
  - simpl. lra.
  - simpl. lra.
  - simpl. lra.
  - simpl. lra.
  - simpl. discriminate.
  - apply Forall_cons; [simpl; intros i; lra|].
    apply Forall_cons; [exact I|]. apply Forall_cons; [exact I|].
    apply Forall_nil.
Defined.

(** C3 fails on the code in bidirectional mode (config_flags[10] = 1): one
    training step on the all-zero pattern with target 0 drives the output
    neuron's self-connection, initialised to 0.0001 between two excitatory
    ends, to 0.0001 - 0.05 < 0. *)
Lemma bidirectional_update_flips_sign :
  let st := bidirectional_params (fun _ => 1%nat) in
  let s :=
    run [Forward (fun _ => 0%R); Diffuse (fun _ => 0%R); Update]
      (init_network 2 1 1 0 st) in
  fresh st /\
  (0 <= init_range_weight st)%R /\ (0 <= init_range_threshold st)%R /\
  weights_oscillating s 4 = 1%R /\
  weights s 0 4 4 = (1 / 10000 - 0.05)%R /\
  ~ (weights s 0 4 4 = 0%R \/
     signage (weights s 0 4 4) =
       (weights_oscillating s 4 * weights_oscillating s 4)%R) /\
  ~ sign_ok s.
Proof.
  intros st s.
  set (st1 := init_network 2 1 1 0 st) in *.
  set (s2 := calculate_output (fun _ => 0%R) st1).
  set (s3 := calculate_learning (fun _ => 0%R) s2).
  assert (Hs : s = calculate_weight s3) by reflexivity.
  assert (Ho2 : neuron_output s2 0 4 = (1 / 2)%R).
  { subst s2 st1 st. lazy -[IZR Rmult Rdiv Rplus Rminus Ropp Rinv exp].
    match goal with |- context [exp ?x] => replace x with 0%R by lra end.
    rewrite exp_0. lra. }
  assert (Hi2 : neuron_input s2 0 4 = (1 / 2)%R).
  { subst s2 st1 st. lazy -[IZR Rmult Rdiv Rplus Rminus Ropp Rinv exp].
    match goal with |- context [exp ?x] => replace x with 0%R by lra end.
    rewrite exp_0. lra. }
  assert (Hw2 : weights s2 0 4 4 = (1 / 10000)%R).
  { subst s2 st1 st. lazy -[IZR Rmult Rdiv Rplus Rminus Ropp Rinv exp]. lra. }
  assert (Hp2 : weights_oscillating s2 4 = 1%R).
  { subst s2 st1 st. lazy -[IZR Rmult Rdiv Rplus Rminus Ropp Rinv exp]. lra. }
  assert (Hf2 : config_flags s2 10 = 1).
  { subst s2 st1 st. lazy -[IZR Rmult Rdiv Rplus Rminus Ropp Rinv exp].
    reflexivity. }
  assert (Hl2 : learning_rate s2 = 0.8%R).
  { subst s2 st1 st. lazy -[IZR Rmult Rdiv Rplus Rminus Ropp Rinv exp]. lra. }
  assert (Hd2 : size_input s2 = 2 /\ size_output s2 = 1 /\
                total_neurons s2 = 4).
  { destruct (calculate_output_frame (fun _ => 0%R) st1)
      as (E1 & E2 & _ & _ & E5 & _).
    destruct (init_network_dims 2 1 1 0 st) as (D1 & D2 & _ & _ & D5).
    fold st1 in D1, D2, D5. unfold s2. rewrite E1, E2, E5, D1, D2, D5. auto. }
  destruct Hd2 as (Hsi2 & Hso2 & Htn2).
  pose proof (calculate_learning_frame (fun _ => 0%R) s2) as Hf3.
  fold s3 in Hf3. unfold learning_frame in Hf3.
  destruct Hf3 as (Hno & Hsi & Htn & _ & Hso & _ & _ & Hni & Hw & Hp & Hlr &
                   _ & _ & Hcf & _).
  assert (Hrow : diffused_row (fun _ => 0%R) s2 s3 0).
  { apply calculate_learning_row. rewrite Hso2. lia. }
  destruct Hrow as (He0 & He1 & _). rewrite Hsi2 in He0, He1.
  change (2 + 2) with 4 in He0, He1. cbv beta in He0, He1.
  rewrite Ho2 in He0, He1.
  assert (Hexc : excitatory_channel (0 - 1 / 2) = 0%R).
  { unfold excitatory_channel. destruct (Rlt_dec 0 (0 - 1 / 2)); lra. }
  assert (Hinh : inhibitory_channel (0 - 1 / 2) = (1 / 2)%R).
  { unfold inhibitory_channel. destruct (Rlt_dec 0 (0 - 1 / 2)); lra. }
  rewrite Hexc in He0. rewrite Hinh in He1.
  assert (Hpol : weights_oscillating s 4 = 1%R).
  { rewrite Hs.
    destruct (calculate_weight_frame s3) as (_&_&_&_&_&_&_&_&E&_).
    now rewrite E, Hp. }
  assert (Hval : weights s 0 4 4 = (1 / 10000 - 0.05)%R).
  { rewrite Hs, calculate_weight_in_range
      by (unfold in_update_range; rewrite Hso, Hsi, Htn, Hso2, Hsi2, Htn2; lia).
    unfold cell_update, base_delta.
    rewrite Hw, Hw2, Hcf, Hf2, Hlr, Hl2, Hni, Hi2, Hno, Ho2, Hp, Hp2, He0, He1.
    destruct (Req_dec_T (1 / 10000) 0) as [E|_]; [lra|].
    simpl. rewrite Rabs_pos_eq by lra. lra. }
  assert (Hbad : ~ (weights s 0 4 4 = 0%R \/
                    signage (weights s 0 4 4) =
                      (weights_oscillating s 4 * weights_oscillating s 4)%R)).
  { rewrite Hval, Hpol. intros [E|E]; [lra|].
    rewrite signage_neg in E by lra. lra. }
  split; [repeat split|]. split; [simpl; lra|]. split; [simpl; lra|].
  split; [exact Hpol|]. split; [exact Hval|]. split; [exact Hbad|].
  intros Hok. apply Hbad. apply Hok.
Qed.

(** ** C4 *)

(** C4: a weight that is exactly 0 before [calculate_weight] is 0 after it,
    and, since the forward pass and the diffusion never write the weight
    matrix, it is still 0 after any sequence of training operations. *)
Theorem zero_weight_stays_zero (st : ed_state) (n c k : Z) :
  weights st n c k = 0%R ->
  weights (calculate_weight st) n c k = 0%R /\
  (forall ops, weights (run ops st) n c k = 0%R).
Proof.
  intros H. split; [now apply calculate_weight_keeps_zero|].
  intros ops. revert st H. unfold run.
  induction ops as [|op ops IH]; simpl; intros st H; [exact H|].
  apply IH. destruct op; simpl.
  - now rewrite calculate_output_weights.
  - now rewrite calculate_learning_weights.
  - now apply calculate_weight_keeps_zero.
Qed.

Lemma zero_weight_stays_zero_witness :
  let st := set_weights (fun _ _ _ => 0%R) sample_state in
  weights (calculate_weight st) 0 4 2 = 0%R /\
  (forall ops, weights (run ops st) 0 4 2 = 0%R).
Proof. intros st. apply zero_weight_stays_zero. reflexivity. Defined.

(** ** C5 *)

(** C5: in selective mode (flag 10 is not 1) one update step adds to a
    nonzero weight exactly [delta * excitatoryError[target] *
    polarity[source] * polarity[target]] when the source polarity is
    positive and the same product with the inhibitory error otherwise,
    [delta] being [learningRate * neuron_input[source] *
    |neuron_output[target]| * (1 - |neuron_output[target]|)].  This holds
    for every nonzero weight of a trained state, and in any state for every
    pair the update loops visit. *)
Theorem selective_update_rule (st : ed_state) (n c k : Z) :
  trained st \/ in_update_range st n c k ->
  config_flags st 10 <> 1 ->
  weights st n c k <> 0%R ->
  let delta :=
    (learning_rate st * neuron_input st n k *
     Rabs (neuron_output st n c) * (1 - Rabs (neuron_output st n c)))%R in
  ((0 < weights_oscillating st k)%R ->
   weights (calculate_weight st) n c k =
   (weights st n c k +
    delta * error_delta st n c 0 *
    weights_oscillating st k * weights_oscillating st c)%R) /\
  (~ (0 < weights_oscillating st k)%R ->
   weights (calculate_weight st) n c k =
   (weights st n c k +
    delta * error_delta st n c 1 *
    weights_oscillating st k * weights_oscillating st c)%R).
Proof.
  intros Hst Hflag Hw delta.
  assert (Hr : in_update_range st n c k).
  { destruct Hst as [Ht|Hr]; [|exact Hr].
    now apply (trained_nonzero_in_range st Ht). }
  rewrite calculate_weight_in_range by assumption.
  unfold cell_update, base_delta.
  destruct (Req_dec_T _ _) as [E|_]; [contradiction|].
  destruct (Z.eqb_spec (config_flags st 10) 1) as [E|_]; [contradiction|].
  destruct (Rlt_dec _ _) as [Hp|Hp]; split; intros Hp';
    solve [reflexivity | contradiction].
Qed.

Lemma selective_update_rule_witness :
  weights (calculate_weight sample_state) 0 4 2 =
  (1 + 0.8 * 1 * Rabs 0.5 * (1 - Rabs 0.5) * 0.25 * 1 * 1)%R.
Proof.
  assert (Hr : trained sample_state \/ in_update_range sample_state 0 4 2)
    by (right; unfold in_update_range; simpl; lia).
  assert (Hf : config_flags sample_state 10 <> 1) by (simpl; discriminate).
  assert (Hw : weights sample_state 0 4 2 <> 0%R) by (simpl; lra).
  destruct (selective_update_rule sample_state 0 4 2 Hr Hf Hw) as [H _].
  rewrite H; [reflexivity|]. simpl. unfold oscillation. simpl. lra.
Defined.

(** ** C6 *)

(** C6: after [calculate_learning], for each sub-network the two channels
    stored at the output neuron's slot have product 0, their difference is
    [target - output], and both are non-negative. *)
Theorem error_split_complete (target : Z -> R) (st : ed_state) (n : Z) :
  0 <= n < size_output st ->
  let st' := calculate_learning target st in
  let excitatory := error_delta st' n (size_input st' + 2) 0 in
  let inhibitory := error_delta st' n (size_input st' + 2) 1 in
  (excitatory * inhibitory = 0)%R /\
  (excitatory - inhibitory =
   target n - neuron_output st' n (size_input st' + 2)%Z)%R /\
  (0 <= excitatory)%R /\ (0 <= inhibitory)%R.
Proof.
  intros Hn st' excitatory inhibitory.
  destruct (calculate_learning_frame target st) as (Ho & Hsi & _).
  destruct (calculate_learning_row target st n Hn) as (H0 & H1 & _).
  subst excitatory inhibitory st'. rewrite Hsi, Ho, H0, H1.
  apply channel_split.
Qed.

Lemma error_split_complete_witness :
  let st' := calculate_learning (fun _ => 1%R) sample_state in
  let excitatory := error_delta st' 0 (size_input st' + 2) 0 in
  let inhibitory := error_delta st' 0 (size_input st' + 2) 1 in
  (excitatory * inhibitory = 0)%R /\
  (excitatory - inhibitory =
   1 - neuron_output st' 0 (size_input st' + 2))%R /\
  (0 <= excitatory)%R /\ (0 <= inhibitory)%R.
Proof.
  apply (error_split_complete (fun _ => 1%R) sample_state 0).
  simpl. lia.
Defined.

(** ** C7 *)

(** C7: after [calculate_learning], for each sub-network the output
    neuron's slot holds the unamplified channel pair of the prediction
    error, and every hidden slot [size_input+3 .. total_neurons+1] holds
    that pair multiplied componentwise by [error_amplification]. *)
Theorem broadcast_uniform (target : Z -> R) (st : ed_state) (n : Z) :
  0 <= n < size_output st ->
  let st' := calculate_learning target st in
  let out := size_input st + 2 in
  let e := (target n - neuron_output st n out)%R in
  error_delta st' n out 0 = excitatory_channel e /\
  error_delta st' n out 1 = inhibitory_channel e /\
  forall c, size_input st + 3 <= c <= total_neurons st + 1 ->
    error_delta st' n c 0 =
      (error_delta st' n out 0 * error_amplification st)%R /\
    error_delta st' n c 1 =
      (error_delta st' n out 1 * error_amplification st)%R.
Proof.
  intros Hn st' out e.
  destruct (calculate_learning_row target st n Hn) as (H0 & H1 & Hh).
  subst st' out e. rewrite H0, H1. repeat split; auto; now apply Hh.
Qed.

Lemma broadcast_uniform_witness :
  let st' := calculate_learning (fun _ => 1%R) sample_state in
  error_delta st' 0 5 0 = (error_delta st' 0 4 0 * 1)%R /\
  error_delta st' 0 5 1 = (error_delta st' 0 4 1 * 1)%R.
Proof.
  assert (Hn : 0 <= 0 < size_output sample_state) by (simpl; lia).
  destruct (broadcast_uniform (fun _ => 1%R) sample_state 0 Hn)
    as (_ & _ & Hh).
  apply (Hh 5). simpl. lia.
Defined.

(** ** C8 *)



(** ** C9 *)

(** C9 (as the code has it): for a steepness above 0 the sigmoid of every
    weighted sum lies in the closed interval from 0 to 1; hence every
    value the forward pass stores in [neuron_output] does, and for every
    pair the weight update visits after a forward pass of at least one
    timestep the factor [|output| * (1 - |output|)] of [calculate_weight]
    is the textbook [output * (1 - output)].  The bounds are not strict on
    the code: see [sigmoid_saturates_in_double]. *)
Theorem sigmoid_unit_interval (st : ed_state) (pattern target : Z -> R) :
  (0 < sigmoid_steepness st)%R ->
  (forall x, (0 <= sigmoid st x <= 1)%R) /\
  stores_closed st (calculate_output pattern st) /\
  (1 <= timesteps st ->
   forall n c k, in_update_range st n c k ->
     let st' := calculate_learning target (calculate_output pattern st) in
     let o := neuron_output st' n c in
     (0 <= o <= 1)%R /\
     (Rabs o * (1 - Rabs o) = o * (1 - o))%R /\
     base_delta st' n c k =
     (learning_rate st' * neuron_input st' n k * o * (1 - o))%R).
Proof.
  intros _. split; [|split].
  - intros x. destruct (sigmoid_range st x). split; lra.
  - intros n c.
    destruct (calculate_output_stores pattern st n c) as [E|[H0 H1]];
      [now left | right; split; lra].
  - intros Ht n c k (Hn & Hc & _) st' o.
    assert (Ho : unit_open o).
    { subst o st'.
      destruct (calculate_learning_frame target
                  (calculate_output pattern st)) as (E & _).
      rewrite E. now apply calculate_output_fills. }
    split; [destruct Ho; split; lra|]. split.
    + destruct Ho. rewrite Rabs_pos_eq by lra. reflexivity.
    + now apply base_delta_textbook.
Qed.

Lemma sigmoid_unit_interval_witness :
  (0 < sigmoid_steepness sample_state)%R /\
  (0 <= sigmoid sample_state 8 <= 1)%R.
Proof.
  assert (H : (0 < sigmoid_steepness sample_state)%R) by (simpl; lra).
  split; [exact H|].
  apply (sigmoid_unit_interval sample_state (fun _ => 0%R) (fun _ => 0%R) H).
Defined.

(** C9 fails on the code with its strict bounds.  At steepness 0.4 and
    weighted sum 8 the argument of [exp] is exactly -40, and [exp(-40)],
    about 4.2e-18, lies between 0 and [2^-53].  For every double [e] of
    that range [1 + e] rounds to 1 and the sigmoid is exactly 1.0: so it
    is at the upper end [2^-53] and at the double nearest [exp(-40)],
    [0x1.39792499b1a24p-58].  In exact arithmetic the same sigmoid stays
    strictly below 1. *)
Lemma sigmoid_saturates_in_double :
  let steepness := 0x1.999999999999ap-2%float in
  let e := 0x1.39792499b1a24p-58%float in
  sigmoid_argument steepness 8 = (-40)%float /\
  (0 < exp (-40) < / 2 ^ 53)%R /\
  PrimFloat.ltb 0 e = true /\
  PrimFloat.leb e 0x1p-53 = true /\
  sigmoid_of_exp e = 1%float /\
  sigmoid_of_exp 0x1p-53 = 1%float /\
  (forall st : ed_state, (sigmoid st 8 < 1)%R).
Proof.
  intros steepness e.
  split; [vm_compute; reflexivity|]. split; [apply exp_minus_40_small|].
  split; [vm_compute; reflexivity|]. split; [vm_compute; reflexivity|].
  split; [vm_compute; reflexivity|]. split; [vm_compute; reflexivity|].
  intros st. apply sigmoid_range.
Qed.

(** ** C10 *)

(** C10: [calculate_weight] writes the weight matrix only; the activation
    arrays, the error table, the polarity vector and the two error counters
    come out as they went in. *)
Theorem calculate_weight_writes_weights_only (st : ed_state) :
  neuron_input (calculate_weight st) = neuron_input st /\
  neuron_output (calculate_weight st) = neuron_output st /\
  error_delta (calculate_weight st) = error_delta st /\
  weights_oscillating (calculate_weight st) = weights_oscillating st /\
  error_total (calculate_weight st) = error_total st /\
  error_count (calculate_weight st) = error_count st.
Proof.
  pose proof (calculate_weight_frame st) as H. unfold same_frame in H.
  repeat match goal with H : _ /\ _ |- _ => destruct H end.
  repeat split; assumption.
Qed.

(** * Further properties of the engine *)

(** ** init_network: the polarity vector *)

Lemma oscillation_parity i :
  0 <= i -> oscillation i = if Z.even i then 1%R else (-1)%R.
Proof.
  intros Hi. unfold oscillation. rewrite Z.rem_mod_nonneg by lia.
  destruct (Z.even i) eqn:E.
  - apply Z.even_spec in E. destruct E as [k ->].
    replace ((2 * k + 1) mod 2) with 1; [reflexivity|].
    rewrite Z.add_comm, Z.mul_comm, Z.mod_add by lia. reflexivity.
  - assert (O : Z.odd i = true) by (rewrite <- Z.negb_even, E; reflexivity).
    apply Z.odd_spec in O. destruct O as [k ->].
    replace ((2 * k + 1 + 1) mod 2) with 0; [reflexivity|].
    replace (2 * k + 1 + 1) with (0 + (k + 1) * 2) by lia.
    rewrite Z.mod_add by lia. reflexivity.
Qed.

(** X1: after [init_network] with at least one output network, the
    neuron types alternate over all indices [0 .. total_neurons+1]: +1 at
    even indices, -1 at odd ones, except that the output neuron
    [size_input+2] is +1 whatever its parity. *)
Theorem polarity_alternation
  (init_input init_output init_hidden init_hidden2 : Z) (st : ed_state) :
  0 < init_output ->
  let st' := init_network init_input init_output init_hidden init_hidden2 st in
  weights_oscillating st' (size_input st' + 2) = 1%R /\
  forall i, 0 <= i <= total_neurons st' + 1 -> i <> size_input st' + 2 ->
    weights_oscillating st' i = if Z.even i then 1%R else (-1)%R.
Proof.
  intros Hb st'.
  destruct (init_network_dims init_input init_output init_hidden
              init_hidden2 st) as (Hsi & _ & _ & _ & Htn).
  fold st' in Hsi, Htn. rewrite Hsi, Htn. subst st'. split.
  - rewrite init_network_polarity by assumption. unfold polarity.
    now rewrite Z.eqb_refl.
  - intros i Hi Hne. rewrite init_network_polarity by assumption.
    unfold polarity. destruct (Z.eqb_spec i (init_input + 2)); [contradiction|].
    destruct (Z.leb_spec 0 i); [|lia].
    destruct (Z.leb_spec i (init_input + 1 + (init_hidden + init_hidden2) + 1));
      [|lia].
    simpl. apply oscillation_parity. lia.
Qed.

Lemma polarity_alternation_witness :
  let st' := init_network 3 1 2 0 (default_params (fun _ => 5000%nat)) in
  weights_oscillating st' (size_input st' + 2) = 1%R /\
  forall i, 0 <= i <= total_neurons st' + 1 -> i <> size_input st' + 2 ->
    weights_oscillating st' i = if Z.even i then 1%R else (-1)%R.
Proof.
  apply (polarity_alternation 3 1 2 0 (default_params (fun _ => 5000%nat))).
  lia.
Defined.

(** ** init_network: which rule has the last word on a cell *)

Ltac chain_frame :=
  repeat first
    [ apply rules_frame_refl
    | eapply rules_frame_trans;
      [ first [ apply rule_inhibitory_input_frame
              | apply rule_self_loop_frame
              | apply rule_second_layer_frame
              | apply rule_multi_layer_frame
              | apply rule_loop_cutting_output_frame
              | apply rule_loop_cutting_frame
              | apply rule_input_blocking_frame
              | apply rule_regular_frame
              | apply rule_threshold_frame ] | ] ].

Ltac keep_zero :=
  unfold assign_weight; intros Hz; case_guards; simpl;
  rewrite ?upd3_same; auto.

Lemma rule_input_blocking_keeps_zero n c k st :
  weights st n c k = 0%R -> weights (rule_input_blocking n c k st) n c k = 0%R.
Proof. unfold rule_input_blocking. keep_zero. Qed.

Lemma rule_loop_cutting_keeps_zero n c k st :
  weights st n c k = 0%R -> weights (rule_loop_cutting n c k st) n c k = 0%R.
Proof. unfold rule_loop_cutting. keep_zero. Qed.

Lemma rule_loop_cutting_output_keeps_zero n c k st :
  weights st n c k = 0%R ->
  weights (rule_loop_cutting_output n c k st) n c k = 0%R.
Proof. unfold rule_loop_cutting_output. keep_zero. Qed.

Lemma rule_multi_layer_keeps_zero n c k st :
  weights st n c k = 0%R -> weights (rule_multi_layer n c k st) n c k = 0%R.
Proof. unfold rule_multi_layer. keep_zero. Qed.

Lemma rule_inhibitory_input_keeps_zero n c k st :
  weights st n c k = 0%R ->
  weights (rule_inhibitory_input n c k st) n c k = 0%R.
Proof. unfold rule_inhibitory_input. keep_zero. Qed.

Lemma frame_dims s st :
  rules_frame s st ->
  size_input s = size_input st /\ total_neurons s = total_neurons st /\
  size_hidden2 s = size_hidden2 st /\ config_flags s = config_flags st.
Proof.
  intros (H & _). unfold init_frame in H. split_frames. auto.
Qed.

Lemma rule_second_layer_skip n c k s st :
  rules_frame s st ->
  k < size_input st + 3 \/ c <= total_neurons st + 1 - size_hidden2 st ->
  rule_second_layer n c k s = s.
Proof.
  intros Hf Hc. destruct (frame_dims s st Hf) as (Hsi & Htn & Hh2 & _).
  unfold rule_second_layer. rewrite Hsi, Htn, Hh2.
  destruct (Z.gtb_spec c (total_neurons st + 1 - size_hidden2 st));
    destruct (Z.geb_spec k (size_input st + 3)); simpl; try reflexivity; lia.
Qed.

Lemma rule_self_loop_skip n c k s : c <> k -> rule_self_loop n c k s = s.
Proof.
  intros H. unfold rule_self_loop. now destruct (Z.eqb_spec c k).
Qed.

Lemma rule_self_loop_fires n c s st :
  rules_frame s st -> config_flags st 3 = 1 ->
  weights (rule_self_loop n c c s) n c c = 0%R.
Proof.
  intros Hf Hfl. destruct (frame_dims s st Hf) as (_ & _ & _ & Hcf).
  unfold rule_self_loop. rewrite Z.eqb_refl, Hcf, Hfl. simpl.
  apply assign_weight_cell.
Qed.

Lemma rule_inhibitory_input_fires n c k s st :
  rules_frame s st ->
  config_flags st 11 = 0 -> k < size_input st + 2 -> Z.rem k 2 = 1 ->
  weights (rule_inhibitory_input n c k s) n c k = 0%R.
Proof.
  intros Hf Hfl Hk Hodd. destruct (frame_dims s st Hf) as (Hsi & _ & _ & Hcf).
  unfold rule_inhibitory_input. rewrite Hcf, Hfl, Hsi, Hodd.
  destruct (Z.ltb_spec k (size_input st + 2)); [|lia]. simpl.
  apply assign_weight_cell.
Qed.

Lemma rule_multi_layer_fires n c k s st :
  rules_frame s st ->
  config_flags st 7 = 1 -> 2 <= k < size_input st + 2 ->
  c = size_input st + 2 ->
  weights (rule_multi_layer n c k s) n c k = 0%R.
Proof.
  intros Hf Hfl Hk Hc. destruct (frame_dims s st Hf) as (Hsi & _ & _ & Hcf).
  unfold rule_multi_layer. rewrite Hcf, Hfl, Hsi.
  destruct (Z.geb_spec k 2); [|lia].
  destruct (Z.ltb_spec k (size_input st + 2)); [|lia].
  destruct (Z.geb_spec c (size_input st + 2)); [|lia].
  destruct (Z.ltb_spec c (size_input st + 3)); [|lia]. simpl.
  apply assign_weight_cell.
Qed.

Lemma rule_input_blocking_fires n c k s st :
  rules_frame s st ->
  total_neurons st + 1 - size_hidden2 st < c -> 2 <= k < size_input st + 2 ->
  weights (rule_input_blocking n c k s) n c k = 0%R.
Proof.
  intros Hf Hc Hk. destruct (frame_dims s st Hf) as (Hsi & Htn & Hh2 & _).
  unfold rule_input_blocking. rewrite Hsi, Htn, Hh2.
  destruct (Z.gtb_spec c (total_neurons st + 1 - size_hidden2 st)); [|lia].
  destruct (Z.ltb_spec k (size_input st + 2)); [|lia].
  destruct (Z.geb_spec k 2); [|lia]. simpl.
  apply assign_weight_cell.
Qed.

Lemma init_cell_zero_raw n c k st :
  weights (init_rules n c k st) n c k = 0%R ->
  weights (init_cell n c k st) n c k = 0%R.
Proof. intros H. rewrite init_cell_value, H. lra. Qed.

Lemma init_cell_self_loop n c st :
  config_flags st 3 = 1 -> weights (init_cell n c c st) n c c = 0%R.
Proof.
  intros Hfl. apply init_cell_zero_raw. unfold init_rules.
  apply rule_inhibitory_input_keeps_zero.
  apply (rule_self_loop_fires n c _ st); [chain_frame | exact Hfl].
Qed.

Lemma init_cell_inhibitory_input n c k st :
  config_flags st 11 = 0 -> k < size_input st + 2 -> Z.rem k 2 = 1 ->
  weights (init_cell n c k st) n c k = 0%R.
Proof.
  intros Hfl Hk Hodd. apply init_cell_zero_raw. unfold init_rules.
  apply (rule_inhibitory_input_fires n c k _ st); [chain_frame | auto ..].
Qed.

Lemma init_cell_multi_layer n k st :
  config_flags st 7 = 1 -> 2 <= k < size_input st + 2 ->
  weights (init_cell n (size_input st + 2) k st) n (size_input st + 2) k
  = 0%R.
Proof.
  intros Hfl Hk. apply init_cell_zero_raw. unfold init_rules.
  apply rule_inhibitory_input_keeps_zero.
  rewrite rule_self_loop_skip by lia.
  rewrite (rule_second_layer_skip _ _ _ _ st) by (chain_frame || lia).
  apply (rule_multi_layer_fires _ _ _ _ st); [chain_frame | auto ..].
Qed.

Lemma init_cell_input_blocking n c k st :
  size_input st + 2 <= c ->
  total_neurons st + 1 - size_hidden2 st < c -> 2 <= k < size_input st + 2 ->
  weights (init_cell n c k st) n c k = 0%R.
Proof.
  intros Hr Hc Hk. apply init_cell_zero_raw. unfold init_rules.
  apply rule_inhibitory_input_keeps_zero.
  rewrite rule_self_loop_skip by lia.
  rewrite (rule_second_layer_skip _ _ _ _ st) by (chain_frame || lia).
  apply rule_multi_layer_keeps_zero, rule_loop_cutting_output_keeps_zero,
    rule_loop_cutting_keeps_zero.
  apply (rule_input_blocking_fires _ _ _ _ st); [chain_frame | auto ..].
Qed.

Lemma init_network_kept a b c d st :
  let st' := init_network a b c d st in
  config_flags st' = config_flags st /\
  init_range_weight st' = init_range_weight st /\
  init_range_threshold st' = init_range_threshold st /\
  bias st' = bias st /\
  learning_rate st' = learning_rate st /\
  sigmoid_steepness st' = sigmoid_steepness st /\
  error_amplification st' = error_amplification st /\
  timesteps st' = timesteps st /\
  rand_seq st' = rand_seq st /\
  neuron_output st' = neuron_output st /\
  error_delta st' = error_delta st.
Proof.
  intros st'. subst st'. unfold init_network.
  set (s0 := set_dims _ _ _ _ _ st).
  assert (H : init_frame (for_loop 0 (size_output s0 - 1)
                            init_output_network s0) s0).
  { apply for_loop_init_frame. intros. apply init_output_network_frame. }
  unfold init_frame in H. split_frames.
  unfold set_error_total, set_error_count.
  cbn [config_flags init_range_weight init_range_threshold bias learning_rate
       sigmoid_steepness error_amplification timesteps rand_seq neuron_output
       error_delta].
  repeat split; assumption.
Qed.

Lemma init_network_blocked a b c d st (blocked : ed_state -> Z -> Z -> Prop) :
  let s0 := set_dims a b (c + d) d (a + 1 + (c + d)) st in
  (forall s t k, init_frame s s0 -> blocked s0 t k -> blocked s t k) ->
  (forall n s t k, blocked s t k ->
     weights (init_cell n t k s) n t k = 0%R) ->
  forall n t k,
    0 <= n < b ->
    a + 2 <= t <= a + 1 + (c + d) + 1 ->
    0 <= k <= a + 1 + (c + d) + 1 ->
    blocked s0 t k ->
    weights (init_network a b c d st) n t k = 0%R.
Proof.
  intros s0 Hmove Hzero n t k Hn Ht Hk Hb.
  apply (init_network_establish a b c d st
           (fun t k w => blocked s0 t k -> w = 0%R));
    [intros n' s t' k' Hf Hb'; apply Hzero; now apply Hmove
    | assumption ..].
Qed.

Lemma odd_rem k : 0 <= k -> Z.odd k = true -> Z.rem k 2 = 1.
Proof.
  intros Hk Ho. rewrite Z.rem_mod_nonneg by lia.
  rewrite Zmod_odd, Ho. reflexivity.
Qed.

(** ** X2 - X5: connections init_network leaves disabled *)

(** X2: with self-loop cutting on (config_flags[3] = 1) [init_network]
    leaves every neuron of every sub-network without a connection to
    itself. *)
Theorem self_loop_cutting
  (init_input init_output init_hidden init_hidden2 : Z) (st : ed_state) :
  let st' := init_network init_input init_output init_hidden init_hidden2 st in
  config_flags st' 3 = 1 ->
  forall n c,
    0 <= n < size_output st' ->
    0 <= c -> size_input st' + 2 <= c <= total_neurons st' + 1 ->
    weights st' n c c = 0%R.
Proof.
  intros st' Hfl n c Hn Hpos Hc.
  destruct (init_network_dims init_input init_output init_hidden
              init_hidden2 st) as (Hsi & Hso & _ & _ & Htn).
  destruct (init_network_kept init_input init_output init_hidden
              init_hidden2 st) as (Hcf & _).
  fold st' in Hsi, Hso, Htn, Hcf. rewrite Hsi, Htn in Hc. rewrite Hso in Hn.
  rewrite Hcf in Hfl. subst st'.
  apply (init_network_blocked _ _ _ _ st
           (fun s t k => config_flags s 3 = 1 /\ t = k)); auto; try lia.
  - intros s t k Hf [H1 H2]. split; [|exact H2].
    assert (E : config_flags s = config_flags st) by apply Hf. now rewrite E.
  - intros n' s t k [H1 ->]. now apply init_cell_self_loop.
Qed.

Lemma self_loop_cutting_witness :
  weights (init_network 2 1 3 0 (default_params (fun _ => 5000%nat))) 0 5 5
  = 0%R.
Proof.
  set (st := default_params (fun _ => 5000%nat)).
  destruct (init_network_dims 2 1 3 0 st) as (Hsi & Hso & _ & _ & Htn).
  destruct (init_network_kept 2 1 3 0 st) as (Hcf & _).
  apply (self_loop_cutting 2 1 3 0 st);
    rewrite ?Hsi, ?Hso, ?Htn, ?Hcf; try lia. reflexivity.
Defined.

(** X3: with the multi-layer flag on (config_flags[7] = 1) and a
    non-negative hidden count, [init_network] gives the output neuron no
    direct connection from any input neuron. *)
Theorem multi_layer_blocks_inputs
  (init_input init_output init_hidden init_hidden2 : Z) (st : ed_state) :
  let st' := init_network init_input init_output init_hidden init_hidden2 st in
  config_flags st' 7 = 1 ->
  0 <= size_hidden st' ->
  forall n k,
    0 <= n < size_output st' ->
    2 <= k < size_input st' + 2 ->
    weights st' n (size_input st' + 2) k = 0%R.
Proof.
  intros st' Hfl Hh n k Hn Hk.
  destruct (init_network_dims init_input init_output init_hidden
              init_hidden2 st) as (Hsi & Hso & Hsh & _ & Htn).
  destruct (init_network_kept init_input init_output init_hidden
              init_hidden2 st) as (Hcf & _).
  fold st' in Hsi, Hso, Hsh, Htn, Hcf. rewrite Hsi in *. rewrite Hso in Hn.
  rewrite Hsh in Hh. rewrite Hcf in Hfl. subst st'.
  apply (init_network_blocked _ _ _ _ st
           (fun s t k => config_flags s 7 = 1 /\
                         2 <= k < size_input s + 2 /\ t = size_input s + 2));
    auto; try lia.
  - intros s t k' Hf (H1 & H2 & H3).
    assert (E : config_flags s = config_flags st) by apply Hf.
    assert (E' : size_input s = init_input) by apply Hf.
    rewrite E, E'. auto.
  - intros n' s t k' (H1 & H2 & ->). now apply init_cell_multi_layer.
Qed.

Lemma multi_layer_blocks_inputs_witness :
  weights (init_network 4 1 8 0 (default_params (fun _ => 5000%nat))) 0
    (size_input (init_network 4 1 8 0 (default_params (fun _ => 5000%nat)))
     + 2) 3 = 0%R.
Proof.
  set (st := default_params (fun _ => 5000%nat)).
  destruct (init_network_dims 4 1 8 0 st) as (Hsi & Hso & Hsh & _ & Htn).
  destruct (init_network_kept 4 1 8 0 st) as (Hcf & _).
  apply (multi_layer_blocks_inputs 4 1 8 0 st);
    rewrite ?Hsi, ?Hso, ?Hsh, ?Htn, ?Hcf; try lia. reflexivity.
Defined.

(** X4: [init_network] gives no neuron of the second hidden layer (target
    index above [total_neurons+1-size_hidden2]) a connection from an input
    neuron, whatever the flags. *)
Theorem second_layer_reads_no_input
  (init_input init_output init_hidden init_hidden2 : Z) (st : ed_state) :
  let st' := init_network init_input init_output init_hidden init_hidden2 st in
  forall n c k,
    0 <= n < size_output st' ->
    size_input st' + 2 <= c <= total_neurons st' + 1 ->
    total_neurons st' + 1 - size_hidden2 st' < c ->
    2 <= k < size_input st' + 2 ->
    weights st' n c k = 0%R.
Proof.
  intros st' n c k Hn Hc Hl Hk.
  destruct (init_network_dims init_input init_output init_hidden
              init_hidden2 st) as (Hsi & Hso & _ & Hh2 & Htn).
  fold st' in Hsi, Hso, Hh2, Htn. rewrite Hsi, Htn, ?Hh2 in *.
  rewrite Hso in Hn. subst st'.
  apply (init_network_blocked _ _ _ _ st
           (fun s t k =>
              size_input s + 2 <= t /\
              total_neurons s + 1 - size_hidden2 s < t /\
              2 <= k < size_input s + 2)); auto; try lia.
  - intros s t k' Hf H.
    assert (E1 : size_input s = init_input) by apply Hf.
    assert (E2 : total_neurons s =
                 init_input + 1 + (init_hidden + init_hidden2)) by apply Hf.
    assert (E3 : size_hidden2 s = init_hidden2) by apply Hf.
    rewrite E1, E2, E3. exact H.
  - intros n' s t k' (H1 & H2 & H3). now apply init_cell_input_blocking.
  - simpl. lia.
Qed.

Lemma second_layer_reads_no_input_witness :
  weights (init_network 2 1 1 2 (default_params (fun _ => 5000%nat))) 0 6 2
  = 0%R.
Proof.
  set (st := default_params (fun _ => 5000%nat)).
  destruct (init_network_dims 2 1 1 2 st) as (Hsi & Hso & _ & Hh2 & Htn).
  apply (second_layer_reads_no_input 2 1 1 2 st);
    rewrite ?Hsi, ?Hso, ?Hh2, ?Htn; lia.
Defined.

(** X5: with inhibitory inputs switched off (config_flags[11] = 0)
    [init_network] disables every connection from an odd index below
    [size_input+2]: the inhibitory twin of each input and also the negative
    bias neuron (index 1). *)
Theorem inhibitory_inputs_disabled
  (init_input init_output init_hidden init_hidden2 : Z) (st : ed_state) :
  let st' := init_network init_input init_output init_hidden init_hidden2 st in
  config_flags st' 11 = 0 ->
  forall n c k,
    0 <= n < size_output st' ->
    size_input st' + 2 <= c <= total_neurons st' + 1 ->
    0 <= k < size_input st' + 2 -> Z.odd k = true ->
    weights st' n c k = 0%R.
Proof.
  intros st' Hfl n c k Hn Hc Hk Hodd.
  destruct (init_network_dims init_input init_output init_hidden
              init_hidden2 st) as (Hsi & Hso & _ & _ & Htn).
  destruct (init_network_kept init_input init_output init_hidden
              init_hidden2 st) as (Hcf & _).
  fold st' in Hsi, Hso, Htn, Hcf. rewrite Hsi, Htn in *. rewrite Hso in Hn.
  rewrite Hcf in Hfl. subst st'.
  apply (init_network_blocked _ _ _ _ st
           (fun s t k => config_flags s 11 = 0 /\
                         0 <= k < size_input s + 2 /\ Z.odd k = true));
    auto; try lia.
  - intros s t k' Hf (H1 & H2 & H3).
    assert (E : config_flags s = config_flags st) by apply Hf.
    assert (E' : size_input s = init_input) by apply Hf.
    rewrite E, E'. auto.
  - intros n' s t k' (H1 & H2 & H3).
    apply init_cell_inhibitory_input; auto; [lia | apply odd_rem; auto; lia].
Qed.

Lemma inhibitory_inputs_disabled_witness :
  weights
    (init_network 2 1 1 0
       (configured (updflag default_flags 11 0) 0.8%R 0.8%R 0.4%R 1%R 1%R 1%R
          2 (fun _ => 5000%nat))) 0 4 1 = 0%R.
Proof.
  set (st := configured _ _ _ _ _ _ _ _ _).
  destruct (init_network_dims 2 1 1 0 st) as (Hsi & Hso & _ & _ & Htn).
  destruct (init_network_kept 2 1 1 0 st) as (Hcf & _).
  apply (inhibitory_inputs_disabled 2 1 1 0 st);
    rewrite ?Hsi, ?Hso, ?Htn, ?Hcf; try lia; reflexivity.
Defined.

(** ** init_network: the size of the initial weights *)

Lemma random_value_bounds v : (0 <= random_value v <= 0.9999)%R.
Proof.
  split; [apply random_value_nonneg|]. unfold random_value.
  assert (H : Z.rem (Z.of_nat v) 10000 <= 9999).
  { pose proof (Z.rem_bound_pos (Z.of_nat v) 10000 ltac:(lia) ltac:(lia)).
    lia. }
  apply IZR_le in H. lra.
Qed.

Lemma draw_bounded r m v :
  (0 <= r <= m)%R -> (0 <= r * random_value v <= 0.9999 * m)%R.
Proof.
  intros Hr. pose proof (random_value_bounds v) as Hv. split; nra.
Qed.

Ltac keep_bounded :=
  unfold raw_bounded, assign_weight_random, assign_weight, random;
  intros (Hw & Ht & Hc); case_guards; simpl; rewrite ?upd3_same;
  (split; [assumption | split; [assumption|]]);
  first [ exact Hc
        | apply draw_bounded; split; [assumption | apply Rmax_l]
        | split; [lra|]; apply Rmult_le_pos; [lra|];
          apply Rle_trans with (1 := Hw); apply Rmax_l ].

Lemma first_rules_bounded n c s st :
  (0 <= init_range_weight st)%R -> (0 <= init_range_threshold st)%R ->
  raw_bounded n c s (rule_regular n c s (rule_threshold n c s st)).
Proof.
  intros Hw Ht. unfold rule_regular, rule_threshold.
  destruct (Z.ltb_spec s 2), (Z.gtb_spec s 1); try lia;
    unfold raw_bounded, assign_weight_random, assign_weight, random; simpl;
    rewrite upd3_same; (split; [assumption | split; [assumption|]]);
    apply draw_bounded; split; try assumption;
    [apply Rmax_r | apply Rmax_l].
Qed.

Lemma rule_input_blocking_bounded n c s st :
  raw_bounded n c s st -> raw_bounded n c s (rule_input_blocking n c s st).
Proof. unfold rule_input_blocking. keep_bounded. Qed.

Lemma rule_loop_cutting_bounded n c s st :
  raw_bounded n c s st -> raw_bounded n c s (rule_loop_cutting n c s st).
Proof. unfold rule_loop_cutting. keep_bounded. Qed.

Lemma rule_loop_cutting_output_bounded n c s st :
  raw_bounded n c s st ->
  raw_bounded n c s (rule_loop_cutting_output n c s st).
Proof. unfold rule_loop_cutting_output. keep_bounded. Qed.

Lemma rule_multi_layer_bounded n c s st :
  raw_bounded n c s st -> raw_bounded n c s (rule_multi_layer n c s st).
Proof. unfold rule_multi_layer. keep_bounded. Qed.

Lemma rule_second_layer_bounded n c s st :
  raw_bounded n c s st -> raw_bounded n c s (rule_second_layer n c s st).
Proof. unfold rule_second_layer. keep_bounded. Qed.

Lemma rule_self_loop_bounded n c s st :
  raw_bounded n c s st -> raw_bounded n c s (rule_self_loop n c s st).
Proof. unfold rule_self_loop. keep_bounded. Qed.

Lemma rule_inhibitory_input_bounded n c s st :
  raw_bounded n c s st -> raw_bounded n c s (rule_inhibitory_input n c s st).
Proof. unfold rule_inhibitory_input. keep_bounded. Qed.

Lemma init_rules_bounded n c s st :
  (0 <= init_range_weight st)%R -> (0 <= init_range_threshold st)%R ->
  (0 <= weights (init_rules n c s st) n c s <=
   0.9999 * Rmax (init_range_weight st) (init_range_threshold st))%R.
Proof.
  intros Hw Ht.
  assert (H : raw_bounded n c s (init_rules n c s st)).
  { unfold init_rules.
    apply rule_inhibitory_input_bounded, rule_self_loop_bounded,
      rule_second_layer_bounded, rule_multi_layer_bounded,
      rule_loop_cutting_output_bounded, rule_loop_cutting_bounded,
      rule_input_blocking_bounded, first_rules_bounded; assumption. }
  destruct H as (_ & _ & H).
  destruct (init_rules_frame n c s st) as (Hf & _). unfold init_frame in Hf.
  destruct Hf as (_ & _ & _ & _ & _ & _ & _ & _ & _ & _ & _ & _ & _ & _ &
                  Erw & Ert & _).
  now rewrite Erw, Ert in H.
Qed.

Lemma polarity_value_abs p : polarity_value p -> (Rabs p <= 1)%R.
Proof.
  intros [-> | [-> | ->]]; unfold Rabs; destruct (Rcase_abs _); lra.
Qed.

Lemma init_cell_bounded n c k st :
  (0 <= init_range_weight st)%R -> (0 <= init_range_threshold st)%R ->
  (forall i, polarity_value (weights_oscillating st i)) ->
  (Rabs (weights (init_cell n c k st) n c k) <=
   0.9999 * Rmax (init_range_weight st) (init_range_threshold st))%R.
Proof.
  intros Hw Ht Hp. rewrite init_cell_value.
  destruct (init_rules_bounded n c k st Hw Ht) as [H0 H1].
  rewrite Rabs_mult, (Rabs_pos_eq _ H0).
  pose proof (polarity_value_abs _
                (polarity_value_mult _ _ (Hp k) (Hp c))) as Hq.
  pose proof (Rabs_pos (weights_oscillating st k * weights_oscillating st c)).
  nra.
Qed.

Lemma init_weights_cell_inv n st (P : R -> Prop) :
  (forall n' c k, P (weights st n' c k)) ->
  (forall s c k, rules_frame s st -> P (weights (init_cell n c k s) n c k)) ->
  forall n' c k, P (weights (init_weights n st) n' c k).
Proof.
  intros H0 Hcell.
  set (I := fun s => rules_frame s st /\ forall n' c k, P (weights s n' c k)).
  assert (Hstep : forall c k s, I s -> I (init_cell n c k s)).
  { intros c k s [Hf Hs]. split.
    - eapply rules_frame_trans; [apply init_cell_frame | exact Hf].
    - intros n' c' k'.
      destruct (Z.eq_dec n' n) as [-> | Hn];
        [destruct (Z.eq_dec c' c) as [-> | Hc];
         [destruct (Z.eq_dec k' k) as [-> | Hk]|]|];
        try (rewrite init_cell_other by congruence; apply Hs).
      now apply Hcell. }
  assert (HI : I (init_weights n st)).
  { unfold init_weights. apply (for_loop_inv I).
    - intros c s _ Hs. apply (for_loop_inv I); [|exact Hs].
      intros k s' _ Hs'. now apply Hstep.
    - split; [apply rules_frame_refl | exact H0]. }
  apply HI.
Qed.

Lemma init_network_cell_inv a b c d st (P : R -> Prop) :
  (forall i, polarity_value (weights_oscillating st i)) ->
  (forall n t k, P (weights st n t k)) ->
  (forall n s t k,
     init_frame s (set_dims a b (c + d) d (a + 1 + (c + d)) st) ->
     (forall i, polarity_value (weights_oscillating s i)) ->
     P (weights (init_cell n t k s) n t k)) ->
  forall n t k, P (weights (init_network a b c d st) n t k).
Proof.
  intros Hpol H0 Hcell. rewrite init_network_weights.
  set (s0 := set_dims _ _ _ _ _ st).
  set (K := fun s => init_frame s s0 /\
                     (forall i, polarity_value (weights_oscillating s i)) /\
                     forall n t k, P (weights s n t k)).
  assert (HK : K (for_loop 0 (b - 1) init_output_network s0)).
  { apply (for_loop_inv K); [|repeat split; auto].
    intros n s _ (Hf & Hp & Hs).
    set (s1 := assign_neuron_types s).
    assert (Hp1 : forall i, polarity_value (weights_oscillating s1 i)).
    { intros i. subst s1. rewrite assign_neuron_types_polarity.
      now apply polarity_values. }
    assert (Hf1 : init_frame s1 s0).
    { eapply init_frame_trans; [apply assign_neuron_types_frame | exact Hf]. }
    assert (Hs1 : forall n' t k, P (weights s1 n' t k)).
    { intros n' t k. subst s1.
      destruct (assign_neuron_types_weights s) as (E & _). rewrite E.
      apply Hs. }
    unfold init_output_network. fold s1.
    destruct (init_bias_weights n (init_weights n s1)) as [Ew Ep].
    destruct (init_weights_frame n s1) as (Hf2 & Ep' & _).
    split; [|split].
    - eapply init_frame_trans; [apply init_bias_frame|].
      eapply init_frame_trans; [exact Hf2 | exact Hf1].
    - intros i. rewrite Ep, Ep'. apply Hp1.
    - rewrite Ew. apply init_weights_cell_inv; [exact Hs1|].
      intros s' t k Hf'. apply Hcell.
      + eapply init_frame_trans; [apply rules_frame_init_frame, Hf' | exact Hf1].
      + intros i. destruct Hf' as (_ & E & _). rewrite E. apply Hp1. }
  apply HK.
Qed.

(** X6: started on a fresh program with non-negative ranges,
    [init_network] leaves every weight with magnitude at most 0.9999 times
    the larger of the weight range and the threshold range. *)
Theorem initial_weights_bounded
  (init_input init_output init_hidden init_hidden2 : Z) (st : ed_state) :
  fresh st ->
  (0 <= init_range_weight st)%R -> (0 <= init_range_threshold st)%R ->
  forall n t k,
    (Rabs (weights (init_network init_input init_output init_hidden
                      init_hidden2 st) n t k) <=
     0.9999 * Rmax (init_range_weight st) (init_range_threshold st))%R.
Proof.
  intros (Fw & _ & _ & _ & Fp) Hw Ht.
  assert (Hm : (0 <= Rmax (init_range_weight st) (init_range_threshold st))%R).
  { apply Rle_trans with (1 := Hw). apply Rmax_l. }
  apply (init_network_cell_inv _ _ _ _ st
           (fun w => (Rabs w <=
              0.9999 * Rmax (init_range_weight st)
                         (init_range_threshold st))%R)).
  - intros i. rewrite Fp. right; now right.
  - intros n t k. rewrite Fw, Rabs_R0. lra.
  - intros n s t k Hf Hp. unfold init_frame in Hf. simpl in Hf.
    destruct Hf as (_ & _ & _ & _ & _ & _ & _ & _ & _ & _ & _ & _ & _ & _ &
                    Erw & Ert & _).
    rewrite <- Erw, <- Ert. apply init_cell_bounded; auto; congruence.
Qed.

Lemma initial_weights_bounded_witness :
  (Rabs (weights (init_network 4 1 8 0 (default_params (fun _ => 5000%nat)))
           0 6 2) <=
   0.9999 * Rmax (init_range_weight (default_params (fun _ => 5000%nat)))
              (init_range_threshold (default_params (fun _ => 5000%nat))))%R.
Proof.
  apply (initial_weights_bounded 4 1 8 0 (default_params (fun _ => 5000%nat))).
  - repeat split.
  - simpl. lra.
  - simpl. lra.
Defined.

(** ** init_network: bias inputs, counters and what is left alone *)

(** X7: [init_network] sets both bias inputs (indices 0 and 1) of every
    sub-network to [bias], touches no other input activation, resets the
    two error counters to 0, and changes no parameter, output activation
    or error-table entry. *)
Theorem init_network_bias_and_counters
  (init_input init_output init_hidden init_hidden2 : Z) (st : ed_state) :
  let st' := init_network init_input init_output init_hidden init_hidden2 st in
  (forall n, 0 <= n < init_output ->
     neuron_input st' n 0 = bias st /\ neuron_input st' n 1 = bias st) /\
  (forall n k, ~ (0 <= n < init_output /\ (k = 0 \/ k = 1)) ->
     neuron_input st' n k = neuron_input st n k) /\
  error_total st' = 0%R /\ error_count st' = 0 /\
  config_flags st' = config_flags st /\
  init_range_weight st' = init_range_weight st /\
  init_range_threshold st' = init_range_threshold st /\
  bias st' = bias st /\
  learning_rate st' = learning_rate st /\
  sigmoid_steepness st' = sigmoid_steepness st /\
  error_amplification st' = error_amplification st /\
  timesteps st' = timesteps st /\
  rand_seq st' = rand_seq st /\
  neuron_output st' = neuron_output st /\
  error_delta st' = error_delta st.
Proof.
  intros st'. split; [|split; [|split; [reflexivity|split; [reflexivity|]]]].
  - intros n Hn. subst st'. rewrite !init_network_inputs.
    destruct (Z.leb_spec 0 n); [|lia].
    destruct (Z.ltb_spec n init_output); [|lia]. simpl. auto.
  - intros n k Hout. subst st'. rewrite init_network_inputs.
    destruct (Z.leb_spec 0 n), (Z.ltb_spec n init_output),
      (Z.eqb_spec k 0), (Z.eqb_spec k 1); simpl; try reflexivity;
      exfalso; apply Hout; lia.
  - apply init_network_kept.
Qed.

(** ** The utility functions of ed_main.c *)

Lemma sigmoid_at_zero st : sigmoid st 0 = (1 / 2)%R.
Proof.
  unfold sigmoid.
  replace (-2 * 0 / sigmoid_steepness st)%R with 0%R by (unfold Rdiv; ring).
  rewrite exp_0. lra.
Qed.

Lemma sigmoid_weakly_increasing st x y :
  (0 < sigmoid_steepness st)%R -> (x <= y)%R ->
  (sigmoid st x <= sigmoid st y)%R.
Proof.
  intros Hs [Hxy| ->]; [|lra]. apply Rlt_le. unfold sigmoid.
  assert (Harg : (-2 * y / sigmoid_steepness st <
                  -2 * x / sigmoid_steepness st)%R).
  { unfold Rdiv. apply Rmult_lt_compat_r; [now apply Rinv_0_lt_compat | lra]. }
  apply exp_increasing in Harg.
  pose proof (exp_pos (-2 * y / sigmoid_steepness st)) as Hy.
  pose proof (exp_pos (-2 * x / sigmoid_steepness st)) as Hx.
  set (ex := exp (-2 * x / _)) in *. set (ey := exp (-2 * y / _)) in *.
  unfold Rdiv. rewrite !Rmult_1_l.
  apply Rinv_lt_contravar; nra.
Qed.

(** X8: for a positive steepness the sigmoid is 1/2 at a zero weighted
    sum, at least 1/2 for a non-negative sum and at most 1/2 for a
    non-positive one: which side of 1/2 an activation lies on is decided
    by the sign of the weighted sum. *)
Theorem sigmoid_midpoint (st : ed_state) (x : R) :
  (0 < sigmoid_steepness st)%R ->
  sigmoid st 0 = (1 / 2)%R /\
  ((0 <= x)%R -> (1 / 2 <= sigmoid st x)%R) /\
  ((x <= 0)%R -> (sigmoid st x <= 1 / 2)%R).
Proof.
  intros Hs. split; [apply sigmoid_at_zero|]. split; intros Hx.
  - rewrite <- (sigmoid_at_zero st). now apply sigmoid_weakly_increasing.
  - rewrite <- (sigmoid_at_zero st). now apply sigmoid_weakly_increasing.
Qed.

Lemma sigmoid_midpoint_witness :
  sigmoid sample_state 0 = (1 / 2)%R /\
  ((0 <= 8)%R -> (1 / 2 <= sigmoid sample_state 8)%R) /\
  ((8 <= 0)%R -> (sigmoid sample_state 8 <= 1 / 2)%R).
Proof.
  apply (sigmoid_midpoint sample_state 8). simpl. lra.
Defined.

(** X9: for a positive steepness the sigmoid never decreases: a larger
    weighted sum gives an activation at least as large. *)
Theorem sigmoid_monotone (st : ed_state) (x y : R) :
  (0 < sigmoid_steepness st)%R -> (x <= y)%R ->
  (sigmoid st x <= sigmoid st y)%R.
Proof. apply sigmoid_weakly_increasing. Qed.

Lemma sigmoid_monotone_witness :
  (sigmoid sample_state 8 <= sigmoid sample_state 9)%R.
Proof.
  apply (sigmoid_monotone sample_state 8 9); simpl; lra.
Defined.

(** X10: [random] returns one of the 10000 values [m / 10000] with
    [0 <= m <= 9999], advances the generator by exactly one draw and
    changes nothing else. *)
Theorem random_range (st : ed_state) :
  (exists m, 0 <= m <= 9999 /\ fst (random st) = (IZR m / 10000)%R) /\
  (0 <= fst (random st) <= 0.9999)%R /\
  rand_pos (snd (random st)) = S (rand_pos st) /\
  same_frame (set_rand_pos (rand_pos st) (snd (random st))) st /\
  weights (snd (random st)) = weights st.
Proof.
  unfold random. cbn [fst snd]. split; [|split; [|repeat split]].
  - exists (Z.rem (Z.of_nat (rand_seq st (rand_pos st))) 10000). split.
    + pose proof (Z.rem_bound_pos (Z.of_nat (rand_seq st (rand_pos st)))
                    10000 ltac:(lia) ltac:(lia)). lia.
    + reflexivity.
  - apply random_value_bounds.
Qed.

(** X11: [signage] is the sign function: it takes the values -1, 0, 1,
    recovers its argument from the magnitude, and is multiplicative. *)
Theorem signage_sign (x y : R) :
  (signage x * Rabs x = x)%R /\
  (signage x = 1%R \/ signage x = 0%R \/ signage x = (-1)%R) /\
  signage (x * y) = (signage x * signage y)%R.
Proof.
  destruct (signage_cases x) as [[Hx Ex]|[[Hx Ex]|[Hx Ex]]];
    rewrite Ex; (split; [|split]); auto;
    try (rewrite Rabs_pos_eq by lra; lra);
    try (rewrite Rabs_left by lra; lra);
    destruct (signage_cases y) as [[Hy Ey]|[[Hy Ey]|[Hy Ey]]]; rewrite Ey;
    try (subst; rewrite ?Rmult_0_l, ?Rmult_0_r;
         destruct (signage_cases 0) as [[H _]|[[_ E]|[H _]]];
         [lra | rewrite E; lra | lra]);
    try (rewrite signage_pos by nra; lra);
    try (rewrite signage_neg by nra; lra).
Qed.

(** ** calculate_output: which activations it writes *)

Lemma for_loop_empty lo hi body st : hi < lo -> for_loop lo hi body st = st.
Proof.
  intros H. unfold for_loop, zrange.
  replace (Z.to_nat (hi + 1 - lo)) with 0%nat by lia. reflexivity.
Qed.

Lemma timestep_body_untouched n st n' c' :
  ~ (n' = n /\ size_input st + 2 <= c' <= total_neurons st + 1) ->
  neuron_output (timestep_body n st) n' c' = neuron_output st n' c' /\
  neuron_input (timestep_body n st) n' c' = neuron_input st n' c'.
Proof.
  intros Hout. unfold timestep_body.
  set (s1 := for_loop _ _ (fun c s => assign_output n c _ s) st).
  assert (H1 : activation_frame s1 st /\
               neuron_output s1 n' c' = neuron_output st n' c' /\
               neuron_input s1 = neuron_input st).
  { subst s1.
    apply (for_loop_inv
             (fun s => activation_frame s st /\
                       neuron_output s n' c' = neuron_output st n' c' /\
                       neuron_input s = neuron_input st));
      [|split; [apply activation_frame_refl | auto]].
    intros c s Hc (Hf & Ho & Hi). split; [|split].
    - eapply activation_frame_trans; [|exact Hf]. repeat split.
    - simpl. rewrite upd2_other; [exact Ho|].
      intros E. inversion E; subst. auto.
    - exact Hi. }
  destruct H1 as (Hf & Ho & Hi).
  assert (Hsi : size_input s1 = size_input st) by apply Hf.
  assert (Htn : total_neurons s1 = total_neurons st) by apply Hf.
  rewrite Hsi, Htn.
  apply (for_loop_inv
           (fun s => neuron_output s n' c' = neuron_output st n' c' /\
                     neuron_input s n' c' = neuron_input st n' c'));
    [|split; [exact Ho | now rewrite Hi]].
  intros c s Hc (Ho' & Hi'). split; [exact Ho'|].
  simpl. rewrite upd2_other; [exact Hi'|].
  intros E. inversion E; subst. auto.
Qed.

Lemma output_network_untouched pattern n st n' c' :
  (~ (n' = n /\ size_input st + 2 <= c' <= total_neurons st + 1) ->
   neuron_output (output_network pattern n st) n' c' =
   neuron_output st n' c') /\
  (~ (n' = n /\ (2 <= c' <= size_input st + 1 \/
                 size_input st + 2 <= c' <= total_neurons st + 1)) ->
   neuron_input (output_network pattern n st) n' c' =
   neuron_input st n' c').
Proof.
  unfold output_network.
  set (s1 := for_loop 2 _ _ st).
  set (s2 := if _ =? _ then _ else _).
  assert (H1 : activation_frame s1 st /\
               neuron_output s1 = neuron_output st /\
               (~ (n' = n /\ 2 <= c' <= size_input st + 1) ->
                neuron_input s1 n' c' = neuron_input st n' c')).
  { subst s1.
    apply (for_loop_inv
             (fun s => activation_frame s st /\
                       neuron_output s = neuron_output st /\
                       (~ (n' = n /\ 2 <= c' <= size_input st + 1) ->
                        neuron_input s n' c' = neuron_input st n' c')));
      [|split; [apply activation_frame_refl | auto]].
    intros c s Hc (Hf & Ho & Hi). split; [|split].
    - eapply activation_frame_trans; [|exact Hf]. repeat split.
    - exact Ho.
    - intros Hout. simpl. rewrite upd2_other; [now apply Hi|].
      intros E. inversion E; subst. auto. }
  destruct H1 as (Hf1 & Ho1 & Hi1).
  assert (H2 : activation_frame s2 st /\
               neuron_output s2 = neuron_output st /\
               (~ (n' = n /\ (2 <= c' <= size_input st + 1 \/
                    size_input st + 2 <= c' <= total_neurons st + 1)) ->
                neuron_input s2 n' c' = neuron_input st n' c')).
  { subst s2. destruct (_ =? _).
    - split; [exact Hf1|]. split; [exact Ho1|]. intros Hout. apply Hi1. tauto.
    - assert (Hsi : size_input s1 = size_input st) by apply Hf1.
      assert (Htn : total_neurons s1 = total_neurons st) by apply Hf1.
      rewrite Hsi, Htn.
      apply (for_loop_inv
               (fun s => activation_frame s st /\
                         neuron_output s = neuron_output st /\
                         (~ (n' = n /\ (2 <= c' <= size_input st + 1 \/
                              size_input st + 2 <= c' <=
                                total_neurons st + 1)) ->
                          neuron_input s n' c' = neuron_input st n' c'))).
      + intros c s Hc (Hf & Ho & Hi). split; [|split].
        * eapply activation_frame_trans; [|exact Hf]. repeat split.
        * exact Ho.
        * intros Hout. simpl. rewrite upd2_other; [now apply Hi|].
          intros E. inversion E; subst. apply Hout. auto.
      + split; [exact Hf1|]. split; [exact Ho1|]. intros Hout. apply Hi1.
        tauto. }
  destruct H2 as (Hf2 & Ho2 & Hi2).
  assert (HI : activation_frame
                 (for_loop 1 (timesteps s2) (fun _ s => timestep_body n s) s2)
                 st /\
               (~ (n' = n /\
                   size_input st + 2 <= c' <= total_neurons st + 1) ->
                neuron_output
                  (for_loop 1 (timesteps s2)
                     (fun _ s => timestep_body n s) s2) n' c' =
                neuron_output st n' c') /\
               (~ (n' = n /\ (2 <= c' <= size_input st + 1 \/
                    size_input st + 2 <= c' <= total_neurons st + 1)) ->
                neuron_input
                  (for_loop 1 (timesteps s2)
                     (fun _ s => timestep_body n s) s2) n' c' =
                neuron_input st n' c')).
  { apply (for_loop_inv
             (fun s => activation_frame s st /\
                (~ (n' = n /\
                    size_input st + 2 <= c' <= total_neurons st + 1) ->
                 neuron_output s n' c' = neuron_output st n' c') /\
                (~ (n' = n /\ (2 <= c' <= size_input st + 1 \/
                     size_input st + 2 <= c' <= total_neurons st + 1)) ->
                 neuron_input s n' c' = neuron_input st n' c'))).
    - intros t s _ (Hf & Ho & Hi).
      assert (Hsi : size_input s = size_input st) by apply Hf.
      assert (Htn : total_neurons s = total_neurons st) by apply Hf.
      split; [|split].
      + eapply activation_frame_trans; [apply timestep_body_frame | exact Hf].
      + intros Hout.
        destruct (timestep_body_untouched n s n' c') as [E _];
          [rewrite Hsi, Htn; exact Hout|].
        rewrite E. now apply Ho.
      + intros Hout.
        destruct (timestep_body_untouched n s n' c') as [_ E];
          [rewrite Hsi, Htn; tauto|].
        rewrite E. now apply Hi.
    - split; [exact Hf2|]. split; [intros _; now rewrite Ho2 | exact Hi2]. }
  destruct HI as (_ & Ho & Hi). split; assumption.
Qed.

Lemma calculate_output_untouched pattern st n c :
  (~ (0 <= n < size_output st /\
      size_input st + 2 <= c <= total_neurons st + 1) ->
   neuron_output (calculate_output pattern st) n c = neuron_output st n c) /\
  (~ (0 <= n < size_output st /\
      (2 <= c <= size_input st + 1 \/
       size_input st + 2 <= c <= total_neurons st + 1)) ->
   neuron_input (calculate_output pattern st) n c = neuron_input st n c).
Proof.
  unfold calculate_output.
  assert (HI : forall (P : ed_state -> Z -> Prop)
                 (get : ed_state -> arr2),
             (forall i s, activation_frame s st ->
                ~ (n = i /\ P st c) ->
                get (output_network pattern i s) n c = get s n c) ->
             ~ (0 <= n < size_output st /\ P st c) ->
             get (for_loop 0 (size_output st - 1)
                    (output_network pattern) st) n c = get st n c).
  { intros P get Hstep Hout.
    apply (for_loop_inv
             (fun s => activation_frame s st /\ get s n c = get st n c));
      [|split; [apply activation_frame_refl | reflexivity]].
    intros i s Hi [Hf Hs]. split.
    - eapply activation_frame_trans; [apply output_network_frame | exact Hf].
    - rewrite <- Hs. apply Hstep; [exact Hf|].
      intros [-> HP]. apply Hout. split; [lia | exact HP]. }
  split.
  - apply (HI (fun s c => size_input s + 2 <= c <= total_neurons s + 1)
              neuron_output).
    intros i s Hf Hout.
    assert (Hsi : size_input s = size_input st) by apply Hf.
    assert (Htn : total_neurons s = total_neurons st) by apply Hf.
    apply output_network_untouched. now rewrite Hsi, Htn.
  - apply (HI (fun s c => 2 <= c <= size_input s + 1 \/
                          size_input s + 2 <= c <= total_neurons s + 1)
              neuron_input).
    intros i s Hf Hout.
    assert (Hsi : size_input s = size_input st) by apply Hf.
    assert (Htn : total_neurons s = total_neurons st) by apply Hf.
    apply output_network_untouched. now rewrite Hsi, Htn.
Qed.

(** X12: [calculate_output] writes activations only, and only those of the
    sub-networks [0 .. size_output-1]: output activations at the
    hidden/output indices [size_input+2 .. total_neurons+1], input
    activations at the input and hidden/output indices.  With a
    non-negative [size_input] the two bias inputs stay as they are. *)
Theorem calculate_output_writes_activations_only
  (pattern : Z -> R) (st : ed_state) :
  let st' := calculate_output pattern st in
  activation_frame st' st /\
  (forall n c,
     ~ (0 <= n < size_output st /\
        size_input st + 2 <= c <= total_neurons st + 1) ->
     neuron_output st' n c = neuron_output st n c) /\
  (forall n c,
     ~ (0 <= n < size_output st /\
        (2 <= c <= size_input st + 1 \/
         size_input st + 2 <= c <= total_neurons st + 1)) ->
     neuron_input st' n c = neuron_input st n c) /\
  (0 <= size_input st ->
   forall n, neuron_input st' n 0 = neuron_input st n 0 /\
             neuron_input st' n 1 = neuron_input st n 1).
Proof.
  intros st'. split; [apply calculate_output_frame|]. split; [|split].
  - intros n c. apply calculate_output_untouched.
  - intros n c. apply calculate_output_untouched.
  - intros Hsi n. split; apply calculate_output_untouched; lia.
Qed.

(** ** calculate_output: input distribution and feedback *)

Lemma output_network_presents pattern n st c :
  2 <= c <= size_input st + 1 ->
  neuron_input (output_network pattern n st) n c =
  pattern (Z.quot c 2 - 1).
Proof.
  intros Hc. unfold output_network.
  set (s1 := for_loop 2 _ _ st).
  set (s2 := if _ =? _ then _ else _).
  assert (H1 : activation_frame s1 st /\
               neuron_input s1 n c = pattern (Z.quot c 2 - 1)).
  { split.
    - subst s1. apply for_loop_activation_frame. intros; repeat split.
    - subst s1.
      apply (for_loop_establish (fun _ => True)
               (fun c s => neuron_input s n c = pattern (Z.quot c 2 - 1)));
        auto.
      + intros s a _ _. simpl. apply upd2_same.
      + intros s a b _ _ Hab Hq. simpl. rewrite upd2_other by congruence.
        exact Hq. }
  destruct H1 as (Hf1 & Hi1).
  assert (Hsi : size_input s1 = size_input st) by apply Hf1.
  assert (Htn : total_neurons s1 = total_neurons st) by apply Hf1.
  assert (H2 : activation_frame s2 st /\
               neuron_input s2 n c = pattern (Z.quot c 2 - 1)).
  { subst s2. destruct (_ =? _); [split; assumption|]. split.
    - eapply activation_frame_trans; [|exact Hf1].
      apply for_loop_activation_frame. intros; repeat split.
    - rewrite Hsi, Htn.
      apply (for_loop_inv
               (fun s => neuron_input s n c = pattern (Z.quot c 2 - 1)));
        [|exact Hi1].
      intros c' s Hc' Hs. simpl. rewrite upd2_other; [exact Hs|].
      intros E. inversion E; subst. lia. }
  destruct H2 as (Hf2 & Hi2).
  apply (for_loop_inv
           (fun s => activation_frame s st /\
                     neuron_input s n c = pattern (Z.quot c 2 - 1)));
    [|split; assumption].
  intros t s _ (Hf & Hs). split.
  - eapply activation_frame_trans; [apply timestep_body_frame | exact Hf].
  - assert (Hsi' : size_input s = size_input st) by apply Hf.
    destruct (timestep_body_untouched n s n c) as [_ E];
      [rewrite Hsi'; lia|].
    now rewrite E.
Qed.

Lemma calculate_output_presents pattern st n c :
  0 <= n < size_output st ->
  2 <= c <= size_input st + 1 ->
  neuron_input (calculate_output pattern st) n c = pattern (Z.quot c 2 - 1).
Proof.
  intros Hn Hc. unfold calculate_output.
  apply (for_loop_establish (fun s => activation_frame s st)
           (fun n s => neuron_input s n c = pattern (Z.quot c 2 - 1)));
    [| | |apply activation_frame_refl|lia].
  - intros s a _ Hs.
    eapply activation_frame_trans; [apply output_network_frame | exact Hs].
  - intros s a _ Hs.
    assert (Hsi : size_input s = size_input st) by apply Hs.
    apply output_network_presents. now rewrite Hsi.
  - intros s a b _ _ Hab Hq.
    destruct (output_network_untouched pattern b s a c) as [_ E].
    rewrite E; [exact Hq | tauto].
Qed.

(** X13: after [calculate_output], in every sub-network each input index
    [c] in [2 .. size_input+1] holds [pattern[c/2 - 1]]; so the excitatory
    and the inhibitory twin of a logical input [k] (indices [2k+2] and
    [2k+3]) receive the same value [pattern[k]]. *)
Theorem input_distribution (pattern : Z -> R) (st : ed_state) (n : Z) :
  0 <= n < size_output st ->
  let st' := calculate_output pattern st in
  (forall c, 2 <= c <= size_input st + 1 ->
     neuron_input st' n c = pattern (Z.quot c 2 - 1)) /\
  (forall k, 0 <= k -> 2 * k + 3 <= size_input st + 1 ->
     neuron_input st' n (2 * k + 2) = pattern k /\
     neuron_input st' n (2 * k + 3) = pattern k).
Proof.
  intros Hn st'. split.
  - intros c Hc. now apply calculate_output_presents.
  - intros k Hk Hk'. subst st'.
    rewrite !calculate_output_presents by lia.
    replace (Z.quot (2 * k + 2) 2 - 1) with k.
    + replace (Z.quot (2 * k + 3) 2 - 1) with k; [auto|].
      rewrite Z.quot_div_nonneg by lia.
      replace (2 * k + 3) with (1 + (k + 1) * 2) by lia.
      rewrite Z.div_add by lia. simpl. lia.
    + rewrite Z.quot_div_nonneg by lia.
      replace (2 * k + 2) with (0 + (k + 1) * 2) by lia.
      rewrite Z.div_add by lia. simpl. lia.
Qed.

Lemma input_distribution_witness :
  let st' := calculate_output (fun k => IZR k) sample_state in
  neuron_input st' 0 2 = IZR 0 /\ neuron_input st' 0 3 = IZR 0.
Proof.
  assert (Hn : 0 <= 0 < size_output sample_state) by (simpl; lia).
  destruct (input_distribution (fun k => IZR k) sample_state 0 Hn)
    as [_ H].
  apply (H 0); simpl; lia.
Defined.

Lemma timestep_body_feedback n st c :
  size_input st + 2 <= c <= total_neurons st + 1 ->
  neuron_input (timestep_body n st) n c =
  neuron_output (timestep_body n st) n c.
Proof.
  intros Hc. unfold timestep_body.
  set (s1 := for_loop _ _ (fun c s => assign_output n c _ s) st).
  assert (Hf1 : activation_frame s1 st).
  { subst s1. apply for_loop_activation_frame. intros; repeat split. }
  assert (Hsi : size_input s1 = size_input st) by apply Hf1.
  assert (Htn : total_neurons s1 = total_neurons st) by apply Hf1.
  rewrite Hsi, Htn.
  assert (Ho : neuron_output
                 (for_loop (size_input st + 2) (total_neurons st + 1)
                    (fun c s => assign_input n c (neuron_output s n c) s) s1)
               = neuron_output s1).
  { apply (for_loop_inv (fun s => neuron_output s = neuron_output s1));
      [|reflexivity]. intros c' s _ Hs. exact Hs. }
  rewrite Ho.
  apply (for_loop_establish (fun s => neuron_output s = neuron_output s1)
           (fun c s => neuron_input s n c = neuron_output s1 n c)); auto.
  - intros s a _ Hs. simpl. rewrite upd2_same. now rewrite Hs.
  - intros s a b _ _ Hab Hq. simpl. rewrite upd2_other by congruence.
    exact Hq.
Qed.

Lemma output_network_feedback pattern n st c :
  1 <= timesteps st ->
  size_input st + 2 <= c <= total_neurons st + 1 ->
  neuron_input (output_network pattern n st) n c =
  neuron_output (output_network pattern n st) n c.
Proof.
  intros Ht Hc. unfold output_network.
  set (s1 := for_loop 2 _ _ st).
  set (s2 := if _ =? _ then _ else _).
  assert (H2 : activation_frame s2 st).
  { subst s2 s1. destruct (_ =? _).
    - apply for_loop_activation_frame; intros; repeat split.
    - eapply activation_frame_trans; apply for_loop_activation_frame;
        intros; repeat split. }
  assert (Hts : timesteps s2 = timesteps st) by apply H2.
  apply (for_loop_establish (fun s => activation_frame s st)
           (fun (_ : Z) s => neuron_input s n c = neuron_output s n c))
    with (a := 1); [| | |exact H2|lia].
  - intros s a _ Hs.
    eapply activation_frame_trans; [apply timestep_body_frame | exact Hs].
  - intros s a _ Hs. apply timestep_body_feedback.
    assert (Hsi : size_input s = size_input st) by apply Hs.
    assert (Htn : total_neurons s = total_neurons st) by apply Hs.
    now rewrite Hsi, Htn.
  - intros s a b _ Hs _ _. apply timestep_body_feedback.
    assert (Hsi : size_input s = size_input st) by apply Hs.
    assert (Htn : total_neurons s = total_neurons st) by apply Hs.
    now rewrite Hsi, Htn.
Qed.

(** X14: after a forward pass of at least one timestep, every
    hidden/output neuron of every sub-network has its output activation
    copied back into its input activation. *)
Theorem output_fed_back (pattern : Z -> R) (st : ed_state) (n c : Z) :
  1 <= timesteps st ->
  0 <= n < size_output st ->
  size_input st + 2 <= c <= total_neurons st + 1 ->
  neuron_input (calculate_output pattern st) n c =
  neuron_output (calculate_output pattern st) n c.
Proof.
  intros Ht Hn Hc. unfold calculate_output.
  apply (for_loop_establish (fun s => activation_frame s st)
           (fun n s => neuron_input s n c = neuron_output s n c));
    [| | |apply activation_frame_refl|lia].
  - intros s a _ Hs.
    eapply activation_frame_trans; [apply output_network_frame | exact Hs].
  - intros s a _ Hs.
    assert (Hsi : size_input s = size_input st) by apply Hs.
    assert (Htn : total_neurons s = total_neurons st) by apply Hs.
    assert (Hts : timesteps s = timesteps st) by apply Hs.
    apply output_network_feedback; [rewrite Hts | rewrite Hsi, Htn]; assumption.
  - intros s a b _ _ Hab Hq.
    destruct (output_network_untouched pattern b s a c) as [Eo Ei].
    rewrite Eo, Ei; [exact Hq | tauto | tauto].
Qed.

Lemma output_fed_back_witness :
  neuron_input (calculate_output (fun _ => 1%R) sample_state) 0 5 =
  neuron_output (calculate_output (fun _ => 1%R) sample_state) 0 5.
Proof.
  apply (output_fed_back (fun _ => 1%R) sample_state 0 5); simpl; lia.
Defined.

(** ** calculate_output: what one timestep computes *)

Lemma map_seq_shift {A} (f : nat -> A) (a b : nat) :
  map f (seq a b) = map (fun k => f (a + k)%nat) (seq 0 b).
Proof.
  revert f a. induction b as [|b IH]; simpl; intros f a; [reflexivity|].
  f_equal; [f_equal; lia|].
  rewrite (IH f (S a)), (IH (fun k => f (a + k)%nat) 1%nat).
  apply map_ext. intros k. f_equal. lia.
Qed.

Lemma zrange_app lo mid hi :
  lo <= mid + 1 -> mid <= hi ->
  zrange lo hi = zrange lo mid ++ zrange (mid + 1) hi.
Proof.
  intros H1 H2. unfold zrange.
  replace (Z.to_nat (hi + 1 - lo))
    with (Z.to_nat (mid + 1 - lo) + Z.to_nat (hi + 1 - (mid + 1)))%nat by lia.
  rewrite seq_app, map_app. f_equal. simpl.
  rewrite map_seq_shift. apply map_ext. intros k. lia.
Qed.

Lemma fold_sum_ext (f g : Z -> R) (l : list Z) (a : R) :
  (forall k, In k l -> f k = g k) ->
  fold_left (fun acc k => (acc + f k)%R) l a =
  fold_left (fun acc k => (acc + g k)%R) l a.
Proof.
  revert a. induction l as [|k l IH]; simpl; intros a H; [reflexivity|].
  rewrite (H k) by auto. apply IH. auto.
Qed.

Lemma fold_sum_zero (f : Z -> R) (l : list Z) (a : R) :
  (forall k, In k l -> f k = 0%R) ->
  fold_left (fun acc k => (acc + f k)%R) l a = a.
Proof.
  revert a. induction l as [|k l IH]; simpl; intros a H; [reflexivity|].
  rewrite (H k) by auto. rewrite Rplus_0_r. apply IH. auto.
Qed.

Lemma sigmoid_ext s1 s2 x y :
  sigmoid_steepness s1 = sigmoid_steepness s2 -> x = y ->
  sigmoid s1 x = sigmoid s2 y.
Proof. intros H ->. unfold sigmoid. now rewrite H. Qed.

Lemma weighted_sum_ext s1 s2 n c :
  total_neurons s1 = total_neurons s2 ->
  weights s1 = weights s2 ->
  (forall k, neuron_input s1 n k = neuron_input s2 n k) ->
  weighted_sum s1 n c = weighted_sum s2 n c.
Proof.
  intros Htn Hw Hi. unfold weighted_sum. rewrite Htn, Hw.
  apply (fold_sum_ext
           (fun k => (weights s2 n c k * neuron_input s1 n k)%R)
           (fun k => (weights s2 n c k * neuron_input s2 n k)%R)).
  intros k _. now rewrite Hi.
Qed.

Lemma timestep_body_computes n st c :
  size_input st + 2 <= c <= total_neurons st + 1 ->
  neuron_output (timestep_body n st) n c =
  sigmoid st (weighted_sum st n c).
Proof.
  intros Hc. unfold timestep_body.
  set (s1 := for_loop _ _ (fun c s => assign_output n c _ s) st).
  assert (Hf1 : activation_frame s1 st).
  { subst s1. apply for_loop_activation_frame. intros; repeat split. }
  assert (Hsi : size_input s1 = size_input st) by apply Hf1.
  assert (Htn : total_neurons s1 = total_neurons st) by apply Hf1.
  rewrite Hsi, Htn.
  assert (Ho : neuron_output
                 (for_loop (size_input st + 2) (total_neurons st + 1)
                    (fun c s => assign_input n c (neuron_output s n c) s) s1)
               = neuron_output s1).
  { apply (for_loop_inv (fun s => neuron_output s = neuron_output s1));
      [|reflexivity]. intros c' s _ Hs. exact Hs. }
  rewrite Ho. subst s1.
  apply (for_loop_establish
           (fun s => activation_frame s st /\
                     neuron_input s = neuron_input st)
           (fun c s => neuron_output s n c =
                       sigmoid st (weighted_sum st n c)));
    [| | |split; [apply activation_frame_refl | reflexivity]|exact Hc].
  - intros s a _ [Hs Hi]. split; [|exact Hi].
    eapply activation_frame_trans; [|exact Hs]. repeat split.
  - intros s a _ [Hs Hi]. simpl. rewrite upd2_same.
    apply sigmoid_ext; [apply Hs|].
    apply weighted_sum_ext; [apply Hs | apply Hs | now rewrite Hi].
  - intros s a b _ _ Hab Hq. simpl. rewrite upd2_other by congruence.
    exact Hq.
Qed.

(** X15: one timestep is a synchronous update: every hidden/output neuron
    of the sub-network gets the sigmoid of the weighted sum over the input
    activations as they stood when the timestep began (a neuron updated
    earlier in the same sweep is still read at its old value), and that
    value is also stored back as its input activation. *)
Theorem timestep_synchronous (n : Z) (st : ed_state) (c : Z) :
  size_input st + 2 <= c <= total_neurons st + 1 ->
  neuron_output (timestep_body n st) n c = sigmoid st (weighted_sum st n c) /\
  neuron_input (timestep_body n st) n c = sigmoid st (weighted_sum st n c).
Proof.
  intros Hc. rewrite timestep_body_feedback by exact Hc.
  split; now apply timestep_body_computes.
Qed.

Lemma timestep_synchronous_witness :
  neuron_output (timestep_body 0 sample_state) 0 5 =
    sigmoid sample_state (weighted_sum sample_state 0 5) /\
  neuron_input (timestep_body 0 sample_state) 0 5 =
    sigmoid sample_state (weighted_sum sample_state 0 5).
Proof.
  apply (timestep_synchronous 0 sample_state 5); simpl; lia.
Defined.

Lemma output_network_feed_forward pattern n st c :
  config_flags st 6 <> 0 ->
  timesteps st = 1 ->
  0 <= size_input st ->
  size_input st + 2 <= c <= total_neurons st + 1 ->
  neuron_output (output_network pattern n st) n c =
  sigmoid st
    (fold_left
       (fun acc k =>
          (acc + weights st n c k *
                 (if k <? 2 then neuron_input st n k
                  else pattern (Z.quot k 2 - 1)%Z))%R)
       (zrange 0 (size_input st + 1)) 0%R).
Proof.
  intros H6 Ht Hsi0 Hc. unfold output_network.
  set (s1 := for_loop 2 _ _ st).
  assert (H1 : activation_frame s1 st /\
               forall k,
                 neuron_input s1 n k =
                 if (2 <=? k) && (k <=? size_input st + 1)
                 then pattern (Z.quot k 2 - 1) else neuron_input st n k).
  { subst s1. split.
    - apply for_loop_activation_frame. intros; repeat split.
    - intros k.
      destruct (Z.leb_spec 2 k) as [Hk1|Hk1];
        [destruct (Z.leb_spec k (size_input st + 1)) as [Hk2|Hk2]|]; simpl.
      + apply (for_loop_establish (fun _ => True)
                 (fun c s => neuron_input s n c = pattern (Z.quot c 2 - 1)));
          auto.
        * intros s a _ _. simpl. apply upd2_same.
        * intros s a b _ _ Hab Hq. simpl.
          rewrite upd2_other by congruence. exact Hq.
      + apply (for_loop_inv
                 (fun s => neuron_input s n k = neuron_input st n k));
          [|reflexivity].
        intros c' s Hc' Hs. simpl. rewrite upd2_other; [exact Hs|].
        intros E. inversion E; subst. lia.
      + apply (for_loop_inv
                 (fun s => neuron_input s n k = neuron_input st n k));
          [|reflexivity].
        intros c' s Hc' Hs. simpl. rewrite upd2_other; [exact Hs|].
        intros E. inversion E; subst. lia. }
  destruct H1 as (Hf1 & Hi1).
  assert (E6 : (config_flags s1 6 =? 0) = false).
  { replace (config_flags s1) with (config_flags st)
      by (symmetry; apply Hf1). now apply Z.eqb_neq. }
  rewrite E6.
  assert (Hsi : size_input s1 = size_input st) by apply Hf1.
  assert (Htn : total_neurons s1 = total_neurons st) by apply Hf1.
  rewrite Hsi, Htn.
  set (s2 := for_loop (size_input st + 2) _ _ s1).
  assert (Hf2 : activation_frame s2 st).
  { eapply activation_frame_trans; [|exact Hf1]. subst s2.
    apply for_loop_activation_frame. intros; repeat split. }
  assert (Hi2 : forall k,
             neuron_input s2 n k =
             if (size_input st + 2 <=? k) && (k <=? total_neurons st + 1)
             then 0%R else neuron_input s1 n k).
  { intros k. subst s2.
    destruct (Z.leb_spec (size_input st + 2) k) as [Hk1|Hk1];
      [destruct (Z.leb_spec k (total_neurons st + 1)) as [Hk2|Hk2]|]; simpl.
    - apply (for_loop_establish (fun _ => True)
               (fun c s => neuron_input s n c = 0%R)); auto.
      + intros s a _ _. simpl. apply upd2_same.
      + intros s a b _ _ Hab Hq. simpl.
        rewrite upd2_other by congruence. exact Hq.
    - apply (for_loop_inv
               (fun s => neuron_input s n k = neuron_input s1 n k));
        [|reflexivity].
      intros c' s Hc' Hs. simpl. rewrite upd2_other; [exact Hs|].
      intros E. inversion E; subst. lia.
    - apply (for_loop_inv
               (fun s => neuron_input s n k = neuron_input s1 n k));
        [|reflexivity].
      intros c' s Hc' Hs. simpl. rewrite upd2_other; [exact Hs|].
      intros E. inversion E; subst. lia. }
  assert (Hts : timesteps s2 = 1) by (rewrite <- Ht; apply Hf2).
  rewrite Hts.
  change (for_loop 1 1 (fun _ s => timestep_body n s) s2)
    with (timestep_body n s2).
  assert (Hsi2 : size_input s2 = size_input st) by apply Hf2.
  assert (Htn2 : total_neurons s2 = total_neurons st) by apply Hf2.
  assert (Hw2 : weights s2 = weights st) by apply Hf2.
  assert (Hst2 : sigmoid_steepness s2 = sigmoid_steepness st) by apply Hf2.
  rewrite timestep_body_computes by (rewrite Hsi2, Htn2; exact Hc).
  apply sigmoid_ext; [exact Hst2|].
  unfold weighted_sum. rewrite Htn2, Hw2.
  rewrite (zrange_app 0 (size_input st + 1) (total_neurons st + 1)) by lia.
  rewrite fold_left_app.
  replace (size_input st + 1 + 1) with (size_input st + 2) by lia.
  rewrite (fold_sum_zero
             (fun k => (weights st n c k * neuron_input s2 n k)%R)).
  - apply (fold_sum_ext
             (fun k => (weights st n c k * neuron_input s2 n k)%R)
             (fun k => (weights st n c k *
                        (if k <? 2 then neuron_input st n k
                         else pattern (Z.quot k 2 - 1)%Z))%R)).
    intros k Hk. apply in_zrange in Hk. f_equal.
    rewrite Hi2, Hi1.
    destruct (Z.leb_spec (size_input st + 2) k); [lia|]. simpl.
    destruct (Z.ltb_spec k 2), (Z.leb_spec 2 k); try lia; simpl;
      [reflexivity|].
    destruct (Z.leb_spec k (size_input st + 1)); [reflexivity | lia].
  - intros k Hk. apply in_zrange in Hk. rewrite Hi2.
    destruct (Z.leb_spec (size_input st + 2) k); [|lia].
    destruct (Z.leb_spec k (total_neurons st + 1)); [|lia].
    simpl. apply Rmult_0_r.
Qed.

(** X16: with loop cutting enabled and a single timestep the forward pass
    is purely feed-forward: every hidden/output activation is the sigmoid
    of the weighted sum over the two bias inputs and the presented pattern
    alone, whatever activations the previous pattern left behind. *)
Theorem single_timestep_feed_forward
  (pattern : Z -> R) (st : ed_state) (n c : Z) :
  config_flags st 6 <> 0 ->
  timesteps st = 1 ->
  0 <= size_input st ->
  0 <= n < size_output st ->
  size_input st + 2 <= c <= total_neurons st + 1 ->
  neuron_output (calculate_output pattern st) n c =
  sigmoid st
    (fold_left
       (fun acc k =>
          (acc + weights st n c k *
                 (if k <? 2 then neuron_input st n k
                  else pattern (Z.quot k 2 - 1)%Z))%R)
       (zrange 0 (size_input st + 1)) 0%R).
Proof.
  intros H6 Ht Hsi0 Hn Hc. unfold calculate_output.
  apply (for_loop_establish
           (fun s => activation_frame s st /\
                     forall k, k < 2 ->
                       neuron_input s n k = neuron_input st n k)
           (fun n' s =>
              n' = n ->
              neuron_output s n c =
              sigmoid st
                (fold_left
                   (fun acc k =>
                      (acc + weights st n c k *
                             (if k <? 2 then neuron_input st n k
                              else pattern (Z.quot k 2 - 1)%Z))%R)
                   (zrange 0 (size_input st + 1)) 0%R)))
    with (a := n);
    [| | |split; [apply activation_frame_refl | reflexivity]|lia|reflexivity].
  - intros s a _ [Hs Hb]. split.
    + eapply activation_frame_trans; [apply output_network_frame | exact Hs].
    + intros k Hk.
      assert (Hsi : size_input s = size_input st) by apply Hs.
      destruct (output_network_untouched pattern a s n k) as [_ E].
      rewrite E; [now apply Hb|]. rewrite Hsi. lia.
  - intros s a _ [Hs Hb] ->.
    assert (Hsi : size_input s = size_input st) by apply Hs.
    assert (Htn : total_neurons s = total_neurons st) by apply Hs.
    assert (Hts : timesteps s = timesteps st) by apply Hs.
    assert (Hw : weights s = weights st) by apply Hs.
    assert (Hst : sigmoid_steepness s = sigmoid_steepness st) by apply Hs.
    assert (Hfl : config_flags s = config_flags st) by apply Hs.
    rewrite output_network_feed_forward;
      [|rewrite Hfl; assumption|rewrite Hts; assumption
       |rewrite Hsi; assumption|rewrite Hsi, Htn; assumption].
    apply sigmoid_ext; [exact Hst|]. rewrite Hsi, Hw.
    apply (fold_sum_ext
             (fun k => (weights st n c k *
                        (if k <? 2 then neuron_input s n k
                         else pattern (Z.quot k 2 - 1)%Z))%R)
             (fun k => (weights st n c k *
                        (if k <? 2 then neuron_input st n k
                         else pattern (Z.quot k 2 - 1)%Z))%R)).
    intros k _. destruct (Z.ltb_spec k 2); [|reflexivity].
    now rewrite Hb.
  - intros s a b _ _ Hab Hq ->.
    destruct (output_network_untouched pattern b s n c) as [E _].
    rewrite E; [now apply Hq|]. intros [-> _]. now apply Hab.
Qed.

Lemma single_timestep_feed_forward_witness :
  neuron_output (calculate_output (fun _ => 1%R) single_step_state) 0 5 =
  sigmoid single_step_state
    (fold_left
       (fun acc k =>
          (acc + weights single_step_state 0 5 k *
                 (if k <? 2 then neuron_input single_step_state 0 k
                  else (fun _ => 1%R) (Z.quot k 2 - 1)%Z))%R)
       (zrange 0 (size_input single_step_state + 1)) 0%R).
Proof.
  apply (single_timestep_feed_forward (fun _ => 1%R) single_step_state 0 5);
    try reflexivity; try (simpl; lia).
  vm_compute. discriminate.
Defined.

(** ** calculate_learning: the two error counters and the cells written *)

Lemma record_error_counters target n st :
  error_total (record_error target n st) =
    (error_total st + Rabs (prediction_error target st n))%R /\
  error_count (record_error target n st) =
    error_count st + (if large_error (prediction_error target st n)
                      then 1 else 0).
Proof.
  unfold record_error, large_error, prediction_error.
  destruct (Rlt_dec 0.5 _), (Rlt_dec 0 _); simpl; split;
    solve [reflexivity | lia].
Qed.

Lemma record_error_untouched target n st n' c ch :
  ~ (n' = n /\ c = size_input st + 2 /\ 0 <= ch <= 1) ->
  error_delta (record_error target n st) n' c ch = error_delta st n' c ch.
Proof.
  intros H. unfold record_error.
  destruct (Rlt_dec 0.5 _), (Rlt_dec 0 _); simpl;
    rewrite !upd3_other; try reflexivity;
    intros E; inversion E; subst; apply H; lia.
Qed.

Lemma broadcast_error_counters n exc inh st :
  error_total (broadcast_error n exc inh st) = error_total st /\
  error_count (broadcast_error n exc inh st) = error_count st.
Proof.
  unfold broadcast_error.
  apply (for_loop_inv
           (fun s => error_total s = error_total st /\
                     error_count s = error_count st)); [|auto].
  intros c s _ H. exact H.
Qed.

Lemma broadcast_error_channels n exc inh st n' c ch :
  ~ (n' = n /\ size_input st + 3 <= c <= total_neurons st + 1 /\
     0 <= ch <= 1) ->
  error_delta (broadcast_error n exc inh st) n' c ch = error_delta st n' c ch.
Proof.
  intros H. unfold broadcast_error.
  apply (for_loop_inv
           (fun s => error_delta s n' c ch = error_delta st n' c ch));
    [|reflexivity].
  intros i s Hi Hs. simpl. rewrite !upd3_other; [exact Hs | |];
    intros E; inversion E; subst; apply H; lia.
Qed.

Lemma learning_step_counters target n st :
  error_total (learning_step target n st) =
    (error_total st + Rabs (prediction_error target st n))%R /\
  error_count (learning_step target n st) =
    error_count st + (if large_error (prediction_error target st n)
                      then 1 else 0).
Proof.
  unfold learning_step.
  destruct (broadcast_error_counters n
              (error_delta (record_error target n st) n
                 (size_input (record_error target n st) + 2) 0)
              (error_delta (record_error target n st) n
                 (size_input (record_error target n st) + 2) 1)
              (record_error target n st)) as [Et Ec].
  rewrite Et, Ec. apply record_error_counters.
Qed.

Lemma learning_step_untouched target n st n' c ch :
  ~ (n' = n /\
     (c = size_input st + 2 \/
      size_input st + 3 <= c <= total_neurons st + 1) /\
     0 <= ch <= 1) ->
  error_delta (learning_step target n st) n' c ch = error_delta st n' c ch.
Proof.
  intros H. unfold learning_step.
  destruct (record_error_frame target n st) as (_ & Hsi & Htn & _).
  rewrite broadcast_error_channels by (rewrite Hsi, Htn; tauto).
  apply record_error_untouched. tauto.
Qed.

Lemma learning_steps_counters target st (l : list Z) :
  forall s, learning_frame s st ->
    error_total (fold_left (fun s n => learning_step target n s) l s) =
      (error_total s +
       fold_right Rplus 0%R
         (map Rabs (map (prediction_error target st) l)))%R /\
    error_count (fold_left (fun s n => learning_step target n s) l s) =
      error_count s +
      Z.of_nat (length (filter large_error
                          (map (prediction_error target st) l))).
Proof.
  induction l as [|n l IH]; simpl; intros s Hs.
  - split; [lra | lia].
  - destruct (IH (learning_step target n s)) as [Et Ec].
    { eapply learning_frame_trans; [apply learning_step_frame | exact Hs]. }
    destruct (learning_step_counters target n s) as [Et1 Ec1].
    assert (Ep : prediction_error target s n = prediction_error target st n).
    { unfold prediction_error. destruct Hs as (Ho & Hsi & _).
      now rewrite Ho, Hsi. }
    rewrite Et, Ec, Et1, Ec1, Ep. split; [lra|].
    destruct (large_error (prediction_error target st n)); simpl; lia.
Qed.

(** X17: over one call [calculate_learning] adds to [error_total] the sum
    of the absolute prediction errors of the sub-networks
    [0 .. size_output-1] and to [error_count] the number of those whose
    absolute error exceeds 0.5; it never resets either counter. *)
Theorem error_counters_accumulate (target : Z -> R) (st : ed_state) :
  let errs :=
    map (prediction_error target st) (zrange 0 (size_output st - 1)) in
  error_total (calculate_learning target st) =
    (error_total st + fold_right Rplus 0%R (map Rabs errs))%R /\
  error_count (calculate_learning target st) =
    error_count st + Z.of_nat (length (filter large_error errs)).
Proof.
  intros errs. unfold calculate_learning, for_loop.
  apply learning_steps_counters. apply learning_frame_refl.
Qed.

(** X18: [calculate_learning] writes the error table and the two error
    counters only, and in the table only the two channels of the output
    slot [size_input+2] and of the hidden neurons
    [size_input+3 .. total_neurons+1] of the sub-networks
    [0 .. size_output-1]. *)
Theorem calculate_learning_writes_errors_only
  (target : Z -> R) (st : ed_state) :
  let st' := calculate_learning target st in
  learning_frame st' st /\
  (forall n c ch,
     ~ (0 <= n < size_output st /\
        (c = size_input st + 2 \/
         size_input st + 3 <= c <= total_neurons st + 1) /\
        0 <= ch <= 1) ->
     error_delta st' n c ch = error_delta st n c ch).
Proof.
  intros st'. split; [apply calculate_learning_frame|].
  intros n c ch H. subst st'. unfold calculate_learning.
  apply (for_loop_inv
           (fun s => learning_frame s st /\
                     error_delta s n c ch = error_delta st n c ch));
    [|split; [apply learning_frame_refl | reflexivity]].
  intros i s Hi [Hs He]. split.
  - eapply learning_frame_trans; [apply learning_step_frame | exact Hs].
  - rewrite <- He. destruct Hs as (_ & Hsi & Htn & _).
    apply learning_step_untouched. rewrite Hsi, Htn.
    intros (-> & Hc & Hch). apply H. split; [lia | tauto].
Qed.

(** ** calculate_weight: the other mode, and when nothing changes *)

(** X19: in bidirectional mode (flag 10 is 1) one update step adds to
    every nonzero weight the loops visit
    [delta * polarity[target] * (excitatoryError[target] -
    inhibitoryError[target])], whatever the polarity of the source. *)
Theorem bidirectional_update_rule (st : ed_state) (n c k : Z) :
  in_update_range st n c k ->
  config_flags st 10 = 1 ->
  weights st n c k <> 0%R ->
  weights (calculate_weight st) n c k =
  (weights st n c k +
   learning_rate st * neuron_input st n k *
   Rabs (neuron_output st n c) * (1 - Rabs (neuron_output st n c)) *
   weights_oscillating st c *
   (error_delta st n c 0 - error_delta st n c 1))%R.
Proof.
  intros Hr Hflag Hw.
  rewrite calculate_weight_in_range by assumption.
  unfold cell_update, base_delta.
  destruct (Req_dec_T _ _) as [E|_]; [contradiction|].
  destruct (Z.eqb_spec (config_flags st 10) 1) as [_|E]; [|contradiction].
  reflexivity.
Qed.

Lemma bidirectional_update_rule_witness :
  let st := bidirectional_state in
  weights (calculate_weight st) 0 4 2 =
  (weights st 0 4 2 +
   learning_rate st * neuron_input st 0 2 *
   Rabs (neuron_output st 0 4) * (1 - Rabs (neuron_output st 0 4)) *
   weights_oscillating st 4 *
   (error_delta st 0 4 0 - error_delta st 0 4 1))%R.
Proof.
  intros st.
  apply (bidirectional_update_rule st 0 4 2).
  - unfold in_update_range. simpl. lia.
  - reflexivity.
  - simpl. lra.
Defined.

Lemma calculate_weight_no_signal (st : ed_state) (n c k : Z) :
  learning_rate st = 0%R \/ neuron_input st n k = 0%R \/
  neuron_output st n c = 0%R \/ Rabs (neuron_output st n c) = 1%R \/
  (error_delta st n c 0 = 0%R /\ error_delta st n c 1 = 0%R) ->
  weights (calculate_weight st) n c k = weights st n c k.
Proof.
  intros H.
  destruct (in_update_range_dec st n c k) as [Hr|Hr];
    [|now apply calculate_weight_out_of_range].
  rewrite calculate_weight_in_range by assumption.
  unfold cell_update, base_delta.
  destruct (Req_dec_T _ _) as [E|_]; [reflexivity|].
  assert (Hd : (learning_rate st * neuron_input st n k *
                Rabs (neuron_output st n c) *
                (1 - Rabs (neuron_output st n c)) = 0)%R \/
               (error_delta st n c 0 = 0%R /\ error_delta st n c 1 = 0%R)).
  { destruct H as [H | [H | [H | [H | H]]]]; [left .. | right; exact H].
    - rewrite H. ring.
    - rewrite H. ring.
    - rewrite H, Rabs_R0. ring.
    - rewrite H. ring. }
  destruct Hd as [Hd|[H0 H1]].
  - rewrite Hd. destruct (_ =? _); [|destruct (Rlt_dec _ _)]; ring.
  - rewrite H0, H1. destruct (_ =? _); [|destruct (Rlt_dec _ _)]; ring.
Qed.

(** X20: a weight is left as it is whenever one factor of its update
    vanishes: a zero learning rate, an inactive source, a target whose
    output is 0 or of absolute value 1, or no error on either channel of
    the target. *)
Theorem weight_needs_signal (st : ed_state) (n c k : Z) :
  learning_rate st = 0%R \/ neuron_input st n k = 0%R \/
  neuron_output st n c = 0%R \/ Rabs (neuron_output st n c) = 1%R \/
  (error_delta st n c 0 = 0%R /\ error_delta st n c 1 = 0%R) ->
  weights (calculate_weight st) n c k = weights st n c k.
Proof. apply calculate_weight_no_signal. Qed.

Lemma weight_needs_signal_witness :
  let st := set_error_delta (fun _ _ _ => 0%R) sample_state in
  weights (calculate_weight st) 0 4 2 = weights st 0 4 2.
Proof.
  intros st. apply (weight_needs_signal st 0 4 2).
  right; right; right; right. split; reflexivity.
Defined.

(** X21: a training step on a pattern the network already predicts
    exactly leaves the whole weight matrix as it is. *)
Theorem perfect_prediction_fixed_point
  (pattern target : Z -> R) (st : ed_state) :
  (forall n, 0 <= n < size_output st ->
     target n =
     neuron_output (calculate_output pattern st) n (size_input st + 2)) ->
  forall n c k,
    weights (calculate_network pattern target st) n c k = weights st n c k.
Proof.
  intros Hexact n c k. unfold calculate_network.
  set (s1 := calculate_output pattern st) in *.
  set (s2 := calculate_learning target s1).
  assert (Hw : weights s2 = weights st).
  { subst s2 s1.
    now rewrite calculate_learning_weights, calculate_output_weights. }
  destruct (calculate_output_frame pattern st)
    as (Hsi1 & Hso1 & _ & _ & Htn1 & _).
  fold s1 in Hsi1, Hso1, Htn1.
  destruct (calculate_learning_frame target s1)
    as (_ & Hsi2 & Htn2 & _ & Hso2 & _).
  fold s2 in Hsi2, Htn2, Hso2.
  destruct (in_update_range_dec s2 n c k) as [Hr|Hr];
    [|rewrite calculate_weight_out_of_range by assumption; now rewrite Hw].
  rewrite <- Hw. apply calculate_weight_no_signal.
  right; right; right; right.
  destruct Hr as (Hn & Hc & _).
  rewrite Hso2, Hso1 in Hn. rewrite Hsi2, Htn2 in Hc.
  pose proof (calculate_learning_row target s1 n) as Hrow.
  fold s2 in Hrow. unfold diffused_row in Hrow.
  rewrite Hsi1 in Hrow. rewrite <- (Hexact n Hn) in Hrow.
  replace (target n - target n)%R with 0%R in Hrow by ring.
  assert (E0 : excitatory_channel 0 = 0%R).
  { unfold excitatory_channel. destruct (Rlt_dec 0 0); [lra | reflexivity]. }
  assert (E1 : inhibitory_channel 0 = 0%R).
  { unfold inhibitory_channel. destruct (Rlt_dec 0 0); lra. }
  rewrite E0, E1 in Hrow.
  destruct Hrow as (H0 & H1 & Hh); [rewrite Hso1; exact Hn|].
  destruct (Z.eq_dec c (size_input st + 2)) as [->|Hne].
  - split; assumption.
  - destruct (Hh c) as [Hc0 Hc1]; [rewrite Hsi1, Htn1 in Hc; lia|].
    rewrite Hc0, Hc1. split; ring.
Qed.

Lemma perfect_prediction_fixed_point_witness :
  let pattern := fun _ : Z => 1%R in
  let target := fun n : Z =>
    neuron_output (calculate_output pattern sample_state) n
      (size_input sample_state + 2) in
  weights (calculate_network pattern target sample_state) 0 4 2 =
  weights sample_state 0 4 2.
Proof.
  intros pattern target.
  apply (perfect_prediction_fixed_point pattern target sample_state).
  intros n _. reflexivity.
Defined.

Lemma magnitude_grows (w D p : R) :
  w <> 0%R -> signage w = p -> (0 <= D)%R ->
  (Rabs w <= Rabs (w + D * p))%R.
Proof.
  intros Hw Hs HD.
  destruct (signage_cases w) as [[H E]|[[H E]|[H E]]]; rewrite E in Hs; subst p.
  - rewrite !Rabs_pos_eq by lra. lra.
  - contradiction.
  - rewrite !Rabs_left1 by lra. lra.
Qed.

(** X22: in selective mode, on a state that satisfies the sign constraint
    with non-negative activations, errors and learning rate, a weight
    update never makes a weight smaller in absolute value: connections only
    grow stronger. *)
Theorem selective_weights_never_shrink (st : ed_state) (n c k : Z) :
  training_inv st ->
  (Rabs (weights st n c k) <= Rabs (weights (calculate_weight st) n c k))%R.
Proof.
  intros (Hs & Hi & Ho & He & Hl & _ & Hf).
  destruct (in_update_range_dec st n c k) as [Hr|Hr];
    [|rewrite calculate_weight_out_of_range by assumption; lra].
  rewrite calculate_weight_in_range by assumption.
  unfold cell_update.
  destruct (Req_dec_T _ _) as [E|E]; [lra|].
  destruct (Z.eqb_spec (config_flags st 10) 1); [contradiction|].
  pose proof (base_delta_nonneg st n c k Hl (Hi n k) (Ho n c)) as Hd.
  destruct (Hs n c k) as [Hz|Hsg]; [contradiction|].
  destruct (Rlt_dec 0 (weights_oscillating st k)).
  - replace (base_delta st n c k * error_delta st n c 0 *
             weights_oscillating st k * weights_oscillating st c)%R
      with (base_delta st n c k * error_delta st n c 0 *
            (weights_oscillating st k * weights_oscillating st c))%R by ring.
    apply magnitude_grows; auto. apply Rmult_le_pos; auto.
  - replace (base_delta st n c k * error_delta st n c 1 *
             weights_oscillating st k * weights_oscillating st c)%R
      with (base_delta st n c k * error_delta st n c 1 *
            (weights_oscillating st k * weights_oscillating st c))%R by ring.
    apply magnitude_grows; auto. apply Rmult_le_pos; auto.
Qed.

Lemma selective_weights_never_shrink_witness :
  let st :=
    calculate_learning (fun _ => 1%R)
      (calculate_output (fun _ => 1%R)
         (init_network 2 1 1 0 (default_params (fun _ => 5000%nat)))) in
  (Rabs (weights st 0 4 0) <= Rabs (weights (calculate_weight st) 0 4 0))%R /\
  weights st 0 4 0 = 0.5%R /\
  (0.5 < weights (calculate_weight st) 0 4 0)%R.
Proof.
  intros st.
  set (s0 := init_network 2 1 1 0 (default_params (fun _ => 5000%nat))) in *.
  set (s1 := calculate_output (fun _ => 1%R) s0) in *.
  assert (Hinv : training_inv st).
  { apply calculate_learning_inv, calculate_output_inv; [intros i; lra|].
    apply init_network_inv;
      [repeat split | simpl; lra | simpl; lra | simpl; lra | simpl; lra
      | simpl; lra | simpl; discriminate]. }
  split; [apply (selective_weights_never_shrink st 0 4 0 Hinv)|].
  assert (Hw0 : weights s0 0 4 0 = 0.5%R).
  { subst s0. lazy -[IZR Rmult Rdiv Rplus Rminus Ropp Rinv]. lra. }
  assert (Hpk0 : weights_oscillating s0 0 = 1%R).
  { subst s0. lazy -[IZR Rmult Rdiv Rplus Rminus Ropp Rinv]. reflexivity. }
  assert (Hpc0 : weights_oscillating s0 4 = 1%R).
  { subst s0. lazy -[IZR Rmult Rdiv Rplus Rminus Ropp Rinv]. reflexivity. }
  assert (Hin0 : neuron_input s0 0 0 = 0.8%R).
  { subst s0. rewrite init_network_inputs. reflexivity. }
  assert (Hd0 : size_input s0 = 2 /\ size_output s0 = 1 /\
                total_neurons s0 = 4 /\ timesteps s0 = 2 /\
                config_flags s0 10 = 0 /\ learning_rate s0 = 0.8%R).
  { destruct (init_network_dims 2 1 1 0
                (default_params (fun _ => 5000%nat)))
      as (Hsi0 & Hso0 & _ & _ & Htn0).
    destruct (init_network_kept 2 1 1 0
                (default_params (fun _ => 5000%nat)))
      as (Hfl0 & _ & _ & _ & Hlr0 & _ & _ & Hts0 & _).
    fold s0 in Hsi0, Hso0, Htn0, Hfl0, Hlr0, Hts0.
    rewrite Hsi0, Hso0, Htn0, Hfl0, Hlr0, Hts0. repeat split. }
  destruct Hd0 as (Hsi0 & Hso0 & Htn0 & Hts0 & Hfl0 & Hlr0).
  pose proof (calculate_output_frame (fun _ => 1%R) s0) as Hf1.
  pose proof (calculate_output_untouched (fun _ => 1%R) s0 0 0) as [_ Hu1].
  pose proof (calculate_output_fills (fun _ => 1%R) s0 0 4) as Hfill.
  fold s1 in Hf1, Hu1, Hfill.
  pose proof (calculate_learning_frame (fun _ => 1%R) s1) as Hf2.
  pose proof (calculate_learning_row (fun _ => 1%R) s1 0) as Hrow.
  fold st in Hf2, Hrow.
  clearbody st s1 s0.
  destruct Hf1 as (Hsi1 & Hso1 & _ & _ & Htn1 & _ & Hw1 & Hp1 & Hlr1 & _ &
                   _ & _ & _ & _ & Hfl1 & _).
  destruct Hf2 as (Ho2 & Hsi2 & Htn2 & _ & Hso2 & _ & _ & Hi2 & Hw2 & Hp2 &
                   Hlr2 & _ & _ & Hfl2 & _).
  assert (Ho : unit_open (neuron_output s1 0 4))
    by (apply Hfill; lia).
  destruct Hrow as (He & _); [lia|].
  rewrite Hsi1, Hsi0 in He. change (2 + 2) with 4 in He.
  unfold excitatory_channel in He.
  destruct Ho as [Ho0 Ho1].
  destruct (Rlt_dec 0 (1 - neuron_output s1 0 4)) as [_|E]; [|lra].
  assert (Hw : weights st 0 4 0 = 0.5%R) by (rewrite Hw2, Hw1; exact Hw0).
  split; [exact Hw|].
  rewrite calculate_weight_in_range by (unfold in_update_range; lia).
  unfold cell_update, base_delta.
  rewrite Hw, He, Hp2, Hp1, Hpk0, Hpc0, Hi2, Hu1, Hin0, Ho2, Hfl2, Hfl1,
    Hfl0, Hlr2, Hlr1, Hlr0 by lia.
  destruct (Req_dec_T 0.5 0) as [E|_]; [lra|].
  change (0 =? 1) with false. cbv iota.
  destruct (Rlt_dec 0 1) as [_|E]; [|lra].
  rewrite Rabs_pos_eq by lra.
  set (o := neuron_output s1 0 4) in *.
  assert (0 < o * (1 - o) * (1 - o))%R
    by (repeat apply Rmult_lt_0_compat; lra).
  nra.
Defined.

(** ** write_output_neuron: the digit display *)

(** X23: the compact display of [write_output_neuron] prints one decimal
    digit per neuron: for an activation of absolute value at most 1 the
    number printed lies between 0 and 9, and so does the one printed for
    every hidden/output activation of sub-network 0 after a forward pass of
    at least one timestep. *)
Theorem activation_digit_single :
  (forall x, (Rabs x <= 1)%R -> 0 <= activation_digit x <= 9) /\
  (forall pattern st c,
     1 <= timesteps st -> 0 < size_output st ->
     size_input st + 2 <= c <= total_neurons st + 1 ->
     0 <= activation_digit
            (neuron_output (calculate_output pattern st) 0 c) <= 9).
Proof.
  assert (H : forall x, (Rabs x <= 1)%R -> 0 <= activation_digit x <= 9).
  { intros x Hx. unfold activation_digit.
    pose proof (Rabs_pos x) as Hp.
    destruct (base_Int_part (Rabs x * 9.999)) as [Hlo Hhi].
    set (r := (Rabs x * 9.999)%R) in *.
    assert (Hr : (0 <= r < 10)%R) by (subst r; split; nra).
    split.
    - assert (Hz : (-1 < Int_part r)%Z) by (apply lt_IZR; lra). lia.
    - assert (Hz : (Int_part r < 10)%Z) by (apply lt_IZR; lra). lia. }
  split; [exact H|].
  intros pattern st c Ht Hso Hc. apply H.
  destruct (calculate_output_fills pattern st 0 c Ht) as [Hlo Hhi];
    [lia | exact Hc|].
  rewrite Rabs_pos_eq; lra.
Qed.

(** ** The training loop *)

Lemma calculate_network_training_frame pattern target st :
  training_frame (calculate_network pattern target st) st.
Proof.
  unfold calculate_network.
  pose proof (calculate_output_frame pattern st) as H1.
  pose proof (calculate_learning_frame target (calculate_output pattern st))
    as H2.
  pose proof (calculate_weight_frame
                (calculate_learning target (calculate_output pattern st)))
    as H3.
  unfold activation_frame in H1. unfold learning_frame in H2.
  unfold same_frame in H3. unfold training_frame.
  repeat match goal with H : _ /\ _ |- _ => destruct H end.
  repeat split; congruence.
Qed.

Lemma training_frame_refl st : training_frame st st.
Proof. repeat split. Qed.

Lemma training_frame_trans s1 s2 s3 :
  training_frame s1 s2 -> training_frame s2 s3 -> training_frame s1 s3.
Proof.
  unfold training_frame. intros H1 H2.
  repeat match goal with H : _ /\ _ |- _ => destruct H end.
  repeat split; congruence.
Qed.

Lemma calculate_network_keeps_zero pattern target st n c k :
  weights st n c k = 0%R ->
  weights (calculate_network pattern target st) n c k = 0%R.
Proof.
  intros H. unfold calculate_network. apply calculate_weight_keeps_zero.
  now rewrite calculate_learning_weights, calculate_output_weights.
Qed.

Lemma calculate_network_inv pattern target st :
  (forall i, 0 <= pattern i)%R ->
  training_inv st -> training_inv (calculate_network pattern target st).
Proof.
  intros Hp H. unfold calculate_network.
  apply calculate_weight_inv, calculate_learning_inv.
  now apply calculate_output_inv.
Qed.

Lemma training_loop_within (I : ed_state -> Prop)
  (inputs targets : Z -> Z -> R) (pattern_count write_mode : Z) :
  (forall st, I st -> I (train_epoch inputs targets pattern_count st)) ->
  (forall st, I st -> I (set_error_count 0 (set_error_total 0%R st))) ->
  forall fuel epoch_counter st,
    10001 - epoch_counter <= Z.of_nat fuel -> (0 < fuel)%nat -> I st ->
    exists e st',
      training_loop fuel inputs targets pattern_count write_mode
        epoch_counter st = Some (e, st') /\
      epoch_counter < e /\ (e <= 10001 \/ e = epoch_counter + 1) /\
      (e <= 10000 -> (error_total st' < 0.1)%R) /\ I st'.
Proof.
  intros Hepoch Hreset.
  induction fuel as [|fuel IH]; intros ec st Hfuel Hpos Hst; [lia|].
  simpl. unfold write_weight_neuron.
  pose proof (Hepoch st Hst) as H1.
  set (st1 := train_epoch inputs targets pattern_count st) in *.
  rewrite Z.gtb_ltb.
  destruct (Z.ltb_spec 10000 (ec + 1)) as [Hmax|Hmax].
  - exists (ec + 1), st1. simpl.
    split; [reflexivity|]. repeat split; try lia. exact H1.
  - destruct (Rlt_dec (error_total st1) 0.1) as [Hconv|Hconv].
    + exists (ec + 1), st1. simpl.
      split; [reflexivity|]. split; [lia|]. split; [lia|].
      split; [intros _; exact Hconv | exact H1].
    + simpl.
      destruct (IH (ec + 1) (set_error_count 0 (set_error_total 0%R st1)))
        as (e & st' & Hrun & He & Hb & Hc & HI); [lia | lia | auto|].
      exists e, st'. split; [exact Hrun|]. split; [lia|]. split; [lia|].
      split; assumption.
Qed.

Lemma pattern_cursor_defined write_mode print_position loop_pattern :
  ~ (write_mode = 2 /\ print_position = 30) ->
  exists cursor,
    pattern_cursor write_mode print_position loop_pattern = Some cursor.
Proof.
  intros H. unfold pattern_cursor.
  destruct (Z.eqb_spec write_mode 1); [eauto|].
  destruct (Z.eqb_spec write_mode 2); [|eauto].
  destruct (Z.eqb_spec (30 - print_position) 0); [|eauto].
  exfalso. apply H. split; lia.
Qed.

Lemma run_patterns_defined inputs targets write_mode print_position
  (patterns : list Z) :
  ~ (write_mode = 2 /\ print_position = 30) ->
  forall st,
    run_patterns inputs targets write_mode print_position patterns st =
    Some (fold_left
            (fun s loop_pattern =>
               calculate_network (inputs loop_pattern) (targets loop_pattern)
                 s) patterns st).
Proof.
  intros H. induction patterns as [|p l IH]; simpl; intros st; [reflexivity|].
  destruct (pattern_cursor_defined write_mode print_position p H) as [c ->].
  apply IH.
Qed.

Lemma displayed_epoch_defined inputs targets pattern_count write_mode
  print_position st :
  ~ (write_mode = 2 /\ print_position = 30 /\ 1 <= pattern_count) ->
  displayed_epoch inputs targets pattern_count write_mode print_position st =
  Some (train_epoch inputs targets pattern_count st).
Proof.
  intros H. unfold displayed_epoch, train_epoch, for_loop.
  destruct (Z_le_dec 1 pattern_count) as [Hpc|Hpc].
  - apply run_patterns_defined. tauto.
  - unfold zrange.
    replace (Z.to_nat (pattern_count - 1 + 1 - 0)) with 0%nat by lia.
    reflexivity.
Qed.

Lemma displayed_epoch_traps inputs targets pattern_count st :
  1 <= pattern_count ->
  displayed_epoch inputs targets pattern_count 2 30 st = None.
Proof.
  intros H. unfold displayed_epoch.
  rewrite (zrange_app 0 0 (pattern_count - 1)) by lia. reflexivity.
Qed.

Lemma training_run_loop inputs targets pattern_count write_mode
  print_position :
  ~ (write_mode = 2 /\ print_position = 30 /\ 1 <= pattern_count) ->
  forall fuel epoch_counter st,
    training_run fuel inputs targets pattern_count write_mode print_position
      epoch_counter st =
    match training_loop fuel inputs targets pattern_count write_mode
            epoch_counter st with
    | Some (e, st') => Returned e st'
    | None => Unfinished
    end.
Proof.
  intros H. induction fuel as [|fuel IH]; intros ec st; [reflexivity|].
  simpl. rewrite displayed_epoch_defined by exact H.
  destruct (write_weight_neuron (ec + 1) write_mode pattern_count
              (train_epoch inputs targets pattern_count st)) as [stop st1].
  destruct (stop =? 0); [apply IH | reflexivity].
Qed.

(** X24: the training loop of [main] either is stopped by its display
    code or stops by itself.  In display mode 2 with display offset 30 and
    at least one pattern, the cursor computation before the first
    training step divides by zero.  In every other case the loop, started
    at epoch counter 0, returns after at least 1 and at most 10001 epochs,
    with the state the training steps alone produce, and when it returns
    before epoch 10001 the accumulated error of its last epoch is below
    0.1. *)
Theorem training_loop_terminates
  (inputs targets : Z -> Z -> R)
  (pattern_count write_mode print_position : Z)
  (st : ed_state) (fuel : nat) :
  10001 <= Z.of_nat fuel ->
  (write_mode = 2 /\ print_position = 30 /\ 1 <= pattern_count ->
   training_run fuel inputs targets pattern_count write_mode print_position
     0 st = Trapped) /\
  (~ (write_mode = 2 /\ print_position = 30 /\ 1 <= pattern_count) ->
   exists e st',
     training_run fuel inputs targets pattern_count write_mode
       print_position 0 st = Returned e st' /\
     training_loop fuel inputs targets pattern_count write_mode 0 st =
       Some (e, st') /\
     1 <= e <= 10001 /\
     (e <= 10000 -> (error_total st' < 0.1)%R)).
Proof.
  intros Hfuel. split.
  - intros (-> & -> & Hpc). destruct fuel as [|fuel]; [simpl in Hfuel; lia|].
    simpl. now rewrite displayed_epoch_traps.
  - intros Hok.
    destruct (training_loop_within (fun _ => True) inputs targets
                pattern_count write_mode (fun _ _ => I) (fun _ _ => I)
                fuel 0 st) as (e & st' & Hrun & He & Hb & Hc & _);
      [lia | lia | exact I|].
    exists e, st'. rewrite training_run_loop by exact Hok. rewrite Hrun.
    split; [reflexivity|]. split; [reflexivity|]. split; [lia | exact Hc].
Qed.

Lemma training_loop_terminates_witness :
  training_run (Z.to_nat 10001) (fun _ _ => 1%R) (fun _ _ => 1%R) 1 2 30
    0 sample_state = Trapped /\
  exists e st',
    training_run (Z.to_nat 10001) (fun _ _ => 1%R) (fun _ _ => 1%R) 1 2 29
      0 sample_state = Returned e st' /\
    training_loop (Z.to_nat 10001) (fun _ _ => 1%R) (fun _ _ => 1%R) 1 2 0
      sample_state = Some (e, st') /\
    1 <= e <= 10001 /\
    (e <= 10000 -> (error_total st' < 0.1)%R).
Proof.
  assert (Hfuel : 10001 <= Z.of_nat (Z.to_nat 10001)) by lia.
  split.
  - apply (training_loop_terminates (fun _ _ => 1%R) (fun _ _ => 1%R) 1 2 30
             sample_state (Z.to_nat 10001) Hfuel).
    lia.
  - apply (training_loop_terminates (fun _ _ => 1%R) (fun _ _ => 1%R) 1 2 29
             sample_state (Z.to_nat 10001) Hfuel).
    lia.
Defined.

Lemma train_epoch_inv (I : ed_state -> Prop)
  (inputs targets : Z -> Z -> R) (pattern_count : Z) :
  (forall p st, I st -> I (calculate_network (inputs p) (targets p) st)) ->
  forall st, I st -> I (train_epoch inputs targets pattern_count st).
Proof.
  intros Hstep st Hst. unfold train_epoch.
  apply (for_loop_inv I); [|exact Hst].
  intros p s _ Hs. now apply Hstep.
Qed.

(** X25: a whole training run changes the network only in its weights,
    activations, error table and error counters: dimensions, polarity
    vector, parameters and random generator come out as they went in, and
    a connection whose weight was 0 at the start still has weight 0 at the
    end. *)
Theorem training_keeps_structure
  (inputs targets : Z -> Z -> R) (pattern_count write_mode : Z)
  (st : ed_state) (fuel : nat) :
  10001 <= Z.of_nat fuel ->
  exists e st',
    training_loop fuel inputs targets pattern_count write_mode 0 st =
      Some (e, st') /\
    training_frame st' st /\
    (forall n c k, weights st n c k = 0%R -> weights st' n c k = 0%R).
Proof.
  intros Hfuel.
  destruct (training_loop_within
              (fun s => training_frame s st /\
                 forall n c k, weights st n c k = 0%R ->
                               weights s n c k = 0%R)
              inputs targets pattern_count write_mode) with
    (fuel := fuel) (epoch_counter := 0) (st := st)
    as (e & st' & Hrun & _ & _ & _ & HI).
  - intros s Hs.
    apply (train_epoch_inv
             (fun s => training_frame s st /\
                forall n c k, weights st n c k = 0%R ->
                              weights s n c k = 0%R)); [|exact Hs].
    intros p s' [Hf Hz]. split.
    + eapply training_frame_trans;
        [apply calculate_network_training_frame | exact Hf].
    + intros n c k H0. apply calculate_network_keeps_zero. now apply Hz.
  - intros s [Hf Hz]. split; [exact Hf | exact Hz].
  - lia.
  - lia.
  - split; [apply training_frame_refl | auto].
  - exists e, st'. split; [exact Hrun | exact HI].
Qed.

Lemma training_keeps_structure_witness :
  exists e st',
    training_loop (Z.to_nat 10001) (fun _ _ => 1%R) (fun _ _ => 1%R) 1 0 0
      sample_state = Some (e, st') /\
    training_frame st' sample_state /\
    (forall n c k, weights sample_state n c k = 0%R ->
                   weights st' n c k = 0%R).
Proof.
  apply (training_keeps_structure (fun _ _ => 1%R) (fun _ _ => 1%R) 1 0
           sample_state (Z.to_nat 10001)).
  lia.
Defined.

(** X26: the program as a whole keeps the sign constraint: in selective
    mode, with non-negative initialisation ranges, learning rate, bias and
    error amplification and non-negative training inputs, [init_network]
    on a fresh program followed by the training loop returns a network in
    which every weight is 0 or has the sign of
    [polarity[source] * polarity[target]]. *)
Theorem trained_network_sign_constraint
  (init_input init_output init_hidden init_hidden2 : Z)
  (inputs targets : Z -> Z -> R) (pattern_count write_mode : Z)
  (st : ed_state) (fuel : nat) :
  fresh st ->
  (0 <= init_range_weight st)%R -> (0 <= init_range_threshold st)%R ->
  (0 <= bias st)%R -> (0 <= learning_rate st)%R ->
  (0 <= error_amplification st)%R ->
  config_flags st 10 <> 1 ->
  (forall p i, 0 <= inputs p i)%R ->
  10001 <= Z.of_nat fuel ->
  exists e st',
    training_loop fuel inputs targets pattern_count write_mode 0
      (init_network init_input init_output init_hidden init_hidden2 st) =
      Some (e, st') /\
    sign_ok st'.
Proof.
  intros Hfresh Hw Ht Hb Hl Ha Hfl Hin Hfuel.
  destruct (training_loop_within training_inv
              inputs targets pattern_count write_mode) with
    (fuel := fuel) (epoch_counter := 0)
    (st := init_network init_input init_output init_hidden init_hidden2 st)
    as (e & st' & Hrun & _ & _ & _ & HI).
  - intros s Hs. apply (train_epoch_inv training_inv); [|exact Hs].
    intros p s' Hs'. apply calculate_network_inv; [apply Hin | exact Hs'].
  - intros s Hs. exact Hs.
  - lia.
  - lia.
  - now apply init_network_inv.
  - exists e, st'. split; [exact Hrun | apply HI].
Qed.

Lemma trained_network_sign_constraint_witness :
  exists e st',
    training_loop (Z.to_nat 10001) (fun _ _ => 1%R) (fun _ _ => 1%R) 1 0 0
      (init_network 4 1 8 0 (default_params (fun _ => 5000%nat))) =
      Some (e, st') /\
    sign_ok st'.
Proof.
  apply (trained_network_sign_constraint 4 1 8 0
           (fun _ _ => 1%R) (fun _ _ => 1%R) 1 0
           (default_params (fun _ => 5000%nat)) (Z.to_nat 10001));
    [repeat split | simpl; lra | simpl; lra | simpl; lra | simpl; lra
    | simpl; lra | simpl; discriminate | intros p i; lra | lia].
Defined.

(** ** learning_pattern_generation: inputs and targets *)

Lemma binary_input_testbit c s :
  0 <= s ->
  binary_input c s = if Z.testbit c s then 1%R else 0%R.
Proof.
  intros Hs. unfold binary_input.
  rewrite Z.shiftl_1_l.
  destruct (Z.testbit c s) eqn:Hb.
  - destruct (Z.eqb_spec (Z.land c (2 ^ s)) 0) as [E|E]; [|reflexivity].
    assert (Hbit : Z.testbit (Z.land c (2 ^ s)) s = true).
    { rewrite Z.land_spec, Hb, Z.pow2_bits_true by lia. reflexivity. }
    rewrite E, Z.bits_0 in Hbit. discriminate.
  - destruct (Z.eqb_spec (Z.land c (2 ^ s)) 0) as [E|E]; [reflexivity|].
    exfalso. apply E. apply Z.bits_inj'. intros i Hi.
    rewrite Z.land_spec, Z.bits_0.
    destruct (Z.eq_dec i s) as [->|Hne].
    + rewrite Hb. reflexivity.
    + rewrite Z.pow2_bits_false by lia. apply andb_false_r.
Qed.

(** X27: the systematic binary generator writes only 0 and 1, the entry
    for input [s] being bit [s] of the pattern index; so two pattern
    indices below [2^m] that get the same [m] inputs are the same index:
    the first [2^m] patterns are pairwise distinct. *)
Theorem binary_patterns_distinct (m c c' : Z) :
  0 <= m <= 31 -> 0 <= c < 2 ^ m -> 0 <= c' < 2 ^ m ->
  (forall s, 0 <= s < m ->
     (binary_input c s = 0%R \/ binary_input c s = 1%R) /\
     (binary_input c s = 1%R <-> Z.testbit c s = true)) /\
  ((forall s, 0 <= s < m -> binary_input c s = binary_input c' s) ->
   c = c').
Proof.
  intros Hm Hc Hc'. split.
  - intros s Hs. rewrite binary_input_testbit by lia.
    destruct (Z.testbit c s); split; auto; split; intros H;
      solve [reflexivity | discriminate | lra].
  - intros Heq. apply Z.bits_inj'. intros i Hi.
    destruct (Z_lt_dec i m) as [Hlt|Hge].
    + specialize (Heq i (conj Hi Hlt)).
      rewrite !binary_input_testbit in Heq by lia.
      destruct (Z.testbit c i), (Z.testbit c' i); auto; lra.
    + assert (Hhigh : forall a, 0 <= a < 2 ^ m -> Z.testbit a i = false).
      { intros a Ha. destruct (Z.eq_dec a 0) as [->|Hne];
          [apply Z.bits_0|].
        apply Z.bits_above_log2; [lia|].
        assert (Z.log2 a < m) by (apply Z.log2_lt_pow2; lia). lia. }
      now rewrite !Hhigh.
Qed.

Lemma binary_patterns_distinct_witness :
  (binary_input 1 0 = 0%R \/ binary_input 1 0 = 1%R) /\
  (binary_input 1 0 = 1%R <-> Z.testbit 1 0 = true).
Proof.
  assert (Hm : 0 <= 2 <= 31) by lia.
  assert (Hc : 0 <= 1 < 2 ^ 2) by (simpl; lia).
  assert (Hs : 0 <= 0 < 2) by lia.
  exact (proj1 (binary_patterns_distinct 2 1 1 Hm Hc Hc) 0 Hs).
Defined.

Lemma parity_fold_acc (row : Z -> R) (l : list Z) (a : Z) :
  fold_left
    (fun cnt s => if Rlt_dec 0.5%R (row s) then cnt + 1 else cnt) l a =
  a + fold_left
        (fun cnt s => if Rlt_dec 0.5%R (row s) then cnt + 1 else cnt) l 0.
Proof.
  revert a. induction l as [|x l IH]; simpl; intros a; [lia|].
  destruct (Rlt_dec 0.5 (row x)); [|apply IH].
  rewrite (IH (a + 1)), (IH 1). lia.
Qed.

Lemma parity_fold_nonneg (row : Z -> R) (l : list Z) :
  0 <= fold_left
         (fun cnt s => if Rlt_dec 0.5%R (row s) then cnt + 1 else cnt) l 0.
Proof.
  induction l as [|x l IH]; simpl; [lia|].
  rewrite parity_fold_acc. destruct (Rlt_dec 0.5 (row x)); lia.
Qed.

Lemma parity_fold_agree (row row' : Z -> R) (l : list Z) (a : Z) :
  (forall s, In s l -> row' s = row s) ->
  fold_left
    (fun cnt s => if Rlt_dec 0.5%R (row' s) then cnt + 1 else cnt) l a =
  fold_left
    (fun cnt s => if Rlt_dec 0.5%R (row s) then cnt + 1 else cnt) l a.
Proof.
  revert a. induction l as [|x l IH]; simpl; intros a H; [reflexivity|].
  rewrite (H x) by auto. apply IH. auto.
Qed.

Lemma parity_fold_flip (row row' : Z -> R) (l : list Z) (j : Z) :
  NoDup l -> In j l ->
  (forall s, s <> j -> row' s = row s) ->
  ((0.5 < row j)%R <-> ~ (0.5 < row' j)%R) ->
  fold_left
    (fun cnt s => if Rlt_dec 0.5%R (row' s) then cnt + 1 else cnt) l 0 =
  fold_left
    (fun cnt s => if Rlt_dec 0.5%R (row s) then cnt + 1 else cnt) l 0 +
  (if Rlt_dec 0.5%R (row' j) then 1 else -1).
Proof.
  intros Hnd Hin Hoff Hflip.
  induction l as [|x l IH]; simpl; [contradiction|].
  inversion Hnd as [|? ? Hnotin Hnd']; subst.
  rewrite (parity_fold_acc row'), (parity_fold_acc row).
  destruct (Z.eq_dec x j) as [->|Hne].
  - rewrite (parity_fold_agree row row' l 0)
      by (intros s Hs; apply Hoff; intros ->; contradiction).
    destruct (Rlt_dec 0.5 (row' j)), (Rlt_dec 0.5 (row j)); try lia;
      tauto.
  - destruct Hin as [E|Hin]; [contradiction|].
    rewrite (IH Hnd' Hin). rewrite (Hoff x Hne).
    destruct (Rlt_dec 0.5 (row x)); lia.
Qed.

(** X28: the parity target is 0 or 1 and flips whenever exactly one of the
    logical inputs crosses the threshold 0.5: two input rows that differ
    in one input only, high in one row and low in the other, get opposite
    targets. *)
Theorem parity_flips (row row' : Z -> R) (size_input j : Z) :
  0 <= j <= Z.quot size_input 2 - 1 ->
  (forall s, s <> j -> row' s = row s) ->
  ((0.5 < row j)%R <-> ~ (0.5 < row' j)%R) ->
  (parity_target row size_input = 0%R \/
   parity_target row size_input = 1%R) /\
  parity_target row' size_input = (1 - parity_target row size_input)%R.
Proof.
  intros Hj Hoff Hflip.
  assert (Hcnt : parity_count row' size_input =
                 parity_count row size_input +
                 (if Rlt_dec 0.5%R (row' j) then 1 else -1)).
  { unfold parity_count.
    apply parity_fold_flip; [apply NoDup_zrange | | exact Hoff | exact Hflip].
    now apply in_zrange. }
  assert (H0 : 0 <= parity_count row size_input)
    by (unfold parity_count; apply parity_fold_nonneg).
  assert (H0' : 0 <= parity_count row' size_input)
    by (unfold parity_count; apply parity_fold_nonneg).
  unfold parity_target.
  set (n := parity_count row size_input) in *.
  set (n' := parity_count row' size_input) in *.
  split; [destruct (Z.rem n 2 =? 1); auto|].
  assert (Hrem : (Z.rem n' 2 =? 1) = negb (Z.rem n 2 =? 1)).
  { rewrite !Z.rem_mod_nonneg by lia.
    destruct (Z.eqb_spec (n' mod 2) 1), (Z.eqb_spec (n mod 2) 1);
      simpl; try reflexivity; exfalso;
      destruct (Rlt_dec 0.5 (row' j));
      Z.to_euclidean_division_equations; lia. }
  rewrite Hrem. destruct (Z.rem n 2 =? 1); simpl; ring.
Qed.

Lemma parity_flips_witness :
  (parity_target (fun _ => 0%R) 4 = 0%R \/
   parity_target (fun _ => 0%R) 4 = 1%R) /\
  parity_target (fun s => if s =? 0 then 1%R else 0%R) 4 =
    (1 - parity_target (fun _ => 0%R) 4)%R.
Proof.
  apply (parity_flips (fun _ => 0%R) (fun s => if s =? 0 then 1%R else 0%R)
           4 0).
  - simpl. lia.
  - intros s Hs. destruct (Z.eqb_spec s 0); [contradiction | reflexivity].
  - simpl. split; intros H; lra.
Defined.

Lemma mirror_fold_spec (row : Z -> R) (q : Z) (l : list Z) (a : Z) :
  fold_left
    (fun flag s => if Req_dec_T (row s) (row (q - s)) then flag else 1)
    l a = 1 <->
  a = 1 \/ exists s, In s l /\ row s <> row (q - s).
Proof.
  revert a. induction l as [|x l IH]; simpl; intros a.
  - split; [auto | intros [H|(s & [] & _)]; exact H].
  - rewrite IH. destruct (Req_dec_T (row x) (row (q - x))) as [E|E].
    + split.
      * intros [H|(s & Hs & Hne)]; [auto|]. right. exists s. auto.
      * intros [H|(s & [->|Hs] & Hne)]; [auto | contradiction|].
        right. exists s. auto.
    + split; [|auto]. intros _. right. exists x. auto.
Qed.

(** X29: the mirror target is 1 exactly when the row of logical inputs
    reads the same from both ends, every input [s] of the first half
    being equal to its mirror image [size_input/2 - 1 - s], and is 0
    otherwise. *)
Theorem mirror_target_symmetric (row : Z -> R) (size_input : Z) :
  (mirror_target row size_input = 1%R <->
   forall s, 0 <= s <= Z.quot size_input 4 - 1 ->
     row s = row (Z.quot size_input 2 - 1 - s)) /\
  (mirror_target row size_input = 0%R \/
   mirror_target row size_input = 1%R).
Proof.
  unfold mirror_target, mirror_flag.
  pose proof (mirror_fold_spec row (Z.quot size_input 2 - 1)
                (zrange 0 (Z.quot size_input 4 - 1)) 0) as Hspec.
  set (flag := fold_left _ _ 0) in *.
  split; [|destruct (flag =? 1); auto].
  destruct (Z.eqb_spec flag 1) as [E|E].
  - split; [intros H; lra|].
    intros Hsym. apply Hspec in E as [E|(s & Hs & Hne)]; [discriminate|].
    exfalso. apply Hne, Hsym. now apply in_zrange.
  - split; [|reflexivity]. intros _ s Hs.
    destruct (Req_dec_T (row s) (row (Z.quot size_input 2 - 1 - s)))
      as [Heq|Hne]; [exact Heq|].
    exfalso. apply E, Hspec. right. exists s.
    split; [now apply in_zrange | exact Hne].
Qed.
